(** * NeurADP for ride pooling: the environment of [Environment.py]

    A shallow embedding of [Environment] / [NYEnvironment]: the path
    validator [has_valid_path], the per-vehicle stepper [_move_agent], the
    fleet step [simulate_motion] with its rebalancing assignment, the
    bounded request history and the request-file reader
    [get_request_batch].

    Conventions.
    - Times are Python floats in the source.  They are taken here as exact
      integers (seconds), so [+], [-] and the comparisons are the exact
      ones; rounding is outside this model.
    - Locations are indices into the travel-time and shortest-path tables,
      which are data files: the tables are functions carried by the
      environment record.
    - A Python exception is a [Raise] result; a [while] loop is run with
      fuel and reports [OutOfFuel] when the fuel does not suffice.
    - [Path.py], [Request.py] and [LearningAgent.py] are not among the
      sources; what the environment uses of them is modelled from the
      specification and marked as such.

    Besides the environment, the file covers [get_initial_state] and
    [get_reward], and from [ValueFunction.py] the scores of
    [RewardPlusDelay.get_value] (rational numbers, for the delay
    coefficient), the flattening of one network input,
    [_flatten_NN_input], and the reconstruction of a flattened network
    output, [_reconstruct_NN_output]. *)

From Stdlib Require Import String Ascii.
From Stdlib Require Import ZArith List Bool Arith Lia Permutation.
From Stdlib Require DecimalString DecimalNat QArith.
Import ListNotations.
Open Scope Z_scope.

(* ------------------------------------------------------------------ *)
(** ** Results of effectful code *)

Inductive exn : Type :=
| IndexError          (* indexing or sampling out of range *)
| LogicError          (* visit_next_location on an empty path *)
| AssertionError      (* a failed [assert] *)
| UnboundLocalError   (* a local variable read before assignment *)
| ValueError          (* int() of a non-number *)
| DOcplexException.   (* an error reported by docplex while a model is built *)

Inductive result (A : Type) : Type :=
| Ok (a : A)
| Raise (e : exn)
| OutOfFuel.

Arguments Ok {A} a.
Arguments Raise {A} e.
Arguments OutOfFuel {A}.

Definition bind {A B} (m : result A) (k : A -> result B) : result B :=
  match m with
  | Ok a => k a
  | Raise e => Raise e
  | OutOfFuel => OutOfFuel
  end.

Notation "x <- m ;; k" := (bind m (fun x => k))
  (at level 61, m at next level, right associativity).
Notation "' pat <- m ;; k" := (bind m (fun x => match x with pat => k end))
  (at level 61, pat pattern, m at next level, right associativity).

Definition Location := nat.

(* ------------------------------------------------------------------ *)
(** ** Data model *)

Module Request.
(** Modelled from the spec: [Request.py] is not among the sources.  A
    request carries its pickup and dropoff locations ([.pickup] is read
    by [_get_rebalance_targets]), its creation and travel times, the
    reward [value] read by [get_reward], and the two deadlines that
    [Path.get_info] hands to the validator. *)
Record t : Type := mk {
  pickup : Location;
  dropoff : Location;
  creation_time : Z;
  travel_time : Z;
  value : Z;
  pickup_deadline : Z;
  dropoff_deadline : Z
}.
End Request.

Module PathNode.
(** Modelled from the spec: a stop of a plan.  [PathNode(False, 0)] in
    [simulate_motion] gives the constructor's two arguments. *)
Record t : Type := mk {
  is_dropoff : bool;
  request_index : nat;
  expected_visit_time : Z;
  current_capacity : Z
}.

(** [PathNode(is_dropoff, request_index)].  The spec does not give the
    initial value of the two recomputed fields; the validator overwrites
    them and the stepper never reads them. *)
Definition new (is_dropoff : bool) (request_index : nat) : t :=
  mk is_dropoff request_index 0 0.

Definition set_expected_visit_time (n : t) (v : Z) : t :=
  mk (is_dropoff n) (request_index n) v (current_capacity n).

Definition set_current_capacity (n : t) (c : Z) : t :=
  mk (is_dropoff n) (request_index n) (expected_visit_time n) c.
End PathNode.

Module RequestInfo.
(** Modelled from the spec: a request and a flag; [RequestInfo(target,
    False)] in [simulate_motion] gives the constructor. *)
Record t : Type := mk {
  request : Request.t;
  assigned : bool
}.
End RequestInfo.

Module Path.
(** Modelled from the spec: the visit order, the request entries it
    serves, the declared occupancy and the derived total delay.  Every
    slot of [request_order] is a node object of its own (a node belongs
    to one path, once). *)
Record t : Type := mk {
  requests : list RequestInfo.t;
  request_order : list PathNode.t;
  current_capacity : Z;
  total_delay : Z
}.

Definition set_request_order (p : t) (o : list PathNode.t) : t :=
  mk (requests p) o (current_capacity p) (total_delay p).

Definition set_requests (p : t) (r : list RequestInfo.t) : t :=
  mk r (request_order p) (current_capacity p) (total_delay p).

Definition set_total_delay (p : t) (d : Z) : t :=
  mk (requests p) (request_order p) (current_capacity p) d.

(** Modelled from the spec: [get_info(node)] looks the node's request up
    in [requests] and returns the pickup location and deadline for a
    pickup node, the dropoff location and deadline for a dropoff node.
    An index outside the list is Python's [IndexError]. *)
Definition get_info (p : t) (node : PathNode.t) : result (Location * Z) :=
  match nth_error (requests p) (PathNode.request_index node) with
  | Some info =>
      let r := RequestInfo.request info in
      if PathNode.is_dropoff node
      then Ok (Request.dropoff r, Request.dropoff_deadline r)
      else Ok (Request.pickup r, Request.pickup_deadline r)
  | None => Raise IndexError
  end.

(** Modelled from the spec: [is_empty()] holds when the visit order has
    no node left. *)
Definition is_empty (p : t) : bool :=
  match request_order p with
  | [] => true
  | _ :: _ => false
  end.

(** Modelled from the spec: [get_next_location()] is the location of the
    head node, or none when the path is empty. *)
Definition get_next_location (p : t) : result (option Location) :=
  match request_order p with
  | [] => Ok None
  | node :: _ => '(location, _) <- get_info p node ;; Ok (Some location)
  end.

(** Modelled from the spec: [visit_next_location()] pops the head node,
    and is a [LogicError] on an empty path. *)
Definition visit_next_location (p : t) : result t :=
  match request_order p with
  | [] => Raise LogicError
  | _ :: rest => Ok (set_request_order p rest)
  end.
End Path.

Module Position.
Record t : Type := mk {
  next_location : Location;
  time_to_next_location : Z
}.
End Position.

Module LearningAgent.
(** Modelled from the spec: a vehicle has an identity, a position and a
    path ([agent.id], [agent.position], [agent.path] in the source). *)
Record t : Type := mk {
  id : nat;
  position : Position.t;
  path : Path.t
}.

Definition set_path (a : t) (p : Path.t) : t := mk (id a) (position a) p.
Definition set_position (a : t) (q : Position.t) : t := mk (id a) q (path a).
End LearningAgent.

Module NYEnvironment.
(** The fields of [NYEnvironment] that the modelled methods read or
    write.  [travel_time] and [shortest_path] are the two tables read
    from the data files. *)
Record t : Type := mk {
  current_time : Z;
  travel_time : Location -> Location -> Z;
  shortest_path : Location -> Location -> Location;
  ignored_zones : list nat;
  MAX_CAPACITY : Z;
  recent_request_history : list Request.t
}.

Definition set_recent_request_history (e : t) (h : list Request.t) : t :=
  mk (current_time e) (travel_time e) (shortest_path e) (ignored_zones e)
     (MAX_CAPACITY e) h.

End NYEnvironment.

Definition REQUEST_HISTORY_SIZE : nat := 500.
Definition EPOCH_LENGTH : Z := 60.

Definition get_travel_time (self : NYEnvironment.t) (source destination : Location) : Z :=
  NYEnvironment.travel_time self source destination.

Definition get_next_location (self : NYEnvironment.t) (source destination : Location) : Location :=
  NYEnvironment.shortest_path self source destination.

Definition get_epoch_length (self : NYEnvironment.t) : Z := EPOCH_LENGTH.

(* ------------------------------------------------------------------ *)
(** ** The feasibility validator, [NYEnvironment.has_valid_path] *)

(** What [invalid_path_trace] prints: the issue string of each call.  The
    two [Ignored_] issues are printed and the validation goes on. *)
Inductive issue : Type :=
| Incomplete_path
| Does_not_meet_deadline (node_idx : nat)
| Ignored_visit_time_incorrect (node_idx : nat)
| Exceeds_MAX_CAPACITY (node_idx : nat)
| Ignored_capacity_incorrect (node_idx : nat).

(** The running variables of the loop over [request_order]. *)
Record walk : Type := mkwalk {
  w_time : Z;              (* current_time *)
  w_location : Location;   (* current_location *)
  w_capacity : Z;          (* current_capacity *)
  w_delay : Z              (* available_delay *)
}.

(** How the loop over the nodes ends: it ran through ([Completed], with the
    final running variables) or it returned [False] from inside
    ([Rejected]). *)
Inductive verdict : Type :=
| Completed (w : walk)
| Rejected.

(** The loop [for node_idx, node in enumerate(agent.path.request_order)],
    from node [node_idx] on.  It returns the verdict, the nodes as the loop
    leaves them (they are updated in place) and the issues printed. *)
Fixpoint validate_nodes (self : NYEnvironment.t) (p : Path.t)
    (node_idx : nat) (w : walk) (nodes : list PathNode.t)
  : result (verdict * list PathNode.t * list issue) :=
  match nodes with
  | [] => Ok (Completed w, [], [])
  | node :: rest =>
      '(next_location, deadline) <- Path.get_info p node ;;
      let travel_time := get_travel_time self (w_location w) next_location in
      if deadline <? w_time w + travel_time then
        Ok (Rejected, node :: rest, [Does_not_meet_deadline node_idx])
      else
        let current_time := w_time w + travel_time in
        let current_location := next_location in
        let stale_time := negb (PathNode.expected_visit_time node =? current_time) in
        let node1 :=
          if stale_time then PathNode.set_expected_visit_time node current_time
          else node in
        let log1 :=
          if stale_time then [Ignored_visit_time_incorrect node_idx] else [] in
        let available_delay :=
          if PathNode.is_dropoff node1
          then w_delay w + (deadline - PathNode.expected_visit_time node1)
          else w_delay w in
        if NYEnvironment.MAX_CAPACITY self <? w_capacity w then
          Ok (Rejected, node1 :: rest, log1 ++ [Exceeds_MAX_CAPACITY node_idx])
        else
          let next_capacity :=
            if PathNode.is_dropoff node1 then w_capacity w - 1
            else w_capacity w + 1 in
          let stale_cap := negb (PathNode.current_capacity node1 =? next_capacity) in
          let node2 :=
            if stale_cap then PathNode.set_current_capacity node1 next_capacity
            else node1 in
          let log2 :=
            if stale_cap then [Ignored_capacity_incorrect node_idx] else [] in
          let w' := mkwalk current_time current_location
                           (PathNode.current_capacity node2) available_delay in
          '(v, rest', log) <- validate_nodes self p (S node_idx) w' rest ;;
          Ok (v, node2 :: rest', log1 ++ log2 ++ log)
  end.

Section Validator.

(** [Path.is_complete] is defined in [Path.py], which is not among the
    sources.  The validator only consumes its answer, so it is a parameter
    here and every theorem holds for whatever it computes. *)
Variable is_complete : Path.t -> bool.

(** [has_valid_path(agent)]: the returned boolean, the agent as the call
    leaves it, and the issues printed. *)
Definition has_valid_path (self : NYEnvironment.t) (agent : LearningAgent.t)
  : result (bool * LearningAgent.t * list issue) :=
  let p := LearningAgent.path agent in
  if negb (is_complete p) then Ok (false, agent, [Incomplete_path])
  else
    let w0 := mkwalk
      (NYEnvironment.current_time self
       + Position.time_to_next_location (LearningAgent.position agent))
      (Position.next_location (LearningAgent.position agent))
      (Path.current_capacity p)
      0 in
    '(v, nodes', log) <- validate_nodes self p 0 w0 (Path.request_order p) ;;
    match v with
    | Rejected =>
        Ok (false, LearningAgent.set_path agent (Path.set_request_order p nodes'), log)
    | Completed w =>
        Ok (true,
            LearningAgent.set_path agent
              (Path.set_total_delay (Path.set_request_order p nodes') (w_delay w)),
            log)
    end.

End Validator.

(* ------------------------------------------------------------------ *)
(** ** The per-vehicle stepper, [Environment._move_agent] *)

(** [agent.position.next_location == agent.path.get_next_location()]: an
    integer never equals [None]. *)
Definition at_head (next_location : Location) (head : option Location) : bool :=
  match head with
  | Some l => (next_location =? l)%nat
  | None => false
  end.

(** The [while (time_remaining >= 0)] loop; [fuel] bounds the number of
    iterations.  The result is the vehicle as the call leaves it and the
    returned [time_remaining]. *)
Fixpoint _move_agent (self : NYEnvironment.t) (fuel : nat)
    (agent : LearningAgent.t) (time_remaining : Z)
  : result (LearningAgent.t * Z) :=
  if time_remaining <? 0 then Ok (agent, time_remaining)
  else
    match fuel with
    | O => OutOfFuel
    | S fuel' =>
        let pos := LearningAgent.position agent in
        let time_remaining := time_remaining - Position.time_to_next_location pos in
        if 0 <=? time_remaining then
          head <- Path.get_next_location (LearningAgent.path agent) ;;
          path1 <- (if at_head (Position.next_location pos) head
                    then Path.visit_next_location (LearningAgent.path agent)
                    else Ok (LearningAgent.path agent)) ;;
          if negb (Path.is_empty path1) then
            target <- Path.get_next_location path1 ;;
            match target with
            | Some target =>
                let next_location :=
                  get_next_location self (Position.next_location pos) target in
                let pos' :=
                  Position.mk next_location
                    (get_travel_time self (Position.next_location pos) next_location) in
                _move_agent self fuel'
                  (LearningAgent.mk (LearningAgent.id agent) pos' path1)
                  time_remaining
            | None => Raise LogicError  (* not reached: the path is not empty *)
            end
          else
            Ok (LearningAgent.set_path agent path1, time_remaining)  (* break *)
        else
          let pos' :=
            Position.mk (Position.next_location pos)
              (Position.time_to_next_location pos
               - (time_remaining + Position.time_to_next_location pos)) in
          _move_agent self fuel' (LearningAgent.set_position agent pos') time_remaining
    end.

(* ------------------------------------------------------------------ *)
(** ** The bounded request history *)

(** [collections.deque(maxlen=n).append(x)]: a full deque drops its oldest
    (leftmost) item; with [maxlen = 0] nothing is kept. *)
Definition deque_append {A} (maxlen : nat) (d : list A) (x : A) : list A :=
  if (maxlen =? 0)%nat then d
  else if (length d <? maxlen)%nat then d ++ [x]
  else tl d ++ [x].

(** [deque.extend(iterable)]: the items are appended one by one. *)
Definition deque_extend {A} (maxlen : nat) (d : list A) (xs : list A) : list A :=
  fold_left (deque_append maxlen) xs d.

Definition update_recent_requests (self : NYEnvironment.t)
    (recent_requests : list Request.t) : NYEnvironment.t :=
  NYEnvironment.set_recent_request_history self
    (deque_extend REQUEST_HISTORY_SIZE
       (NYEnvironment.recent_request_history self) recent_requests).

(* ------------------------------------------------------------------ *)
(** ** The rebalancing assignment, [Environment._get_rebalance_targets] *)

(** [random.choice(seq)]: [seq[randbelow(len(seq))]], an [IndexError] on an
    empty sequence.  [r] is the raw draw of the random source. *)
Definition choice {A} (r : nat) (seq : list A) : result A :=
  match seq with
  | [] => Raise IndexError
  | _ :: _ =>
      match nth_error seq (r mod length seq) with
      | Some x => Ok x
      | None => Raise IndexError
      end
  end.

(** The sampling loop [for _ in range(len(agents))]: the [i]-th call of
    [choice] consumes the draw [draws i]. *)
Fixpoint sample_targets (history : list Request.t) (draws : nat -> nat)
    (i n : nat) : result (list Request.t) :=
  match n with
  | O => Ok []
  | S n' =>
      target <- choice (draws i) history ;;
      rest <- sample_targets history draws (S i) n' ;;
      Ok (target :: rest)
  end.

Definition sumZ (l : list Z) : Z := fold_right Z.add 0 l.

(** [model.sum(f(i) for i in range(n))]. *)
Definition sum_range (n : nat) (f : nat -> Z) : Z := sumZ (map f (seq 0 n)).

(** The coefficient of [assignments[agent_id, target_id]] in the objective:
    the travel time from the vehicle's next location to the target's
    pickup. *)
Definition assignment_cost (self : NYEnvironment.t)
    (agents : list LearningAgent.t) (possible_targets : list Request.t)
    (agent_id target_id : nat) : Z :=
  match nth_error agents agent_id, nth_error possible_targets target_id with
  | Some agent, Some target =>
      get_travel_time self
        (Position.next_location (LearningAgent.position agent))
        (Request.pickup target)
  | _, _ => 0
  end.

(** The assignment model posted to the solver, for [n] vehicles and [m]
    targets: a valuation [x] of the binary variables is feasible when
    every variable is 0 or 1, every vehicle's row sums to 1 and every
    target's column sums to 1; the objective is the cost-weighted sum. *)
Definition feasible (n m : nat) (x : nat -> nat -> Z) : Prop :=
  (forall a t, (a < n)%nat -> (t < m)%nat -> x a t = 0 \/ x a t = 1) /\
  (forall a, (a < n)%nat -> sum_range m (fun t => x a t) = 1) /\
  (forall t, (t < m)%nat -> sum_range n (fun a => x a t) = 1).

Definition objective (n m : nat) (c x : nat -> nat -> Z) : Z :=
  sum_range m (fun t => sum_range n (fun a => x a t * c a t)).

Definition optimal (n m : nat) (c x : nat -> nat -> Z) : Prop :=
  feasible n m x /\ forall y, feasible n m y -> objective n m c x <= objective n m c y.

(** The loops that read the solution: for every vehicle the first target
    whose variable has value 1 is appended. *)
Definition assigned_target (x : nat -> nat -> Z) (m : nat) (agent_id : nat)
  : option nat :=
  find (fun target_id => x agent_id target_id =? 1) (seq 0 m).

Definition read_assignment (x : nat -> nat -> Z)
    (n : nat) (possible_targets : list Request.t) : list Request.t :=
  flat_map
    (fun agent_id =>
       match assigned_target x (length possible_targets) agent_id with
       | Some target_id =>
           match nth_error possible_targets target_id with
           | Some target => [target]
           | None => []
           end
       | None => []
       end)
    (seq 0 n).

Section Rebalancing.

(** The random source: [draws i] is the raw draw of the [i]-th call of
    [choice]. *)
Variable draws : nat -> nat.

(** [model.solve()] of the external solver (docplex), as a function of the
    assignment model's size and objective coefficients, when it returns:
    [None] when it reports no solution, otherwise the values of the
    binary variables.  A solver that raises an exception of its own, or
    does not return, is outside this model. *)
Variable solve : nat -> nat -> (nat -> nat -> Z) -> option (nat -> nat -> Z).

(** With no vehicle, [binary_var_matrix] is handed two empty ranges of
    keys and docplex refuses them; the sampling loop before it has then
    run zero times. *)
Definition _get_rebalance_targets (self : NYEnvironment.t)
    (agents : list LearningAgent.t) : result (list Request.t) :=
  possible_targets <-
    sample_targets (NYEnvironment.recent_request_history self) draws 0
      (length agents) ;;
  match agents with
  | [] => Raise DOcplexException      (* binary_var_matrix(range(0), range(0)) *)
  | _ :: _ =>
      match solve (length agents) (length possible_targets)
                  (assignment_cost self agents possible_targets) with
      | None => Raise AssertionError      (* assert solution *)
      | Some solution =>
          Ok (read_assignment solution (length agents) possible_targets)
      end
  end.

(* ------------------------------------------------------------------ *)
(** ** The fleet step, [Environment.simulate_motion] *)

(** [agents[slot] = agent] on the list of vehicles. *)
Fixpoint store (agents : list LearningAgent.t) (slot : nat)
    (agent : LearningAgent.t) : list LearningAgent.t :=
  match agents, slot with
  | [], _ => []
  | _ :: rest, O => agent :: rest
  | a :: rest, S slot' => a :: store rest slot' agent
  end.

(** The first loop: every vehicle is moved for one epoch.  The vehicles are
    objects shared between [agents] and [agents_to_rebalance]; a reference
    is modelled by the vehicle's slot in [agents], so
    [agents_to_rebalance] is a list of slots with their spare time. *)
Fixpoint move_agents (self : NYEnvironment.t) (fuel : nat)
    (agents : list LearningAgent.t) (slot : nat)
  : result (list LearningAgent.t * list (nat * Z)) :=
  match agents with
  | [] => Ok ([], [])
  | agent :: rest =>
      '(agent', time_remaining) <-
        _move_agent self fuel agent (get_epoch_length self) ;;
      '(rest', agents_to_rebalance) <- move_agents self fuel rest (S slot) ;;
      Ok (agent' :: rest',
          if 0 <? time_remaining
          then (slot, time_remaining) :: agents_to_rebalance
          else agents_to_rebalance)
  end.

(** [[agent for agent, _ in agents_to_rebalance]], the vehicles handed to
    [_get_rebalance_targets]. *)
Definition rebalanced_agents (agents : list LearningAgent.t)
    (agents_to_rebalance : list (nat * Z)) : list LearningAgent.t :=
  flat_map (fun entry =>
              match nth_error agents (fst entry) with
              | Some agent => [agent]
              | None => []
              end) agents_to_rebalance.

(** One pass of the rebalancing loop's body on the vehicle itself: insert
    the dummy target, move, delete the dummy target. *)
Definition probe (self : NYEnvironment.t) (fuel : nat)
    (agent : LearningAgent.t) (target : Request.t) (time_remaining : Z)
  : result LearningAgent.t :=
  let p := LearningAgent.path agent in
  let p1 := Path.set_requests p (Path.requests p ++ [RequestInfo.mk target false]) in
  let p2 := Path.set_request_order p1 (Path.request_order p1 ++ [PathNode.new false 0]) in
  '(agent', _) <- _move_agent self fuel (LearningAgent.set_path agent p2) time_remaining ;;
  let q := LearningAgent.path agent' in
  Ok (LearningAgent.set_path agent' (Path.set_requests (Path.set_request_order q []) [])).

(** [for idx, target in enumerate(rebalancing_targets)] with
    [agents_to_rebalance[idx]]: the targets are paired with the entries of
    [agents_to_rebalance] from [idx] on; an entry that is missing is an
    [IndexError]. *)
Fixpoint rebalance (self : NYEnvironment.t) (fuel : nat)
    (agents : list LearningAgent.t) (agents_to_rebalance : list (nat * Z))
    (rebalancing_targets : list Request.t) {struct rebalancing_targets}
  : result (list LearningAgent.t) :=
  match rebalancing_targets with
  | [] => Ok agents
  | target :: targets =>
      match agents_to_rebalance with
      | [] => Raise IndexError
      | (slot, time_remaining) :: others =>
          match nth_error agents slot with
          | None => Raise IndexError
          | Some agent =>
              agent' <- probe self fuel agent target time_remaining ;;
              rebalance self fuel (store agents slot agent') others targets
          end
      end
  end.

Definition simulate_motion (self : NYEnvironment.t) (fuel : nat)
    (agents : list LearningAgent.t) (current_requests : list Request.t)
  : result (NYEnvironment.t * list LearningAgent.t) :=
  '(agents, agents_to_rebalance) <- move_agents self fuel agents 0 ;;
  let self := update_recent_requests self current_requests in
  match agents_to_rebalance with
  | [] => Ok (self, agents)
  | _ :: _ =>
      rebalancing_targets <-
        _get_rebalance_targets self (rebalanced_agents agents agents_to_rebalance) ;;
      agents <- rebalance self fuel agents agents_to_rebalance rebalancing_targets ;;
      Ok (self, agents)
  end.

End Rebalancing.

(* ------------------------------------------------------------------ *)
(** ** The request-file reader, [NYEnvironment.get_request_batch] *)

(** [str.strip()] on ASCII text: the white-space characters are 9..13 and
    28..32. *)
Definition is_space (c : ascii) : bool :=
  let n := nat_of_ascii c in
  ((9 <=? n) && (n <=? 13) || (28 <=? n) && (n <=? 32))%nat.

Fixpoint lstrip (s : list ascii) : list ascii :=
  match s with
  | c :: rest => if is_space c then lstrip rest else s
  | [] => []
  end.

Definition strip (s : list ascii) : list ascii := rev (lstrip (rev (lstrip s))).

Definition is_digit (c : ascii) : bool :=
  let n := nat_of_ascii c in ((48 <=? n) && (n <=? 57))%nat.

(** The longest run of digits at the head of [s], and what follows it. *)
Fixpoint span_digits (s : list ascii) : list ascii * list ascii :=
  match s with
  | c :: rest =>
      if is_digit c
      then let '(ds, tail) := span_digits rest in (c :: ds, tail)
      else ([], s)
  | [] => ([], [])
  end.

(** [int(digits)]. *)
Definition int_of_digits (ds : list ascii) : nat :=
  fold_left (fun v c => (10 * v + (nat_of_ascii c - 48))%nat) ds 0%nat.

(** The regular expression [(\d+)] at the head of [s]: the group's value and
    the rest.  Each [\d+] of the two patterns is followed by a character
    that is not a digit, so the greedy match is the only one. *)
Definition match_number (s : list ascii) : option (nat * list ascii) :=
  match span_digits s with
  | ([], _) => None
  | (ds, rest) => Some (int_of_digits ds, rest)
  end.

(** A literal of a pattern at the head of [s]. *)
Fixpoint match_literal (lit s : list ascii) : option (list ascii) :=
  match lit, s with
  | [], _ => Some s
  | a :: lit', c :: s' => if Ascii.eqb a c then match_literal lit' s' else None
  | _ :: _, [] => None
  end.

Definition chars (s : String.string) : list ascii := String.list_ascii_of_string s.

(** [re.match(r'Flows:(\d+)-\d+', line)]: group 1, or [None]. *)
Definition new_epoch_re (line : list ascii) : option nat :=
  match match_literal (chars "Flows:"%string) line with
  | None => None
  | Some s1 =>
      match match_number s1 with
      | None => None
      | Some (epoch, s2) =>
          match match_literal (chars "-"%string) s2 with
          | None => None
          | Some s3 =>
              match match_number s3 with
              | None => None
              | Some _ => Some epoch
              end
          end
      end
  end.

(** [re.match(r'(\d+),(\d+),(\d+)\.0', line)]: groups 1 to 3, or [None]. *)
Definition request_re (line : list ascii) : option (nat * nat * nat) :=
  match match_number line with
  | None => None
  | Some (g1, s1) =>
      match match_literal (chars ","%string) s1 with
      | None => None
      | Some s2 =>
          match match_number s2 with
          | None => None
          | Some (g2, s3) =>
              match match_literal (chars ","%string) s3 with
              | None => None
              | Some s4 =>
                  match match_number s4 with
                  | None => None
                  | Some (g3, s5) =>
                      match match_literal (chars ".0"%string) s5 with
                      | None => None
                      | Some _ => Some (g1, g2, g3)
                      end
                  end
              end
          end
      end
  end.

(** The local variables of the generator between two lines, with
    [self.current_time] and the batches yielded so far.  [current_hour] is
    [None] as long as no assignment to it has run. *)
Record reader : Type := mkreader {
  r_current_time : Z;
  request_list : list Request.t;
  is_first_epoch : bool;
  current_hour : option Z;
  yielded : list (list Request.t)
}.

(** How the generator ends. *)
Inductive exit : Type :=
| StopIteration
| Raised (e : exn).

Definition in_hours (start_hour end_hour current_hour : Z) : bool :=
  (start_hour <=? current_hour) && (current_hour <? end_hour).

Definition ignored (self : NYEnvironment.t) (zone : nat) : bool :=
  existsb (Nat.eqb zone) (NYEnvironment.ignored_zones self).

Section Reader.

(** [Request(source, destination, current_time, travel_time)], the
    constructor of [Request.py], which is not among the sources. *)
Variable Request_new : Location -> Location -> Z -> Z -> Request.t.

Variable self : NYEnvironment.t.
Variables start_hour end_hour : Z.

(** The body of [for line in data_file.readlines()]. *)
Definition read_line (st : reader) (line : String.string) : exn + reader :=
  let line := strip (chars line) in
  match new_epoch_re line with
  | Some current_epoch =>
      if negb (is_first_epoch st) then
        (* int(self.current_time / 3600) truncates *)
        let hour := Z.quot (r_current_time st) 3600 in
        inr (mkreader
               (Z.of_nat current_epoch * EPOCH_LENGTH)
               []
               (is_first_epoch st)
               (Some hour)
               (if in_hours start_hour end_hour hour
                then yielded st ++ [request_list st]
                else yielded st))
      else
        inr (mkreader (r_current_time st) (request_list st) false
                      (current_hour st) (yielded st))
  | None =>
      match request_re line with
      | None => inl AssertionError
      | Some (source, destination, num_requests) =>
          let accepted :=
            negb (ignored self source) && negb (ignored self destination)
            && negb (source =? destination)%nat in
          let request :=
            Request_new source destination (r_current_time st)
              (get_travel_time self source destination) in
          inr (mkreader (r_current_time st)
                        (request_list st
                         ++ (if accepted then repeat request num_requests else []))
                        (is_first_epoch st) (current_hour st) (yielded st))
      end
  end.

(** The loop over the lines: the state when it stops, and the exception
    that stopped it, if any. *)
Fixpoint read_lines (st : reader) (lines : list String.string)
  : reader * option exn :=
  match lines with
  | [] => (st, None)
  | line :: rest =>
      match read_line st line with
      | inl e => (st, Some e)
      | inr st' => read_lines st' rest
      end
  end.

(** [get_request_batch(start_hour, end_hour, day)] run to its end on the
    lines that follow the first line of the data file: the batches it
    yields, each as it is when yielded, and how it ends.

    The model is of a file of ASCII text whose first line converts to a
    number (the line is read and converted before the loop and its value
    is not used) and whose zones are indices of the travel-time table.
    On other files the generator can end earlier than the model does,
    with the [ValueError] of the conversion or the [IndexError] of a
    lookup outside the table.  These two exits are not modelled: the
    statements below are ones that an earlier end of the generator
    cannot break, or are about bodies without such a lookup. *)
Definition get_request_batch (lines : list String.string)
  : list (list Request.t) * exit :=
  let st0 := mkreader (NYEnvironment.current_time self) [] true None [] in
  match read_lines st0 lines with
  | (st, Some e) => (yielded st, Raised e)
  | (st, None) =>
      match current_hour st with
      | None => (yielded st, Raised UnboundLocalError)
      | Some hour =>
          (if in_hours start_hour end_hour hour
           then yielded st ++ [request_list st]
           else yielded st,
           StopIteration)
      end
  end.

End Reader.

(* ------------------------------------------------------------------ *)
(** ** What the validator is checked against

    The arrival times, deadlines and occupancies of a plan, defined from
    the plan alone. *)

(** The location and deadline of a node (a default where the node's
    request index is out of range, which the statements exclude). *)
Definition stop_of (p : Path.t) (node : PathNode.t) : Location * Z :=
  match Path.get_info p node with
  | Ok s => s
  | _ => (0%nat, 0)
  end.

(** Every node of the visit order names a request entry of the path. *)
Definition well_indexed (p : Path.t) : Prop :=
  Forall (fun node => (PathNode.request_index node < length (Path.requests p))%nat)
         (Path.request_order p).

(** The change of occupancy at a node. *)
Definition delta (node : PathNode.t) : Z :=
  if PathNode.is_dropoff node then -1 else 1.

(** The arrival time at every stop, for a vehicle that is at [from] at time
    [t]: the previous arrival time plus the travel time from the previous
    location. *)
Fixpoint arrival_times (self : NYEnvironment.t) (t : Z) (from : Location)
    (stops : list (Location * Z)) : list Z :=
  match stops with
  | [] => []
  | (l, _) :: rest =>
      let t' := t + get_travel_time self from l in
      t' :: arrival_times self t' l rest
  end.

(** The occupancy after the first [k] nodes, from the occupancy [c]. *)
Definition occupancy_after (c : Z) (nodes : list PathNode.t) (k : nat) : Z :=
  c + sumZ (map delta (firstn k nodes)).

(** [deadline - arrival] of every dropoff node. *)
Definition dropoff_slacks (nodes : list PathNode.t)
    (stops : list (Location * Z)) (arrivals : list Z) : list Z :=
  map (fun x => snd (fst (snd x)) - snd (snd x))
      (filter (fun x => PathNode.is_dropoff (fst x))
              (combine nodes (combine stops arrivals))).

Definition stops (agent : LearningAgent.t) : list (Location * Z) :=
  let p := LearningAgent.path agent in
  map (stop_of p) (Path.request_order p).

Definition arrivals (self : NYEnvironment.t) (agent : LearningAgent.t) : list Z :=
  arrival_times self
    (NYEnvironment.current_time self
     + Position.time_to_next_location (LearningAgent.position agent))
    (Position.next_location (LearningAgent.position agent))
    (stops agent).

(** The arrival time at node [k], its deadline, and the occupancy after the
    first [k] nodes of the vehicle's plan. *)
Definition arrival_time (self : NYEnvironment.t) (agent : LearningAgent.t)
    (k : nat) : Z :=
  nth k (arrivals self agent) 0.

Definition deadline (agent : LearningAgent.t) (k : nat) : Z :=
  snd (nth k (stops agent) (0%nat, 0)).

Definition occupancy (agent : LearningAgent.t) (k : nat) : Z :=
  let p := LearningAgent.path agent in
  occupancy_after (Path.current_capacity p) (Path.request_order p) k.

Definition path_length (agent : LearningAgent.t) : nat :=
  length (Path.request_order (LearningAgent.path agent)).

(** Node [k] is reached after its deadline. *)
Definition late (self : NYEnvironment.t) (agent : LearningAgent.t) (k : nat) : Prop :=
  (k < path_length agent)%nat /\ deadline agent k < arrival_time self agent k.

(** The occupancy before node [k]'s own change exceeds the maximum. *)
Definition overfull (self : NYEnvironment.t) (agent : LearningAgent.t) (k : nat) : Prop :=
  (k < path_length agent)%nat /\ NYEnvironment.MAX_CAPACITY self < occupancy agent k.

(* ------------------------------------------------------------------ *)
(** ** Vocabulary of the statements on the other operations *)

(** The issue printed last. *)
Definition reported (log : list issue) : option issue :=
  match rev log with
  | i :: _ => Some i
  | [] => None
  end.

(** The last [n] items of a list. *)
Definition lastn {A} (n : nat) (l : list A) : list A :=
  skipn (length l - n) l.

(** The total cost of handing target [nth a sigma] to vehicle [a]. *)
Definition total_cost (c : nat -> nat -> Z) (sigma : list nat) : Z :=
  sum_range (length sigma) (fun a => c a (nth a sigma 0%nat)).

(** The line is an epoch header / a request line for the reader. *)
Definition header_line (line : String.string) : bool :=
  match new_epoch_re (strip (chars line)) with
  | Some _ => true
  | None => false
  end.

Definition request_line (line : String.string) : bool :=
  match request_re (strip (chars line)) with
  | Some _ => true
  | None => false
  end.

(** The number of lines of a file body that are epoch headers. *)
Definition headers (lines : list String.string) : nat :=
  length (filter header_line lines).

(** Every line passes the reader's format assertion. *)
Definition well_formed (lines : list String.string) : Prop :=
  Forall (fun line => header_line line = true \/ request_line line = true) lines.

(** The epoch headers seen by the reader, counted up to two: none while
    [is_first_epoch] holds, one until [current_hour] is assigned. *)
Definition seen (st : reader) : nat :=
  match current_hour st, is_first_epoch st with
  | Some _, _ => 2
  | None, false => 1
  | None, true => 0
  end.

(** Travel times that fit the stepper's termination: every hop takes at
    least one unit of time. *)
Definition positive_hops (self : NYEnvironment.t) : Prop :=
  forall a b, 1 <= get_travel_time self a b.

(* ------------------------------------------------------------------ *)
(** ** The validator's loop, step by step *)

(** The two in-place corrections of a node. *)
Definition fresh_time (node : PathNode.t) (t : Z) : PathNode.t :=
  if negb (PathNode.expected_visit_time node =? t)
  then PathNode.set_expected_visit_time node t else node.

Definition fresh_capacity (node : PathNode.t) (c : Z) : PathNode.t :=
  if negb (PathNode.current_capacity node =? c)
  then PathNode.set_current_capacity node c else node.

(** The running variables at the start of the validator's loop. *)
Definition start_walk (self : NYEnvironment.t) (agent : LearningAgent.t) : walk :=
  mkwalk
    (NYEnvironment.current_time self
     + Position.time_to_next_location (LearningAgent.position agent))
    (Position.next_location (LearningAgent.position agent))
    (Path.current_capacity (LearningAgent.path agent))
    0.

(** Arrival time, deadline and occupancy along [nodes], for a loop that
    is at the running variables [w]. *)
Definition arrival_from (self : NYEnvironment.t) (p : Path.t) (w : walk)
    (nodes : list PathNode.t) (k : nat) : Z :=
  nth k (arrival_times self (w_time w) (w_location w) (map (stop_of p) nodes)) 0.

Definition deadline_at (p : Path.t) (nodes : list PathNode.t) (k : nat) : Z :=
  snd (nth k (map (stop_of p) nodes) (0%nat, 0)).

Definition occupancy_from (w : walk) (nodes : list PathNode.t) (k : nat) : Z :=
  occupancy_after (w_capacity w) nodes k.

(** The validator returns [False] on the vehicle. *)
Definition fails (is_complete : Path.t -> bool) (self : NYEnvironment.t)
    (agent : LearningAgent.t) : Prop :=
  exists agent' log, has_valid_path is_complete self agent = Ok (false, agent', log).

(** The validator returns [False] on the vehicle and the issue it prints
    last is [i]. *)
Definition fails_with (is_complete : Path.t -> bool) (self : NYEnvironment.t)
    (agent : LearningAgent.t) (i : issue) : Prop :=
  exists agent' log,
    has_valid_path is_complete self agent = Ok (false, agent', log) /\
    reported log = Some i.

(* ------------------------------------------------------------------ *)
(** ** Statements of the specification that the code does not meet as
    worded *)

(** The capacity claim as the specification words it: an accepted plan
    keeps the occupancy within [0, MAX_CAPACITY] after every prefix, and a
    plan with an over-full node is rejected at the first such node with
    the capacity issue. *)
Definition capacity_claim (is_complete : Path.t -> bool)
    (self : NYEnvironment.t) (agent : LearningAgent.t) : Prop :=
  (forall agent' log,
     has_valid_path is_complete self agent = Ok (true, agent', log) ->
     forall k, (k <= path_length agent)%nat ->
       0 <= occupancy agent k <= NYEnvironment.MAX_CAPACITY self) /\
  (forall k,
     overfull self agent k ->
     (forall j, (j < k)%nat -> ~ overfull self agent j) ->
     fails_with is_complete self agent (Exceeds_MAX_CAPACITY k)).

(** The deadline claim as worded: on a complete path the validator fails
    exactly when some node is late, and reports the first late node. *)
Definition deadline_claim (is_complete : Path.t -> bool)
    (self : NYEnvironment.t) (agent : LearningAgent.t) : Prop :=
  is_complete (LearningAgent.path agent) = true ->
  (fails is_complete self agent <-> exists k, late self agent k) /\
  (forall k,
     late self agent k ->
     (forall j, (j < k)%nat -> ~ late self agent j) ->
     fails_with is_complete self agent (Does_not_meet_deadline k)).

(** The no-mutation claim as worded: a failed validation leaves the
    vehicle as it was. *)
Definition unchanged_claim (is_complete : Path.t -> bool)
    (self : NYEnvironment.t) (agent : LearningAgent.t) : Prop :=
  forall agent' log,
    has_valid_path is_complete self agent = Ok (false, agent', log) ->
    agent' = agent.

(** The probe claim as worded: after the rebalancing phase the path of
    every rebalanced vehicle is what it was before the dummy target was
    inserted. *)
Definition probe_claim (draws : nat -> nat)
    (solve : nat -> nat -> (nat -> nat -> Z) -> option (nat -> nat -> Z))
    (self : NYEnvironment.t) (fuel : nat)
    (agents : list LearningAgent.t) (current_requests : list Request.t) : Prop :=
  forall self' agents' moved agents_to_rebalance,
    simulate_motion draws solve self fuel agents current_requests = Ok (self', agents') ->
    move_agents self fuel agents 0 = Ok (moved, agents_to_rebalance) ->
    forall slot time_remaining before after,
      In (slot, time_remaining) agents_to_rebalance ->
      nth_error moved slot = Some before ->
      nth_error agents' slot = Some after ->
      LearningAgent.path after = LearningAgent.path before.

(* ------------------------------------------------------------------ *)
(** ** The history over a run, and the assignment of a solution *)

(** The environments reached from an empty history by calls of
    [update_recent_requests] and of [simulate_motion], with the batches
    appended on the way, oldest first. *)
Inductive appended (draws : nat -> nat)
    (solve : nat -> nat -> (nat -> nat -> Z) -> option (nat -> nat -> Z))
  : list (list Request.t) -> NYEnvironment.t -> Prop :=
| appended_nothing self :
    NYEnvironment.recent_request_history self = [] ->
    appended draws solve [] self
| appended_update batches self recent_requests :
    appended draws solve batches self ->
    appended draws solve (batches ++ [recent_requests])
      (update_recent_requests self recent_requests)
| appended_motion batches self fuel agents current_requests self' agents' :
    appended draws solve batches self ->
    simulate_motion draws solve self fuel agents current_requests = Ok (self', agents') ->
    appended draws solve (batches ++ [current_requests]) self'.

(** The target index read off a solution for every vehicle. *)
Definition assignment_of (x : nat -> nat -> Z) (n m : nat) : list nat :=
  map (fun a => match assigned_target x m a with
                | Some t => t
                | None => 0%nat
                end) (seq 0 n).

(** The valuation that hands target [nth a pi] to vehicle [a]. *)
Definition matrix_of (pi : list nat) (a t : nat) : Z :=
  if (nth a pi 0%nat =? t)%nat then 1 else 0.

(** The solver's contract on one model: an answer is an optimal solution,
    and no answer means that the model has no solution. *)
Definition solves
    (solve : nat -> nat -> (nat -> nat -> Z) -> option (nat -> nat -> Z))
    (n m : nat) (c : nat -> nat -> Z) : Prop :=
  match solve n m c with
  | Some x => optimal n m c x
  | None => forall y, ~ feasible n m y
  end.

(* ------------------------------------------------------------------ *)
(** ** What the stepper is checked against

    The journey of a vehicle, written from the words of the spec and
    without a budget: what happens at each arrival, and how much of a
    budget is left when the vehicle arrives. *)

(** The vehicle on reaching its next location: if that location is where
    the head node of its path is, the node is visited; if a node is left
    then, the vehicle takes the oracle's next hop towards it, and
    otherwise it stays as it is. *)
Definition on_arrival (self : NYEnvironment.t) (agent : LearningAgent.t)
  : LearningAgent.t :=
  let pos := LearningAgent.position agent in
  let p := LearningAgent.path agent in
  let here := Position.next_location pos in
  let to_visit :=
    match Path.request_order p with
    | node :: rest =>
        if (here =? fst (stop_of p node))%nat then rest else node :: rest
    | [] => []
    end in
  let pos' :=
    match to_visit with
    | node :: _ =>
        let hop := get_next_location self here (fst (stop_of p node)) in
        Position.mk hop (get_travel_time self here hop)
    | [] => pos
    end in
  LearningAgent.mk (LearningAgent.id agent) pos' (Path.set_request_order p to_visit).

(** The vehicle after [n] arrivals. *)
Fixpoint after_arrivals (self : NYEnvironment.t) (n : nat) (agent : LearningAgent.t)
  : LearningAgent.t :=
  match n with
  | O => agent
  | S n' => after_arrivals self n' (on_arrival self agent)
  end.

(** What is left of [budget] at the [n]-th arrival: the time of every hop
    made is taken off, one hop after the other. *)
Fixpoint budget_left (self : NYEnvironment.t) (n : nat) (agent : LearningAgent.t)
    (budget : Z) : Z :=
  match n with
  | O => budget
  | S n' =>
      budget_left self n' (on_arrival self agent)
        (budget - Position.time_to_next_location (LearningAgent.position agent))
  end.

(** Tables on which a vehicle gets on: no hop that the oracle proposes
    takes a negative time, and every one takes at least one unit of time
    or ends at the destination (as on the diagonal of the tables, where
    the hop from a location to itself takes no time). *)
Definition hops_advance (self : NYEnvironment.t) : Prop :=
  forall a b,
    let hop := get_next_location self a b in
    0 <= get_travel_time self a hop /\
    (1 <= get_travel_time self a hop \/ hop = b).

(** A vehicle on a hop of such tables: the hop takes no negative time,
    and it takes at least one unit of time or ends where the head node
    of the vehicle's path is. *)
Definition on_a_good_hop (agent : LearningAgent.t) : Prop :=
  let pos := LearningAgent.position agent in
  let p := LearningAgent.path agent in
  0 <= Position.time_to_next_location pos /\
  (1 <= Position.time_to_next_location pos \/
   match Path.request_order p with
   | node :: _ => Position.next_location pos = fst (stop_of p node)
   | [] => True
   end).

(** The total travel time of an assignment, in the words of the claim:
    for every vehicle, the travel time from its position (its next
    location) to the pickup of the target handed to it. *)
Definition travel_time_to_targets (self : NYEnvironment.t)
    (agents : list LearningAgent.t) (targets : list Request.t) : Z :=
  sumZ (map (fun handed =>
               get_travel_time self
                 (Position.next_location (LearningAgent.position (fst handed)))
                 (Request.pickup (snd handed)))
            (combine agents targets)).

(* ------------------------------------------------------------------ *)
(** ** Concrete vehicles and environments *)

Module Sample.

(** Locations on a line, ten time units apart; a hop goes to the
    neighbour on the side of the destination. *)
Definition line_time (a b : Location) : Z :=
  10 * Z.abs (Z.of_nat a - Z.of_nat b).

Definition line_hop (a b : Location) : Location :=
  if (a <? b)%nat then S a else if (b <? a)%nat then pred a else a.

Definition envt (max_capacity : Z) (history : list Request.t) : NYEnvironment.t :=
  NYEnvironment.mk 0 line_time line_hop [] max_capacity history.

(** One admissible [Path.is_complete], following the comment at its call
    in [has_valid_path] ("Make sure that it visits all the requests that
    it has accepted"): every request entry has its dropoff node in the
    visit order. *)
Definition visits_all (p : Path.t) : bool :=
  forallb
    (fun i => existsb (fun node => PathNode.is_dropoff node
                                   && (PathNode.request_index node =? i)%nat)
                      (Path.request_order p))
    (seq 0 (length (Path.requests p))).

(** A request from [a] to [b] with the two deadlines. *)
Definition trip (a b : Location) (pickup_by dropoff_by : Z) : Request.t :=
  Request.mk a b 0 (line_time a b) 1 pickup_by dropoff_by.

Arguments trip (a b)%_nat (pickup_by dropoff_by)%_Z.

Definition vehicle (at_ : Location) (wait : Z) (p : Path.t) : LearningAgent.t :=
  LearningAgent.mk 0 (Position.mk at_ wait) p.

Arguments vehicle at_%_nat wait%_Z p.

Definition pick (i : nat) : PathNode.t := PathNode.new false i.
Definition drop (i : nat) : PathNode.t := PathNode.new true i.

Arguments pick i%_nat.
Arguments drop i%_nat.

(** One trip 1 -> 3, picked up and dropped in time. *)
Definition one_trip : LearningAgent.t :=
  vehicle 0 5
    (Path.mk [RequestInfo.mk (trip 1 3 100 200) true] [pick 0; drop 0] 0 0).

(** The same plan with a dropoff deadline that cannot be met. *)
Definition late_dropoff : LearningAgent.t :=
  vehicle 0 5
    (Path.mk [RequestInfo.mk (trip 1 3 100 30) true] [pick 0; drop 0] 0 0).

(** Two trips picked up one after the other, in a vehicle for one. *)
Definition two_pickups (pickup_by : Z) : LearningAgent.t :=
  vehicle 0 0
    (Path.mk [RequestInfo.mk (trip 1 3 pickup_by 500) true;
              RequestInfo.mk (trip 2 4 500 500) true]
             [pick 0; pick 1; drop 0; drop 1] 0 0).

(** A dropoff on a path that declares nobody on board. *)
Definition lone_dropoff : LearningAgent.t :=
  vehicle 0 0
    (Path.mk [RequestInfo.mk (trip 1 3 100 200) true] [drop 0] 0 0).

(** An idle vehicle, whose path still holds a served request entry. *)
Definition idle_with_entry : LearningAgent.t :=
  vehicle 2 0 (Path.mk [RequestInfo.mk (trip 1 3 100 200) true] [] 0 0).

Definition idle (at_ : Location) : LearningAgent.t :=
  vehicle at_ 0 (Path.mk [] [] 0 0).

Arguments idle at_%_nat.

(** A solver answer: vehicle [a] takes target [a]. *)
Definition diagonal (a t : nat) : Z := if (a =? t)%nat then 1 else 0.

(** An idle vehicle whose path declares two passengers on board. *)
Definition crowded_idle : LearningAgent.t :=
  vehicle 0 0 (Path.mk [] [] 2 0).

(** Two trips picked up, and the second never dropped. *)
Definition unfinished : LearningAgent.t :=
  vehicle 0 0
    (Path.mk [RequestInfo.mk (trip 1 3 500 500) true;
              RequestInfo.mk (trip 2 4 500 500) true]
             [pick 0; pick 1; drop 0] 0 0).

(** An environment in which every hop takes ten units of time and leads
    straight to the destination. *)
Definition flat : NYEnvironment.t :=
  NYEnvironment.mk 0 (fun _ _ => 10) (fun _ destination => destination) [] 1 [].

End Sample.

(* ------------------------------------------------------------------ *)
(** ** Environments that differ in one field *)

(** The environment with its clock set to [now] ([self.current_time] is
    assigned by [get_request_batch] at every epoch header). *)
Definition at_time (self : NYEnvironment.t) (now : Z) : NYEnvironment.t :=
  NYEnvironment.mk now (NYEnvironment.travel_time self)
    (NYEnvironment.shortest_path self) (NYEnvironment.ignored_zones self)
    (NYEnvironment.MAX_CAPACITY self) (NYEnvironment.recent_request_history self).

(** The environment built with another [MAX_CAPACITY]. *)
Definition with_capacity (self : NYEnvironment.t) (max_capacity : Z) : NYEnvironment.t :=
  NYEnvironment.mk (NYEnvironment.current_time self) (NYEnvironment.travel_time self)
    (NYEnvironment.shortest_path self) (NYEnvironment.ignored_zones self)
    max_capacity (NYEnvironment.recent_request_history self).

(* ------------------------------------------------------------------ *)
(** ** What the fleet step and the reader preserve *)

(** What a completed fleet step keeps of a vehicle: its identity, the
    declared occupancy and the total delay of its path. *)
Definition kept (agent : LearningAgent.t) : nat * Z * Z :=
  (LearningAgent.id agent,
   Path.current_capacity (LearningAgent.path agent),
   Path.total_delay (LearningAgent.path agent)).

(** A request as the reader builds it: between two zones that differ and
    are not ignored, with the travel time of the table, stamped with the
    clock at the call or with the start of an epoch. *)
Definition read_from_file (Request_new : Location -> Location -> Z -> Z -> Request.t)
    (self : NYEnvironment.t) (request : Request.t) : Prop :=
  exists source destination time,
    request = Request_new source destination time
                (get_travel_time self source destination) /\
    ignored self source = false /\
    ignored self destination = false /\
    source <> destination /\
    (time = NYEnvironment.current_time self \/
     exists epoch, time = Z.of_nat epoch * EPOCH_LENGTH).

(** The reader between two lines: its clock is the clock at the call or
    the start of an epoch, and the requests it holds and has yielded are
    all built by it. *)
Definition reader_inv (Request_new : Location -> Location -> Z -> Z -> Request.t)
    (self : NYEnvironment.t) (st : reader) : Prop :=
  (r_current_time st = NYEnvironment.current_time self \/
   exists epoch, r_current_time st = Z.of_nat epoch * EPOCH_LENGTH) /\
  Forall (read_from_file Request_new self) (request_list st) /\
  Forall (Forall (read_from_file Request_new self)) (yielded st).

(* ------------------------------------------------------------------ *)
(** ** Decimal text *)

(** [str(n)] of a natural number: its decimal digits, without sign or
    leading zero. *)
Definition str_of_nat (n : nat) : list ascii :=
  chars (DecimalString.NilEmpty.string_of_uint (Nat.to_uint n)).

(** What may follow a run of digits for the run to end there: nothing, or
    a character that is not a digit. *)
Definition stops_digits (rest : list ascii) : Prop :=
  match rest with
  | [] => True
  | c :: _ => is_digit c = false
  end.

(* ------------------------------------------------------------------ *)
(** ** The initial state, [NYEnvironment.get_initial_state] *)

Definition NUM_MAX_AGENTS : Z := 1000.

(** [seq[:stop]]: the first [stop] items, all of them when there are
    fewer; for a negative [stop], all but the last [-stop] items. *)
Definition slice_to {A} (l : list A) (stop : Z) : list A :=
  if stop <? 0 then firstn (length l - Z.to_nat (- stop)) l
  else firstn (Z.to_nat stop) l.

(** [get_initial_state(num_agents)]; [initial_zones] is the field of that
    name, read from the data file by [initialise_environment]. *)
Definition get_initial_state (initial_zones : list Location) (num_agents : Z)
  : result (list Location) :=
  if num_agents <=? NUM_MAX_AGENTS
  then Ok (slice_to initial_zones num_agents)
  else Raise AssertionError.

(* ------------------------------------------------------------------ *)
(** ** Rewards and scores, [Environment.get_reward] and
    [RewardPlusDelay.get_value] *)

Module Action.
(** Modelled from its uses in [Environment.py] and [ValueFunction.py]:
    [Action.py] is not among the sources.  An action carries the requests
    it serves, in the order in which [for request in action.requests]
    visits them, and the path the vehicle would follow, [None] until one
    is set. *)
Record t : Type := mk {
  requests : list Request.t;
  new_path : option Path.t
}.
End Action.

(** [sum([request.value for request in action.requests])]. *)
Definition get_reward (action : Action.t) : Z :=
  sumZ (map Request.value (Action.requests action)).

Section Scores.

(** The truth value of a path object in [assert action.new_path], which
    [Path.py] decides; it is a parameter here. *)
Variable truthy : Path.t -> bool.

(** [self.DELAY_COEFFICIENT], a rational number. *)
Variable DELAY_COEFFICIENT : QArith_base.Q.

(** The body of [for action in feasible_actions]. *)
Definition score_action (action : Action.t) : result (Action.t * QArith_base.Q) :=
  match Action.new_path action with
  | None => Raise AssertionError
  | Some new_path =>
      if truthy new_path then
        let immediate_reward :=
          sumZ (map Request.value (Action.requests action)) in
        let remaining_delay_bonus :=
          QArith_base.Qmult DELAY_COEFFICIENT
            (QArith_base.inject_Z (Path.total_delay new_path)) in
        Ok (action,
            QArith_base.Qplus (QArith_base.inject_Z immediate_reward)
                              remaining_delay_bonus)
      else Raise AssertionError
  end.

Fixpoint score_actions (feasible_actions : list Action.t)
  : result (list (Action.t * QArith_base.Q)) :=
  match feasible_actions with
  | [] => Ok []
  | action :: rest =>
      scored <- score_action action ;;
      scored_actions <- score_actions rest ;;
      Ok (scored :: scored_actions)
  end.

(** [RewardPlusDelay.get_value]: the loop over
    [zip(agents, feasible_actions_all_agents, current_times)] stops at
    the end of the shortest of the three lists. *)
Fixpoint get_value (agents : list LearningAgent.t)
    (feasible_actions_all_agents : list (list Action.t))
    (current_times : list Z)
  : result (list (list (Action.t * QArith_base.Q))) :=
  match agents, feasible_actions_all_agents, current_times with
  | _ :: agents', feasible_actions :: actions', _ :: times' =>
      scored_actions <- score_actions feasible_actions ;;
      scored_actions_all_agents <- get_value agents' actions' times' ;;
      Ok (scored_actions :: scored_actions_all_agents)
  | _, _, _ => Ok []
  end.

End Scores.

(* ------------------------------------------------------------------ *)
(** ** Flattening and reconstruction,
    [NeuralNetworkBased._flatten_NN_input] and [_reconstruct_NN_output] *)

(** The loop of [_flatten_NN_input] that remembers the shape, and the
    [append] that follows it: the offset of every element of
    [array_of_list] in the stacked array, and the total length at the
    end.  With no element the loop leaves the one offset 0; the function
    fails after the loop then, see [_flatten_NN_input] below. *)
Fixpoint shape_info_from {A} (cumulative_sum : nat) (array_of_list : list (list A))
  : list nat :=
  match array_of_list with
  | [] => [cumulative_sum]
  | list_el :: rest =>
      cumulative_sum :: shape_info_from (cumulative_sum + length list_el) rest
  end.

Definition shape_info {A} (array_of_list : list (list A)) : list nat :=
  shape_info_from 0 array_of_list.

(** [_flatten_NN_input] on one entry of [NN_input] whose elements are
    one-dimensional: the elements stacked by [np.hstack], with the shape
    remembered.  After the loop, [list_el] is read to choose between
    [np.vstack] and [np.hstack]; with no element the loop has not bound
    it. *)
Definition _flatten_NN_input {A} (array_of_list : list (list A))
  : result (list A * list nat) :=
  match array_of_list with
  | [] => Raise UnboundLocalError
  | _ :: _ => Ok (concat array_of_list, shape_info array_of_list)
  end.

(** [NN_output[start_idx:end_idx]] for indices that are not negative. *)
Definition slice {A} (l : list A) (start_idx end_idx : nat) : list A :=
  firstn (end_idx - start_idx) (skipn start_idx l).

(** The loop [for idx in range(len(shape_info) - 1)]. *)
Fixpoint reconstruct_from {A} (NN_output : list A) (shape_info : list nat)
  : list (list A) :=
  match shape_info with
  | start_idx :: ((end_idx :: _) as rest) =>
      slice NN_output start_idx end_idx :: reconstruct_from NN_output rest
  | _ => []
  end.

(** [_reconstruct_NN_output(NN_output, shape_info)] on the flattened
    output. *)
Definition _reconstruct_NN_output {A} (NN_output : list A) (shape_info : list nat)
  : result (list (list A)) :=
  match shape_info with
  | [] => Raise AssertionError      (* assert shape_info *)
  | _ :: _ => Ok (reconstruct_from NN_output shape_info)
  end.

(* ================================================================== *)
(** * Theorems *)

(* ------------------------------------------------------------------ *)
(** ** The model on concrete inputs *)

(** A pickup reached in time and a dropoff reached after its deadline: the
    validator returns [False] and names the dropoff node, after it has
    corrected the pickup node. *)
Example late_dropoff_rejected :
  exists agent',
    has_valid_path Sample.visits_all (Sample.envt 1 []) Sample.late_dropoff
    = Ok (false, agent',
          [Ignored_visit_time_incorrect 0; Ignored_capacity_incorrect 0;
           Does_not_meet_deadline 1]).
Proof. eexists. reflexivity. Qed.

(** A vehicle five time units from its next location, with an empty path
    and a budget of ten, has five units to spare. *)
Example idle_vehicle_spare_time :
  _move_agent (Sample.envt 1 []) 5 (Sample.vehicle 0 5 (Path.mk [] [] 0 0)) 10
  = Ok (Sample.vehicle 0 5 (Path.mk [] [] 0 0), 5).
Proof. reflexivity. Qed.

(** A vehicle stopped mid-hop: three units short of location 1. *)
Example vehicle_mid_hop :
  exists agent',
    _move_agent (Sample.envt 1 []) 10 Sample.one_trip 12 = Ok (agent', -3) /\
    LearningAgent.position agent' = Position.mk 1%nat 3.
Proof. eexists. split; reflexivity. Qed.

(** Two epochs of a data file: the batch of the first epoch is yielded at
    the second header, the batch of the second at the end of the file; a
    request from a zone to itself is dropped. *)
Example two_epochs_read :
  let run :=
    get_request_batch (fun a b t d => Sample.trip a b t d) (Sample.envt 1 []) 0 24
      ["Flows:0-0"; " 1,2,2.0 "; "Flows:1-1"; "3,4,1.0"; "3,3,1.0"]%string in
  map (@length Request.t) (fst run) = [2; 1]%nat /\ snd run = StopIteration.
Proof. split; reflexivity. Qed.

(** A full deque drops its oldest item. *)
Example deque_drops_oldest : deque_extend 3 [1; 2; 3] [4; 5] = [3; 4; 5].
Proof. reflexivity. Qed.

(* ------------------------------------------------------------------ *)
(** ** Lemmas on the validator's loop *)

Lemma get_info_stop_of p node s :
  Path.get_info p node = Ok s -> stop_of p node = s.
Proof. unfold stop_of. intros ->. reflexivity. Qed.

Lemma get_info_in_range p node :
  (PathNode.request_index node < length (Path.requests p))%nat ->
  exists s, Path.get_info p node = Ok s.
Proof.
  intros H. unfold Path.get_info.
  destruct (nth_error (Path.requests p) (PathNode.request_index node)) eqn:E.
  - destruct (PathNode.is_dropoff node); eauto.
  - apply nth_error_None in E. lia.
Qed.

Lemma occupancy_after_0 c nodes : occupancy_after c nodes 0 = c.
Proof. unfold occupancy_after. simpl. lia. Qed.

Lemma occupancy_after_S c node nodes k :
  occupancy_after c (node :: nodes) (S k) = occupancy_after (c + delta node) nodes k.
Proof. unfold occupancy_after. simpl. lia. Qed.

Lemma reported_app l1 l2 x : reported l2 = Some x -> reported (l1 ++ l2) = Some x.
Proof.
  unfold reported. rewrite rev_app_distr.
  destruct (rev l2); simpl; [discriminate | auto].
Qed.

Lemma reported_last l x : reported (l ++ [x]) = Some x.
Proof. apply reported_app. reflexivity. Qed.

Lemma fresh_time_spec node t :
  PathNode.expected_visit_time (fresh_time node t) = t /\
  PathNode.current_capacity (fresh_time node t) = PathNode.current_capacity node /\
  PathNode.is_dropoff (fresh_time node t) = PathNode.is_dropoff node /\
  PathNode.request_index (fresh_time node t) = PathNode.request_index node.
Proof.
  unfold fresh_time.
  destruct (PathNode.expected_visit_time node =? t) eqn:E; simpl; auto.
  apply Z.eqb_eq in E. auto.
Qed.

Lemma fresh_capacity_spec node c :
  PathNode.current_capacity (fresh_capacity node c) = c /\
  PathNode.expected_visit_time (fresh_capacity node c) = PathNode.expected_visit_time node /\
  PathNode.is_dropoff (fresh_capacity node c) = PathNode.is_dropoff node /\
  PathNode.request_index (fresh_capacity node c) = PathNode.request_index node.
Proof.
  unfold fresh_capacity.
  destruct (PathNode.current_capacity node =? c) eqn:E; simpl; auto.
  apply Z.eqb_eq in E. auto.
Qed.

(** One iteration of the loop, with the corrections named. *)
Lemma validate_nodes_cons self p i w node rest :
  validate_nodes self p i w (node :: rest) =
  match Path.get_info p node with
  | Ok (l, d) =>
      let t := w_time w + get_travel_time self (w_location w) l in
      if d <? t then Ok (Rejected, node :: rest, [Does_not_meet_deadline i])
      else
        let node1 := fresh_time node t in
        let log1 := if negb (PathNode.expected_visit_time node =? t)
                    then [Ignored_visit_time_incorrect i] else [] in
        if NYEnvironment.MAX_CAPACITY self <? w_capacity w then
          Ok (Rejected, node1 :: rest, log1 ++ [Exceeds_MAX_CAPACITY i])
        else
          let c := w_capacity w + delta node in
          let node2 := fresh_capacity node1 c in
          let log2 := if negb (PathNode.current_capacity node1 =? c)
                      then [Ignored_capacity_incorrect i] else [] in
          let delay := if PathNode.is_dropoff node
                       then w_delay w + (d - t) else w_delay w in
          match validate_nodes self p (S i) (mkwalk t l c delay) rest with
          | Ok (v, rest', log) => Ok (v, node2 :: rest', log1 ++ log2 ++ log)
          | Raise e => Raise e
          | OutOfFuel => OutOfFuel
          end
  | Raise e => Raise e
  | OutOfFuel => OutOfFuel
  end.
Proof.
  simpl. destruct (Path.get_info p node) as [[l d]| |]; simpl; try reflexivity.
  destruct (d <? w_time w + get_travel_time self (w_location w) l); try reflexivity.
  pose proof (fresh_time_spec node (w_time w + get_travel_time self (w_location w) l))
    as (Ht & Hc & Hd & Hr).
  fold (fresh_time node (w_time w + get_travel_time self (w_location w) l)).
  destruct (NYEnvironment.MAX_CAPACITY self <? w_capacity w); try reflexivity.
  rewrite Hd, Ht.
  set (node1 := fresh_time node _) in *.
  assert (Hc' : (if PathNode.is_dropoff node then w_capacity w - 1 else w_capacity w + 1)
               = w_capacity w + delta node).
  { unfold delta. destruct (PathNode.is_dropoff node); lia. }
  rewrite Hc'.
  fold (fresh_capacity node1 (w_capacity w + delta node)).
  pose proof (fresh_capacity_spec node1 (w_capacity w + delta node)) as (Hc2 & _).
  rewrite Hc2.
  destruct (validate_nodes self p (S i) _ rest) as [[[v rest'] log]| |]; reflexivity.
Qed.

Section Walk.

Variable self : NYEnvironment.t.
Variable p : Path.t.

(** A loop that runs through: no node is late or over-full, every node
    carries the recomputed values, and the delay is the dropoff slack. *)
Lemma validate_nodes_completed nodes :
  forall i w w' nodes' log,
    validate_nodes self p i w nodes = Ok (Completed w', nodes', log) ->
    length nodes' = length nodes /\
    w_delay w' = w_delay w
                 + sumZ (dropoff_slacks nodes (map (stop_of p) nodes)
                           (arrival_times self (w_time w) (w_location w)
                              (map (stop_of p) nodes))) /\
    forall k, (k < length nodes)%nat ->
      arrival_from self p w nodes k <= deadline_at p nodes k /\
      occupancy_from w nodes k <= NYEnvironment.MAX_CAPACITY self /\
      exists node node',
        nth_error nodes k = Some node /\ nth_error nodes' k = Some node' /\
        PathNode.expected_visit_time node' = arrival_from self p w nodes k /\
        PathNode.current_capacity node' = occupancy_from w nodes (S k) /\
        PathNode.is_dropoff node' = PathNode.is_dropoff node /\
        PathNode.request_index node' = PathNode.request_index node.
Proof.
  induction nodes as [|node rest IH]; intros i w w' nodes' log H.
  - simpl in H. inversion H; subst. simpl. repeat split; try lia.
  - rewrite validate_nodes_cons in H.
    destruct (Path.get_info p node) as [[l d]| |] eqn:Ei; try discriminate.
    cbv zeta in H.
    destruct (d <? _) eqn:Ed; try discriminate.
    destruct (_ <? w_capacity w) eqn:Ec; try discriminate.
    destruct (validate_nodes self p (S i) _ rest) as [[[v rest'] lg]| |] eqn:Er;
      try discriminate.
    inversion H; subst v nodes' log; clear H.
    apply IH in Er. destruct Er as (Hlen & Hdelay & Hk).
    apply get_info_stop_of in Ei.
    apply Z.ltb_ge in Ed. apply Z.ltb_ge in Ec.
    set (t := w_time w + get_travel_time self (w_location w) l) in *.
    pose proof (fresh_time_spec node t) as (Ft & Fc & Fd & Fr).
    pose proof (fresh_capacity_spec (fresh_time node t) (w_capacity w + delta node))
      as (Gc & Gt & Gd & Gr).
    split; [simpl; lia|]. split.
    + cbn [w_delay w_time w_location] in Hdelay. rewrite Hdelay.
      unfold dropoff_slacks. cbn [map]. rewrite Ei. cbn [arrival_times].
      fold t. cbn [combine filter fst snd].
      destruct (PathNode.is_dropoff node); unfold sumZ; cbn [map fold_right fst snd]; lia.
    + intros [|k] Hlt.
      * unfold arrival_from, deadline_at, occupancy_from. simpl map. rewrite Ei. simpl. fold t.
        split; [lia|]. split; [rewrite occupancy_after_0; lia|].
        exists node, (fresh_capacity (fresh_time node t) (w_capacity w + delta node)).
        repeat split; try congruence.
        rewrite Gc. unfold occupancy_after. simpl. lia.
      * simpl in Hlt. assert (Hlt' : (k < length rest)%nat) by lia.
        specialize (Hk k Hlt'). simpl w_time in Hk. simpl w_location in Hk.
        simpl w_capacity in Hk.
        unfold arrival_from, deadline_at, occupancy_from in *. simpl map. rewrite Ei. simpl arrival_times.
        fold t. simpl nth. rewrite !occupancy_after_S. simpl nth_error.
        exact Hk.
Qed.

(** A loop that returns [False]: the node [k] it stops at is the first
    that is late or over-full, the issue printed last names it, the
    nodes behind it are as they were, and the nodes before it carry the
    arrival time and the occupancy that the loop computed. *)
Lemma validate_nodes_rejected nodes :
  forall i w nodes' log,
    validate_nodes self p i w nodes = Ok (Rejected, nodes', log) ->
    exists k,
      (k < length nodes)%nat /\
      (forall j, (j < k)%nat ->
         arrival_from self p w nodes j <= deadline_at p nodes j /\
         occupancy_from w nodes j <= NYEnvironment.MAX_CAPACITY self) /\
      ((deadline_at p nodes k < arrival_from self p w nodes k /\
        reported log = Some (Does_not_meet_deadline (i + k))) \/
       (arrival_from self p w nodes k <= deadline_at p nodes k /\
        NYEnvironment.MAX_CAPACITY self < occupancy_from w nodes k /\
        reported log = Some (Exceeds_MAX_CAPACITY (i + k)))) /\
      length nodes' = length nodes /\
      forall j node, nth_error nodes j = Some node ->
        exists node',
          nth_error nodes' j = Some node' /\
          PathNode.is_dropoff node' = PathNode.is_dropoff node /\
          PathNode.request_index node' = PathNode.request_index node /\
          ((k < j)%nat -> node' = node) /\
          ((k <= j)%nat ->
             PathNode.current_capacity node' = PathNode.current_capacity node) /\
          (j = k -> deadline_at p nodes k < arrival_from self p w nodes k -> node' = node) /\
          ((j < k)%nat ->
             PathNode.expected_visit_time node' = arrival_from self p w nodes j /\
             PathNode.current_capacity node' = occupancy_from w nodes (S j)) /\
          (j = k -> arrival_from self p w nodes k <= deadline_at p nodes k ->
             PathNode.expected_visit_time node' = arrival_from self p w nodes k).
Proof.
  induction nodes as [|node rest IH]; intros i w nodes' log H.
  - simpl in H. discriminate.
  - rewrite validate_nodes_cons in H.
    destruct (Path.get_info p node) as [[l d]| |] eqn:Ei; try discriminate.
    cbv zeta in H. apply get_info_stop_of in Ei.
    set (t := w_time w + get_travel_time self (w_location w) l) in *.
    pose proof (fresh_time_spec node t) as (Ft & Fc & Fd & Fr).
    pose proof (fresh_capacity_spec (fresh_time node t) (w_capacity w + delta node))
      as (Gc & Gt & Gd & Gr).
    assert (A0 : arrival_from self p w (node :: rest) 0 = t).
    { unfold arrival_from. simpl map. rewrite Ei. reflexivity. }
    assert (D0 : deadline_at p (node :: rest) 0 = d).
    { unfold deadline_at. simpl map. rewrite Ei. reflexivity. }
    assert (O0 : occupancy_from w (node :: rest) 0 = w_capacity w).
    { unfold occupancy_from. apply occupancy_after_0. }
    destruct (d <? t) eqn:Ed.
    { (* late at this node *)
      inversion H; subst nodes' log; clear H. apply Z.ltb_lt in Ed.
      exists 0%nat. split; [simpl; lia|]. split; [intros j Hj; lia|].
      split. { left. rewrite A0, D0, Nat.add_0_r. split; [lia | reflexivity]. }
      split; [reflexivity|].
      intros j nd Hj. exists nd. repeat split; auto; intros; subst; lia. }
    apply Z.ltb_ge in Ed.
    destruct (_ <? w_capacity w) eqn:Ec.
    { (* over-full at this node *)
      inversion H; subst nodes' log; clear H. apply Z.ltb_lt in Ec.
      exists 0%nat. split; [simpl; lia|]. split; [intros j Hj; lia|].
      split. { right. rewrite A0, D0, O0, Nat.add_0_r.
               repeat split; try lia. apply reported_last. }
      split; [reflexivity|].
      intros [|j] nd Hj; simpl in Hj.
      - inversion Hj; subst nd. exists (fresh_time node t). simpl.
        repeat split; auto; try lia.
      - exists nd. simpl. repeat split; auto; intros; lia. }
    apply Z.ltb_ge in Ec.
    destruct (validate_nodes self p (S i) _ rest) as [[[v rest'] lg]| |] eqn:Er;
      try discriminate.
    inversion H; subst v nodes' log; clear H.
    apply IH in Er. destruct Er as (k & Hk & Hbefore & Hat & Hlen & Hframe).
    simpl w_time in *. simpl w_location in *. simpl w_capacity in *.
    assert (AS : forall j, arrival_from self p w (node :: rest) (S j)
                           = nth j (arrival_times self t l (map (stop_of p) rest)) 0).
    { intros j. unfold arrival_from. simpl map. rewrite Ei. reflexivity. }
    assert (DS : forall j, deadline_at p (node :: rest) (S j) = deadline_at p rest j).
    { intros j. unfold deadline_at. reflexivity. }
    assert (OS : forall j, occupancy_from w (node :: rest) (S j)
                           = occupancy_after (w_capacity w + delta node) rest j).
    { intros j. unfold occupancy_from. apply occupancy_after_S. }
    exists (S k). split; [simpl; lia|]. split.
    { intros [|j] Hj.
      - rewrite A0, D0, O0. lia.
      - rewrite AS, DS, OS. apply Hbefore. lia. }
    split.
    { rewrite AS, DS, OS. replace (i + S k)%nat with (S i + k)%nat by lia.
      destruct Hat as [(Hl & Hr)|(Hl & Ho & Hr)]; [left|right]; repeat split; auto;
        rewrite app_assoc; apply reported_app; exact Hr. }
    split; [simpl; lia|].
    intros [|j] nd Hj; simpl in Hj.
    + inversion Hj; subst nd.
      exists (fresh_capacity (fresh_time node t) (w_capacity w + delta node)).
      cbn [nth_error].
      split; [reflexivity|]. split; [congruence|]. split; [congruence|].
      split; [intros; lia|]. split; [intros; lia|]. split; [intros; lia|].
      split; [|intros; lia].
      intros _. rewrite A0, OS, occupancy_after_0. split; [congruence | exact Gc].
    + destruct (Hframe j nd Hj) as (nd' & Hn & Hd & Hr & Hgt & Hge & Heq & Hbef & Hcap).
      exists nd'. simpl. repeat split; auto.
      * intros Hlt. apply Hgt. lia.
      * intros Hle. apply Hge. lia.
      * intros Hjk. rewrite AS, DS. apply Heq. lia.
      * rewrite AS. apply Hbef. lia.
      * rewrite OS. apply Hbef. lia.
      * intros Hjk. rewrite AS, DS. apply Hcap. lia.
Qed.

(** On a well-indexed plan the loop raises nothing. *)
Lemma validate_nodes_total nodes :
  Forall (fun node => (PathNode.request_index node < length (Path.requests p))%nat)
         nodes ->
  forall i w, exists v nodes' log,
    validate_nodes self p i w nodes = Ok (v, nodes', log).
Proof.
  induction 1 as [|node rest Hn Hrest IH]; intros i w.
  - simpl. eauto.
  - rewrite validate_nodes_cons.
    destruct (get_info_in_range p node Hn) as [[l d] ->]. cbv zeta.
    destruct (d <? _); [eauto|].
    destruct (_ <? w_capacity w); [eauto|].
    match goal with |- context [validate_nodes self p ?i' ?w' rest] =>
      destruct (IH i' w') as (v & nodes' & log & ->) end.
    eauto.
Qed.

End Walk.

(* ------------------------------------------------------------------ *)
(** ** The validator on a vehicle *)

Section ValidatorFacts.

Variable is_complete : Path.t -> bool.
Variable self : NYEnvironment.t.
Variable agent : LearningAgent.t.

Local Abbreviation p := (LearningAgent.path agent).

(** The ways [has_valid_path] returns. *)
Lemma has_valid_path_inv b agent' log :
  has_valid_path is_complete self agent = Ok (b, agent', log) ->
  (is_complete p = false /\ b = false /\ agent' = agent /\ log = [Incomplete_path]) \/
  (is_complete p = true /\
   exists v nodes',
     validate_nodes self p 0 (start_walk self agent) (Path.request_order p)
       = Ok (v, nodes', log) /\
     match v with
     | Rejected =>
         b = false /\
         agent' = LearningAgent.set_path agent (Path.set_request_order p nodes')
     | Completed w =>
         b = true /\
         agent' = LearningAgent.set_path agent
                    (Path.set_total_delay (Path.set_request_order p nodes') (w_delay w))
     end).
Proof.
  unfold has_valid_path. cbv zeta. fold (start_walk self agent).
  destruct (is_complete p) eqn:Ec; simpl negb; cbv iota.
  - intros H. right. split; [reflexivity|].
    destruct (validate_nodes self p 0 (start_walk self agent) (Path.request_order p))
      as [[[v nodes'] lg]| |]; simpl in H; try discriminate.
    exists v, nodes'. destruct v; inversion H; subst; auto.
  - intros H. inversion H; subst. left. auto.
Qed.

(** On a complete, well-indexed path the validator returns a boolean. *)
Lemma has_valid_path_total :
  well_indexed p ->
  exists b agent' log, has_valid_path is_complete self agent = Ok (b, agent', log).
Proof.
  intros Hw. unfold has_valid_path. cbv zeta. fold (start_walk self agent).
  destruct (is_complete p); simpl negb; cbv iota; [|eauto].
  destruct (validate_nodes_total self p _ Hw 0%nat (start_walk self agent))
    as (v & nodes' & log & ->).
  simpl. destruct v; eauto.
Qed.

Lemma accepted_clear agent' log :
  has_valid_path is_complete self agent = Ok (true, agent', log) ->
  forall k, (k < path_length agent)%nat ->
    arrival_time self agent k <= deadline agent k /\
    occupancy agent k <= NYEnvironment.MAX_CAPACITY self.
Proof.
  intros H k Hk. apply has_valid_path_inv in H.
  destruct H as [(_ & Hb & _)|(_ & v & nodes' & Hv & Hm)]; [discriminate|].
  destruct v as [w|]; [|destruct Hm; discriminate].
  apply validate_nodes_completed in Hv. destruct Hv as (_ & _ & Hall).
  destruct (Hall k Hk) as (Ha & Ho & _). split; [exact Ha | exact Ho].
Qed.

(** A rejection inside the loop names the first node that is late or
    over-full. *)
Lemma rejected_first agent' log :
  has_valid_path is_complete self agent = Ok (false, agent', log) ->
  is_complete p = true ->
  exists k,
    (k < path_length agent)%nat /\
    (forall j, (j < k)%nat -> ~ late self agent j /\ ~ overfull self agent j) /\
    ((late self agent k /\ reported log = Some (Does_not_meet_deadline k)) \/
     (~ late self agent k /\ overfull self agent k /\
      reported log = Some (Exceeds_MAX_CAPACITY k))).
Proof.
  intros H Hc. apply has_valid_path_inv in H.
  destruct H as [(Hn & _)|(_ & v & nodes' & Hv & Hm)]; [congruence|].
  destruct v as [w|]; [destruct Hm; discriminate|].
  apply validate_nodes_rejected in Hv.
  destruct Hv as (k & Hk & Hbefore & Hat & _).
  unfold start_walk in Hbefore, Hat. cbn [w_time w_location w_capacity] in Hbefore, Hat.
  exists k. split; [exact Hk|]. split.
  - intros j Hj. destruct (Hbefore j Hj) as (Ha & Ho).
    unfold late, overfull. split; intros (_ & Hx).
    + exact (proj1 (Z.lt_nge _ _) Hx Ha).
    + exact (proj1 (Z.lt_nge _ _) Hx Ho).
  - unfold late, overfull, arrival_time, arrivals, deadline, stops, occupancy.
   
    destruct Hat as [(Hl & Hr)|(Hl & Ho & Hr)]; [left|right]; repeat split; auto.
    intros (_ & Hx). exact (proj1 (Z.lt_nge _ _) Hx Hl).
Qed.

End ValidatorFacts.

(* ------------------------------------------------------------------ *)
(** ** C3: what a successful validation leaves on the path *)

(** C3.  When [has_valid_path] returns [True], every node's
    [expected_visit_time] is the arrival time computed for it, every
    node's [current_capacity] is the occupancy after it, and the path's
    [total_delay] is the sum over the dropoff nodes of deadline minus
    arrival time. *)
Theorem has_valid_path_recomputes is_complete self agent agent' log :
  has_valid_path is_complete self agent = Ok (true, agent', log) ->
  length (Path.request_order (LearningAgent.path agent')) = path_length agent /\
  (forall k node',
     nth_error (Path.request_order (LearningAgent.path agent')) k = Some node' ->
     PathNode.expected_visit_time node' = arrival_time self agent k /\
     PathNode.current_capacity node' = occupancy agent (S k)) /\
  Path.total_delay (LearningAgent.path agent') =
    sumZ (dropoff_slacks (Path.request_order (LearningAgent.path agent))
            (stops agent) (arrivals self agent)).
Proof.
  intros H. apply has_valid_path_inv in H.
  destruct H as [(_ & Hb & _)|(_ & v & nodes' & Hv & Hm)]; [discriminate|].
  destruct v as [w|]; [|destruct Hm; discriminate].
  destruct Hm as (_ & ->). simpl.
  apply validate_nodes_completed in Hv. destruct Hv as (Hlen & Hdelay & Hall).
  split; [exact Hlen|]. split.
  - intros k node' Hn.
    assert (Hk : (k < length (Path.request_order (LearningAgent.path agent)))%nat).
    { rewrite <- Hlen. apply nth_error_Some. congruence. }
    destruct (Hall k Hk) as (_ & _ & nd & nd' & _ & Hn' & Ht & Hc & _).
    rewrite Hn in Hn'. inversion Hn'; subst nd'. split; [exact Ht | exact Hc].
  - rewrite Hdelay. reflexivity.
Qed.

Lemma has_valid_path_recomputes_witness :
  exists agent' log,
    has_valid_path Sample.visits_all (Sample.envt 1 []) Sample.one_trip
      = Ok (true, agent', log) /\
    map PathNode.expected_visit_time (Path.request_order (LearningAgent.path agent'))
      = [15; 35] /\
    Path.total_delay (LearningAgent.path agent') =
      sumZ (dropoff_slacks (Path.request_order (LearningAgent.path Sample.one_trip))
              (stops Sample.one_trip) (arrivals (Sample.envt 1 []) Sample.one_trip)).
Proof.
  eexists. eexists. split; [reflexivity|]. split; [reflexivity|].
  exact (proj2 (proj2 (has_valid_path_recomputes Sample.visits_all
                         (Sample.envt 1 []) Sample.one_trip _ _ eq_refl))).
Defined.

(* ------------------------------------------------------------------ *)
(** ** C1: the capacity check *)

(** C1, with the counterexamples' amendment.  An accepted plan has an
    occupancy of at most [MAX_CAPACITY] before every node's own change
    (after every proper prefix); and on a complete, well-indexed plan
    whose first over-full node is [k], with no late node up to [k], the
    validator returns [False] and prints the capacity issue for node
    [k]. *)
Theorem capacity_checked_before_each_node is_complete self agent :
  (forall agent' log,
     has_valid_path is_complete self agent = Ok (true, agent', log) ->
     forall k, (k < path_length agent)%nat ->
       occupancy agent k <= NYEnvironment.MAX_CAPACITY self) /\
  (forall k,
     is_complete (LearningAgent.path agent) = true ->
     well_indexed (LearningAgent.path agent) ->
     overfull self agent k ->
     (forall j, (j < k)%nat -> ~ overfull self agent j) ->
     (forall j, (j <= k)%nat -> ~ late self agent j) ->
     fails_with is_complete self agent (Exceeds_MAX_CAPACITY k)).
Proof.
  split.
  - intros agent' log H k Hk. apply (accepted_clear _ _ _ _ _ H k Hk).
  - intros k Hc Hw Ho Hfirst Hnolate.
    destruct (has_valid_path_total is_complete self agent Hw) as (b & agent' & log & H).
    destruct b.
    + destruct Ho as (Hk & Ho). pose proof (accepted_clear _ _ _ _ _ H k Hk) as (_ & Hle). lia.
    + destruct (rejected_first _ _ _ _ _ H Hc) as (k' & Hk' & Hbefore & Hat).
      destruct (Nat.lt_trichotomy k' k) as [Hlt|[Heq|Hgt]].
      * exfalso. destruct Hat as [(Hl & _)|(_ & Ho' & _)].
        -- apply (Hnolate k'); [lia | exact Hl].
        -- apply (Hfirst k' Hlt Ho').
      * subst k'. destruct Hat as [(Hl & _)|(_ & _ & Hr)].
        -- exfalso. apply (Hnolate k); [lia | exact Hl].
        -- exists agent', log. split; [exact H | exact Hr].
      * exfalso. apply (proj2 (Hbefore k Hgt)). exact Ho.
Qed.

(** C1 as worded fails.  A dropoff on a path that declares nobody on board
    is accepted with occupancy -1; an idle vehicle that declares two
    passengers in a vehicle for one is accepted; a plan that is over-full
    at node 2 is rejected for the deadline of node 0, or for being
    incomplete, and not with the capacity issue of node 2. *)
Lemma capacity_claim_fails :
  ~ capacity_claim Sample.visits_all (Sample.envt 1 []) Sample.lone_dropoff /\
  ~ capacity_claim Sample.visits_all (Sample.envt 1 []) Sample.crowded_idle /\
  ~ capacity_claim Sample.visits_all (Sample.envt 1 []) (Sample.two_pickups 5) /\
  ~ capacity_claim Sample.visits_all (Sample.envt 1 []) Sample.unfinished.
Proof.
  assert (Hover : forall agent,
            occupancy agent 2 = 2 -> occupancy agent 1 = 1 -> occupancy agent 0 = 0 ->
            (2 < path_length agent)%nat ->
            overfull (Sample.envt 1 []) agent 2 /\
            forall j, (j < 2)%nat -> ~ overfull (Sample.envt 1 []) agent j).
  { intros agent H2 H1 H0 Hlen. split.
    - split; [exact Hlen|]. rewrite H2. reflexivity.
    - intros j Hj (_ & Ho). simpl in Ho.
      destruct j as [|[|j]]; [rewrite H0 in Ho | rewrite H1 in Ho |]; lia. }
  repeat split.
  - intros (H & _).
    specialize (H _ _ eq_refl 1%nat (le_n _)). vm_compute in H.
    destruct H as (H & _). apply H. reflexivity.
  - intros (H & _).
    specialize (H _ _ eq_refl 0%nat (le_n _)). vm_compute in H.
    destruct H as (_ & H). apply H. reflexivity.
  - intros (_ & H).
    destruct (Hover (Sample.two_pickups 5) eq_refl eq_refl eq_refl) as (Ho & Hfirst);
      [unfold path_length; simpl; lia|].
    destruct (H 2%nat Ho Hfirst) as (agent' & log & Heq & Hr).
    vm_compute in Heq. inversion Heq; subst log. vm_compute in Hr. discriminate.
  - intros (_ & H).
    destruct (Hover Sample.unfinished eq_refl eq_refl eq_refl) as (Ho & Hfirst);
      [unfold path_length; simpl; lia|].
    destruct (H 2%nat Ho Hfirst) as (agent' & log & Heq & Hr).
    vm_compute in Heq. inversion Heq; subst log. vm_compute in Hr. discriminate.
Qed.

Lemma capacity_checked_before_each_node_witness :
  fails_with Sample.visits_all (Sample.envt 1 []) (Sample.two_pickups 500)
    (Exceeds_MAX_CAPACITY 2) /\
  occupancy Sample.one_trip 1 <= 1.
Proof.
  split.
  - apply (proj2 (capacity_checked_before_each_node Sample.visits_all
                    (Sample.envt 1 []) (Sample.two_pickups 500)) 2%nat).
    + reflexivity.
    + repeat constructor.
    + split; [unfold path_length; simpl; lia | reflexivity].
    + intros j Hj (_ & Ho). destruct j as [|[|j]]; [vm_compute in Ho .. | lia];
        discriminate.
    + intros j Hj (_ & Hl). destruct j as [|[|[|j]]]; [vm_compute in Hl .. | lia];
        discriminate.
  - apply (proj1 (capacity_checked_before_each_node Sample.visits_all
                    (Sample.envt 1 []) Sample.one_trip) _ _ eq_refl 1%nat).
    unfold path_length. simpl. lia.
Defined.

(* ------------------------------------------------------------------ *)
(** ** C2: the deadline check *)

(** C2, with the counterexample's amendment.  On a complete, well-indexed
    path the validator returns [False] exactly when some node is late or
    over-full, returns [True] exactly when no node is, and prints the
    deadline issue for node [k] exactly when [k] is the first late node
    and no node before it is over-full.  A node is late when its arrival
    time is strictly greater than its deadline. *)
Theorem deadline_reported_at_first_late_node is_complete self agent :
  is_complete (LearningAgent.path agent) = true ->
  well_indexed (LearningAgent.path agent) ->
  (fails is_complete self agent <->
   exists k, late self agent k \/ overfull self agent k) /\
  ((exists agent' log, has_valid_path is_complete self agent = Ok (true, agent', log)) <->
   forall k, ~ late self agent k /\ ~ overfull self agent k) /\
  (forall k,
     fails_with is_complete self agent (Does_not_meet_deadline k) <->
     late self agent k /\
     forall j, (j < k)%nat -> ~ late self agent j /\ ~ overfull self agent j).
Proof.
  intros Hc Hw.
  assert (Hcontra : forall agent' log k,
             has_valid_path is_complete self agent = Ok (true, agent', log) ->
             ~ late self agent k /\ ~ overfull self agent k).
  { intros agent' log k H. split; intros (Hk & Hx);
      pose proof (accepted_clear _ _ _ _ _ H k Hk) as (Ha & Ho); lia. }
  destruct (has_valid_path_total is_complete self agent Hw) as (b & agent0 & log0 & H0).
  split; [|split].
  - split.
    + intros (agent' & log & H).
      destruct (rejected_first _ _ _ _ _ H Hc) as (k & _ & _ & [(Hl & _)|(_ & Ho & _)]);
        exists k; auto.
    + intros (k & Hk). destruct b.
      * destruct (Hcontra _ _ k H0) as (Hl & Ho). tauto.
      * exists agent0, log0. exact H0.
  - split.
    + intros (agent' & log & H) k. apply (Hcontra _ _ k H).
    + intros Hclear. destruct b; [eauto|].
      destruct (rejected_first _ _ _ _ _ H0 Hc) as (k & _ & _ & [(Hl & _)|(_ & Ho & _)]);
        destruct (Hclear k); tauto.
  - intros k. split.
    + intros (agent' & log & H & Hr).
      destruct (rejected_first _ _ _ _ _ H Hc) as (k' & _ & Hbefore & [(Hl & Hr')|(_ & _ & Hr')]);
        rewrite Hr in Hr'; inversion Hr'; subst k'. split; assumption.
    + intros (Hl & Hbefore). destruct b.
      * destruct (Hcontra _ _ k H0) as (Hn & _). tauto.
      * destruct (rejected_first _ _ _ _ _ H0 Hc) as (k' & _ & Hbefore' & Hat).
        destruct (Nat.lt_trichotomy k' k) as [Hlt|[Heq|Hgt]].
        -- exfalso. destruct (Hbefore k' Hlt) as (Hnl & Hno).
           destruct Hat as [(Hl' & _)|(_ & Ho' & _)]; tauto.
        -- subst k'. destruct Hat as [(_ & Hr)|(Hnl & _)]; [|tauto].
           exists agent0, log0. split; assumption.
        -- exfalso. destruct (Hbefore' k Hgt) as (Hnl & _). tauto.
Qed.

(** C2 as worded fails: a complete plan with no late node is rejected, for
    being over-full at node 2. *)
Lemma deadline_claim_fails :
  ~ deadline_claim Sample.visits_all (Sample.envt 1 []) (Sample.two_pickups 500).
Proof.
  intros H. destruct (H eq_refl) as ((Hf & _) & _).
  destruct Hf as (k & Hk & Hl).
  - eexists. eexists. reflexivity.
  - unfold path_length in Hk. simpl in Hk.
    destruct k as [|[|[|[|k]]]]; [vm_compute in Hl .. | lia]; discriminate.
Qed.

Lemma deadline_reported_at_first_late_node_witness :
  fails_with Sample.visits_all (Sample.envt 1 []) Sample.late_dropoff
    (Does_not_meet_deadline 1).
Proof.
  apply (proj2 (proj2 (deadline_reported_at_first_late_node Sample.visits_all
                         (Sample.envt 1 []) Sample.late_dropoff eq_refl
                         ltac:(repeat constructor))) 1%nat).
  split.
  - split; [unfold path_length; simpl; lia | reflexivity].
  - intros j Hj. assert (j = 0%nat) by lia. subst j.
    split; intros (_ & Hx); vm_compute in Hx; discriminate.
Defined.

(* ------------------------------------------------------------------ *)
(** ** C4: what a failed validation leaves on the path *)

(** C4, with the counterexample's amendment.  When [has_valid_path]
    returns [False], the vehicle's identity and position, and the path's
    request entries, declared occupancy and [total_delay] are as before,
    and no node is added, removed or changes its kind or request.  On an
    incomplete path nothing at all is changed and only the incomplete-path
    issue is printed.  Otherwise the issue printed last names a node [k]:
    the nodes behind [k] are unchanged, node [k] keeps its
    [current_capacity] and, when the issue is the deadline one, is
    unchanged too.  Every node before [k] carries the arrival time and
    the occupancy computed by the loop, and so does node [k]'s
    [expected_visit_time] when the issue is the capacity one. *)
Theorem failed_validation_frame is_complete self agent agent' log :
  has_valid_path is_complete self agent = Ok (false, agent', log) ->
  let p := LearningAgent.path agent in
  let p' := LearningAgent.path agent' in
  LearningAgent.id agent' = LearningAgent.id agent /\
  LearningAgent.position agent' = LearningAgent.position agent /\
  Path.requests p' = Path.requests p /\
  Path.current_capacity p' = Path.current_capacity p /\
  Path.total_delay p' = Path.total_delay p /\
  length (Path.request_order p') = length (Path.request_order p) /\
  (is_complete p = false -> agent' = agent /\ log = [Incomplete_path]) /\
  (is_complete p = true ->
   exists k,
     (reported log = Some (Does_not_meet_deadline k) \/
      reported log = Some (Exceeds_MAX_CAPACITY k)) /\
     forall j node, nth_error (Path.request_order p) j = Some node ->
       exists node',
         nth_error (Path.request_order p') j = Some node' /\
         PathNode.is_dropoff node' = PathNode.is_dropoff node /\
         PathNode.request_index node' = PathNode.request_index node /\
         ((k < j)%nat -> node' = node) /\
         ((k <= j)%nat ->
            PathNode.current_capacity node' = PathNode.current_capacity node) /\
         (j = k -> reported log = Some (Does_not_meet_deadline k) -> node' = node) /\
         ((j < k)%nat ->
            PathNode.expected_visit_time node' = arrival_time self agent j /\
            PathNode.current_capacity node' = occupancy agent (S j)) /\
         (j = k -> reported log = Some (Exceeds_MAX_CAPACITY k) ->
            PathNode.expected_visit_time node' = arrival_time self agent k)).
Proof.
  intros H p p'. subst p p'. apply has_valid_path_inv in H.
  destruct H as [(Hn & _ & -> & ->)|(Hc & v & nodes' & Hv & Hm)].
  - repeat split; auto. congruence.
  - destruct v as [w|]; [destruct Hm; discriminate|].
    destruct Hm as (_ & ->). simpl.
    apply validate_nodes_rejected in Hv.
    destruct Hv as (k & Hk & _ & Hat & Hlen & Hframe).
    do 6 (split; [auto|]). split; [intros; congruence|].
    intros _. exists k. split.
    + destruct Hat as [(_ & Hr)|(_ & _ & Hr)]; auto.
    + intros j node Hj.
      destruct (Hframe j node Hj)
        as (node' & Hn' & Hd & Hr & Hgt & Hge & Heq & Hbef & Hcap).
      exists node'. split; [exact Hn'|]. split; [exact Hd|]. split; [exact Hr|].
      split; [exact Hgt|]. split; [exact Hge|]. split; [|split].
      * intros Hjk Hrep. apply Heq; [exact Hjk|].
        destruct Hat as [(Hl & _)|(_ & _ & Hr')]; [exact Hl|].
        rewrite Hrep in Hr'. discriminate.
      * intros Hjk. exact (Hbef Hjk).
      * intros Hjk Hrep. apply Hcap; [exact Hjk|].
        destruct Hat as [(_ & Hr')|(Hl & _)]; [|exact Hl].
        rewrite Hrep in Hr'. discriminate.
Qed.

(** C4 as worded fails: the validation of a plan whose dropoff is late
    returns [False] after it has overwritten the pickup node's
    [expected_visit_time] and [current_capacity]. *)
Lemma unchanged_claim_fails :
  ~ unchanged_claim Sample.visits_all (Sample.envt 1 []) Sample.late_dropoff.
Proof.
  intros H. specialize (H _ _ eq_refl). vm_compute in H. discriminate H.
Qed.

Lemma failed_validation_frame_witness :
  exists agent' log,
    has_valid_path Sample.visits_all (Sample.envt 1 []) Sample.late_dropoff
      = Ok (false, agent', log) /\
    Path.total_delay (LearningAgent.path agent')
      = Path.total_delay (LearningAgent.path Sample.late_dropoff) /\
    nth_error (Path.request_order (LearningAgent.path agent')) 1
      = nth_error (Path.request_order (LearningAgent.path Sample.late_dropoff)) 1 /\
    exists pickup',
      nth_error (Path.request_order (LearningAgent.path agent')) 0 = Some pickup' /\
      PathNode.expected_visit_time pickup'
      = arrival_time (Sample.envt 1 []) Sample.late_dropoff 0 /\
      PathNode.current_capacity pickup' = occupancy Sample.late_dropoff 1.
Proof.
  eexists. eexists. split; [reflexivity|].
  pose proof (failed_validation_frame Sample.visits_all (Sample.envt 1 [])
                Sample.late_dropoff _ _ eq_refl) as H.
  cbv zeta in H. destruct H as (_ & _ & _ & _ & Hd & _ & _ & Hc).
  split; [exact Hd|]. split; [reflexivity|].
  destruct (Hc eq_refl) as (k & Hrep & Hall).
  assert (Hk : k = 1%nat).
  { vm_compute in Hrep. destruct Hrep as [Hrep|Hrep]; inversion Hrep. reflexivity. }
  subst k.
  destruct (Hall 0%nat _ eq_refl) as (pickup' & Hn & _ & _ & _ & _ & _ & Hbefore & _).
  exists pickup'. split; [exact Hn|]. apply Hbefore. lia.
Defined.

(* ------------------------------------------------------------------ *)
(** ** The stepper *)

(** A negative budget ends the loop at once. *)
Lemma move_agent_negative self fuel agent budget :
  budget < 0 -> _move_agent self fuel agent budget = Ok (agent, budget).
Proof.
  intros H. destruct fuel; simpl; apply Z.ltb_lt in H; rewrite H; reflexivity.
Qed.

(** One iteration of the loop. *)
Lemma move_agent_step self fuel agent budget :
  0 <= budget ->
  _move_agent self (S fuel) agent budget =
  let pos := LearningAgent.position agent in
  let remaining := budget - Position.time_to_next_location pos in
  if 0 <=? remaining then
    head <- Path.get_next_location (LearningAgent.path agent) ;;
    path1 <- (if at_head (Position.next_location pos) head
              then Path.visit_next_location (LearningAgent.path agent)
              else Ok (LearningAgent.path agent)) ;;
    if negb (Path.is_empty path1) then
      target <- Path.get_next_location path1 ;;
      match target with
      | Some target =>
          let next_location :=
            get_next_location self (Position.next_location pos) target in
          _move_agent self fuel
            (LearningAgent.mk (LearningAgent.id agent)
               (Position.mk next_location
                  (get_travel_time self (Position.next_location pos) next_location))
               path1)
            remaining
      | None => Raise LogicError
      end
    else Ok (LearningAgent.set_path agent path1, remaining)
  else
    Ok (LearningAgent.set_position agent
          (Position.mk (Position.next_location pos) (- remaining)),
        remaining).
Proof.
  intros H. apply Z.ltb_ge in H. simpl. rewrite H. cbv zeta.
  destruct (0 <=? budget - _) eqn:E; [reflexivity|].
  apply Z.leb_gt in E. rewrite move_agent_negative by exact E.
  do 4 f_equal. lia.
Qed.

(** How the stepper leaves the vehicle: with budget left, the path is
    empty; with a negative return the vehicle is mid-hop, the overrun
    away from its next location. *)
Lemma move_agent_exit self :
  forall fuel agent budget agent' remaining,
    0 <= budget ->
    _move_agent self fuel agent budget = Ok (agent', remaining) ->
    (0 <= remaining -> Path.is_empty (LearningAgent.path agent') = true) /\
    (remaining < 0 ->
     Position.time_to_next_location (LearningAgent.position agent') = - remaining).
Proof.
  induction fuel as [|fuel IH]; intros agent budget agent' remaining Hb H.
  - simpl in H. apply Z.ltb_ge in Hb. rewrite Hb in H. discriminate.
  - rewrite move_agent_step in H by exact Hb. cbv zeta in H.
    destruct (0 <=? budget - _) eqn:E.
    + apply Z.leb_le in E.
      destruct (Path.get_next_location (LearningAgent.path agent)) as [head| |];
        simpl in H; try discriminate.
      destruct (if at_head _ head then _ else _) as [path1| |];
        simpl in H; try discriminate.
      destruct (Path.is_empty path1) eqn:Ee; simpl in H.
      * inversion H; subst. simpl. split; [auto | lia].
      * destruct (Path.get_next_location path1) as [[target|]| |];
          simpl in H; try discriminate.
        apply (IH _ _ _ _ E H).
    + apply Z.leb_gt in E. inversion H; subst. simpl. split; [lia | auto].
Qed.

(** The path operations keep a well-indexed path well-indexed and raise
    nothing on it. *)
Lemma get_next_location_total p :
  well_indexed p ->
  exists head, Path.get_next_location p = Ok head /\
               (Path.is_empty p = false -> exists l, head = Some l).
Proof.
  unfold well_indexed, Path.get_next_location, Path.is_empty.
  destruct (Path.request_order p) as [|node rest]; intros H.
  - exists None. split; [reflexivity | discriminate].
  - inversion H as [|? ? Hn _]; subst.
    destruct (get_info_in_range p node Hn) as [[l d] ->]. simpl.
    exists (Some l). split; eauto.
Qed.

Lemma visit_next_location_well_indexed p p' :
  well_indexed p -> Path.visit_next_location p = Ok p' -> well_indexed p'.
Proof.
  unfold well_indexed, Path.visit_next_location.
  destruct (Path.request_order p) as [|node rest]; intros H E; [discriminate|].
  inversion E; subst. simpl. inversion H; assumption.
Qed.

Lemma at_head_not_empty p l head :
  Path.get_next_location p = Ok head -> at_head l head = true ->
  exists p', Path.visit_next_location p = Ok p'.
Proof.
  unfold Path.get_next_location, Path.visit_next_location.
  destruct (Path.request_order p) as [|node rest]; intros H Ha.
  - inversion H; subst. discriminate.
  - eauto.
Qed.

Lemma head_check_total p l head :
  well_indexed p -> Path.get_next_location p = Ok head ->
  exists path1,
    (if at_head l head then Path.visit_next_location p else Ok p) = Ok path1 /\
    well_indexed path1.
Proof.
  intros Hw Hh. destruct (at_head l head) eqn:Ea.
  - destruct (at_head_not_empty _ _ _ Hh Ea) as (p' & Hv).
    exists p'. split; [exact Hv|]. eapply visit_next_location_well_indexed; eauto.
  - eauto.
Qed.

(** Once every hop takes time, each iteration uses up budget. *)
Lemma move_agent_runs self :
  positive_hops self ->
  forall fuel agent budget,
    well_indexed (LearningAgent.path agent) ->
    1 <= Position.time_to_next_location (LearningAgent.position agent) ->
    budget < Z.of_nat fuel ->
    exists agent' remaining, _move_agent self fuel agent budget = Ok (agent', remaining).
Proof.
  intros Hpos. induction fuel as [|fuel IH]; intros agent budget Hw Ht Hf.
  - rewrite move_agent_negative by lia. eauto.
  - destruct (Z.lt_ge_cases budget 0) as [Hn|Hb].
    { rewrite move_agent_negative by exact Hn. eauto. }
    rewrite move_agent_step by exact Hb. cbv zeta.
    destruct (0 <=? budget - _) eqn:E; [|eauto].
    destruct (get_next_location_total _ Hw) as (head & Hh & _). rewrite Hh. simpl.
    destruct (head_check_total _ (Position.next_location (LearningAgent.position agent))
                _ Hw Hh) as (path1 & Hp1 & Hw1).
    rewrite Hp1. simpl.
    destruct (Path.is_empty path1) eqn:Ee; simpl; [eauto|].
    destruct (get_next_location_total _ Hw1) as (target & -> & Hsome). simpl.
    destruct (Hsome Ee) as (l & ->).
    apply IH; simpl; [exact Hw1 | apply Hpos | lia].
Qed.

(** An arrival, as the loop's body computes it on a well-indexed path. *)
Lemma set_request_order_same p : Path.set_request_order p (Path.request_order p) = p.
Proof. destruct p. reflexivity. Qed.

Lemma stop_of_set_request_order p order node :
  stop_of (Path.set_request_order p order) node = stop_of p node.
Proof. reflexivity. Qed.

Lemma on_arrival_well_indexed self agent :
  well_indexed (LearningAgent.path agent) ->
  well_indexed (LearningAgent.path (on_arrival self agent)).
Proof.
  unfold well_indexed, on_arrival. cbv zeta. cbn [LearningAgent.path].
  unfold Path.set_request_order. cbn [Path.requests Path.request_order].
  intros H. destruct (Path.request_order (LearningAgent.path agent)) as [|node rest];
    [constructor|].
  destruct (_ =? _)%nat; [inversion H; assumption | exact H].
Qed.

(** One iteration that reaches the next location, in terms of
    [on_arrival]. *)
Lemma move_agent_arrives self fuel agent budget :
  well_indexed (LearningAgent.path agent) ->
  0 <= budget ->
  Position.time_to_next_location (LearningAgent.position agent) <= budget ->
  _move_agent self (S fuel) agent budget =
  if Path.is_empty (LearningAgent.path (on_arrival self agent))
  then Ok (on_arrival self agent,
           budget - Position.time_to_next_location (LearningAgent.position agent))
  else _move_agent self fuel (on_arrival self agent)
         (budget - Position.time_to_next_location (LearningAgent.position agent)).
Proof.
  intros Hw Hb Ht. rewrite move_agent_step by exact Hb. cbv zeta.
  replace (0 <=? budget - _) with true by (symmetry; apply Z.leb_le; lia).
  unfold on_arrival. cbv zeta.
  destruct agent as [id pos p].
  cbn [LearningAgent.path LearningAgent.position LearningAgent.id] in *.
  unfold well_indexed in Hw.
  unfold Path.get_next_location, Path.visit_next_location, Path.is_empty.
  destruct (Path.request_order p) as [|node rest] eqn:Eo.
  - cbn [bind at_head]. cbn [Path.set_request_order Path.request_order negb].
    rewrite Eo. cbn [negb]. unfold LearningAgent.set_path.
    cbn [LearningAgent.id LearningAgent.position].
    rewrite <- Eo, set_request_order_same. reflexivity.
  - inversion Hw as [|? ? Hn Hrest]; subst.
    destruct (get_info_in_range p node Hn) as [[l d] Hi].
    rewrite Hi. cbn [bind at_head]. rewrite (get_info_stop_of _ _ _ Hi). cbn [fst].
    destruct (Position.next_location pos =? l)%nat eqn:Eh.
    + cbn [bind Path.set_request_order Path.request_order].
      destruct rest as [|node2 rest2].
      * cbn [negb]. reflexivity.
      * cbn [negb].
        inversion Hrest as [|? ? Hn2 _]; subst.
        assert (Hi2 : Path.get_info (Path.set_request_order p (node2 :: rest2)) node2
                      = Path.get_info p node2) by reflexivity.
        unfold Path.set_request_order in Hi2 |- *.
        destruct (get_info_in_range p node2 Hn2) as [[l2 d2] Hi2'].
        rewrite Hi2' in Hi2. rewrite Hi2. cbn [bind].
        rewrite (get_info_stop_of _ _ _ Hi2'). cbn [fst]. reflexivity.
    + assert (Hsame : Path.set_request_order p (node :: rest) = p)
        by (rewrite <- Eo; apply set_request_order_same).
      rewrite Hsame. cbn [bind]. rewrite Eo. cbn [negb]. rewrite Hi. cbn [bind].
      rewrite (get_info_stop_of _ _ _ Hi). reflexivity.
Qed.

(** One iteration that does not reach the next location. *)
Lemma move_agent_overrun self fuel agent budget :
  0 <= budget ->
  budget < Position.time_to_next_location (LearningAgent.position agent) ->
  let t := Position.time_to_next_location (LearningAgent.position agent) in
  _move_agent self (S fuel) agent budget =
  Ok (LearningAgent.set_position agent
        (Position.mk (Position.next_location (LearningAgent.position agent))
                     (t - (budget - t + t))),
      budget - t).
Proof.
  intros Hb Hlt t. pose proof Hb as Hb'. apply Z.ltb_ge in Hb'.
  simpl. rewrite Hb'. cbv zeta. fold t.
  replace (0 <=? budget - t) with false by (symmetry; apply Z.leb_gt; lia).
  rewrite move_agent_negative by lia. reflexivity.
Qed.

(** The journey that a call of the stepper makes. *)
Lemma move_agent_journey self :
  forall fuel agent budget agent' remaining,
    0 <= budget ->
    well_indexed (LearningAgent.path agent) ->
    _move_agent self fuel agent budget = Ok (agent', remaining) ->
    exists n,
      (forall j, (j <= n)%nat -> 0 <= budget_left self j agent budget) /\
      (forall j, (0 < j < n)%nat ->
         Path.is_empty (LearningAgent.path (after_arrivals self j agent)) = false) /\
      (((0 < n)%nat /\
        Path.is_empty (LearningAgent.path (after_arrivals self n agent)) = true /\
        remaining = budget_left self n agent budget /\
        agent' = after_arrivals self n agent)
       \/
       (((0 < n)%nat ->
         Path.is_empty (LearningAgent.path (after_arrivals self n agent)) = false) /\
        budget_left self n agent budget
        < Position.time_to_next_location
            (LearningAgent.position (after_arrivals self n agent)) /\
        remaining
        = budget_left self n agent budget
          - Position.time_to_next_location
              (LearningAgent.position (after_arrivals self n agent)) /\
        agent'
        = LearningAgent.set_position (after_arrivals self n agent)
            (Position.mk
               (Position.next_location
                  (LearningAgent.position (after_arrivals self n agent)))
               (Position.time_to_next_location
                  (LearningAgent.position (after_arrivals self n agent))
                - (remaining
                   + Position.time_to_next_location
                       (LearningAgent.position (after_arrivals self n agent))))))).
Proof.
  induction fuel as [|fuel IH]; intros agent budget agent' remaining Hb Hw H.
  - simpl in H. apply Z.ltb_ge in Hb. rewrite Hb in H. discriminate.
  - destruct (Z.lt_ge_cases budget
                (Position.time_to_next_location (LearningAgent.position agent)))
      as [Hlt|Hge].
    + (* the budget runs out on this hop *)
      rewrite (move_agent_overrun self fuel agent budget Hb Hlt) in H. cbv zeta in H.
      injection H as <- <-.
      exists 0%nat. cbn [after_arrivals budget_left].
      split; [intros j Hj; replace j with 0%nat by lia; exact Hb|].
      split; [intros j Hj; lia|].
      right. split; [intros Hn; lia|]. split; [exact Hlt|]. split; [reflexivity|].
      reflexivity.
    + rewrite (move_agent_arrives self fuel agent budget Hw Hb Hge) in H.
      destruct (Path.is_empty (LearningAgent.path (on_arrival self agent))) eqn:Ee.
      * (* the vehicle stops at this arrival *)
        injection H as <- <-.
        exists 1%nat. cbn [after_arrivals budget_left].
        split.
        { intros j Hj. destruct j as [|[|j]]; cbn [budget_left]; lia. }
        split; [intros j Hj; lia|].
        left. split; [lia|]. split; [exact Ee|]. split; reflexivity.
      * (* it goes on *)
        assert (Hb1 : 0 <= budget - Position.time_to_next_location
                                      (LearningAgent.position agent)) by lia.
        destruct (IH _ _ _ _ Hb1 (on_arrival_well_indexed self agent Hw) H)
          as (n & Hleft & Hbusy & Hend).
        exists (S n). cbn [after_arrivals budget_left].
        split.
        { intros [|j] Hj; cbn [budget_left]; [exact Hb | apply Hleft; lia]. }
        split.
        { intros [|[|j]] Hj; cbn [after_arrivals]; [lia | exact Ee |].
          apply (Hbusy (S j)). lia. }
        destruct Hend as [(Hn & He & Hr & Ha)|(Hn & Hl & Hr & Ha)].
        -- left. split; [lia|]. split; [exact He|]. split; [exact Hr | exact Ha].
        -- right. split.
           { intros _. destruct n as [|n]; [exact Ee | apply Hn; lia]. }
           split; [exact Hl|]. split; [exact Hr | exact Ha].
Qed.

Lemma on_arrival_good_hop self agent :
  hops_advance self -> 0 <= Position.time_to_next_location (LearningAgent.position agent) ->
  on_a_good_hop (on_arrival self agent).
Proof.
  intros Hadv Ht. unfold on_a_good_hop, on_arrival. cbv zeta.
  cbn [LearningAgent.position LearningAgent.path Path.set_request_order
       Path.request_order].
  set (p := LearningAgent.path agent).
  set (here := Position.next_location (LearningAgent.position agent)).
  destruct (match Path.request_order p with
            | node :: rest => if (here =? fst (stop_of p node))%nat then rest else node :: rest
            | [] => []
            end) as [|node2 rest2].
  - split; [exact Ht | right; exact I].
  - cbn [Position.time_to_next_location Position.next_location].
    destruct (Hadv here (fst (stop_of p node2))) as (H0 & [H1|H1]).
    + split; [exact H0 | left; exact H1].
    + split; [exact H0 | right]. exact H1.
Qed.

Lemma on_arrival_length self agent :
  (length (Path.request_order (LearningAgent.path (on_arrival self agent)))
   <= length (Path.request_order (LearningAgent.path agent)))%nat /\
  (match Path.request_order (LearningAgent.path agent) with
   | node :: _ =>
       Position.next_location (LearningAgent.position agent)
       = fst (stop_of (LearningAgent.path agent) node)
   | [] => False
   end ->
   (length (Path.request_order (LearningAgent.path (on_arrival self agent)))
    < length (Path.request_order (LearningAgent.path agent)))%nat).
Proof.
  unfold on_arrival. cbv zeta.
  cbn [LearningAgent.path Path.set_request_order Path.request_order].
  destruct (Path.request_order (LearningAgent.path agent)) as [|node rest];
    [split; [simpl; lia | contradiction]|].
  destruct (_ =? _)%nat eqn:E.
  - split; [simpl; lia | intros _; simpl; lia].
  - split; [lia|]. intros H. apply Nat.eqb_neq in E. contradiction.
Qed.

Lemma move_agent_gets_on self :
  hops_advance self ->
  forall fuel agent budget,
    well_indexed (LearningAgent.path agent) ->
    on_a_good_hop agent ->
    budget + Z.of_nat (length (Path.request_order (LearningAgent.path agent)))
    < Z.of_nat fuel ->
    exists agent' remaining, _move_agent self fuel agent budget = Ok (agent', remaining).
Proof.
  intros Hadv. induction fuel as [|fuel IH]; intros agent budget Hw Hg Hf.
  - rewrite move_agent_negative by lia. eauto.
  - destruct (Z.lt_ge_cases budget 0) as [Hn|Hb].
    { rewrite move_agent_negative by exact Hn. eauto. }
    destruct (Z.lt_ge_cases budget
                (Position.time_to_next_location (LearningAgent.position agent)))
      as [Hlt|Hge].
    + rewrite move_agent_step by exact Hb. cbv zeta.
      replace (0 <=? budget - _) with false by (symmetry; apply Z.leb_gt; lia).
      eauto.
    + rewrite (move_agent_arrives self fuel agent budget Hw Hb Hge).
      destruct (Path.is_empty _) eqn:Ee; [eauto|].
      destruct Hg as (Ht & Hg).
      apply IH.
      * apply on_arrival_well_indexed. exact Hw.
      * apply on_arrival_good_hop; assumption.
      * destruct (on_arrival_length self agent) as (Hle & Hlt).
        destruct Hg as [H1|Hat]; [lia|].
        destruct (Path.request_order (LearningAgent.path agent)) as [|node rest] eqn:Eo.
        -- (* nothing to visit: the arrival leaves an empty path *)
           unfold Path.is_empty in Ee.
           destruct (Path.request_order (LearningAgent.path (on_arrival self agent)));
             [discriminate | simpl in Hle; lia].
        -- specialize (Hlt Hat). lia.
Qed.

Lemma move_agent_gets_through self :
  hops_advance self ->
  forall agent budget,
    0 <= budget ->
    0 <= Position.time_to_next_location (LearningAgent.position agent) ->
    well_indexed (LearningAgent.path agent) ->
    exists agent' remaining,
      _move_agent self
        (Z.to_nat budget + length (Path.request_order (LearningAgent.path agent)) + 2)
        agent budget
      = Ok (agent', remaining).
Proof.
  intros Hadv agent budget Hb Ht Hw.
  replace (Z.to_nat budget + length (Path.request_order (LearningAgent.path agent)) + 2)%nat
    with (S (Z.to_nat budget
             + length (Path.request_order (LearningAgent.path agent)) + 1)) by lia.
  destruct (Z.lt_ge_cases budget
              (Position.time_to_next_location (LearningAgent.position agent)))
    as [Hlt|Hge].
  - rewrite (move_agent_overrun self _ agent budget Hb Hlt). cbv zeta. eauto.
  - rewrite (move_agent_arrives self _ agent budget Hw Hb Hge).
    destruct (Path.is_empty _); [eauto|].
    apply (move_agent_gets_on self Hadv).
    + apply on_arrival_well_indexed. exact Hw.
    + apply on_arrival_good_hop; assumption.
    + destruct (on_arrival_length self agent) as (Hle & _). lia.
Qed.

Lemma sample_hops_advance max_capacity history :
  hops_advance (Sample.envt max_capacity history).
Proof.
  intros a b. cbv zeta. unfold get_next_location, get_travel_time.
  cbn [Sample.envt NYEnvironment.shortest_path NYEnvironment.travel_time].
  unfold Sample.line_hop, Sample.line_time.
  destruct (a <? b)%nat eqn:E1.
  - apply Nat.ltb_lt in E1. split; [lia | left; lia].
  - destruct (b <? a)%nat eqn:E2.
    + apply Nat.ltb_lt in E2. split; [lia | left; lia].
    + apply Nat.ltb_ge in E1, E2. split; [lia | right; lia].
Qed.

(** C6.  The stepper returns the unused budget.  For a nonnegative
    budget, a returned value of zero or more comes with an empty path on
    exit (so a strictly positive one does), and a negative returned
    value comes with [time_to_next_location] equal to its negation on
    exit.  On a well-indexed path the returned value is what is left of
    the budget along the vehicle's journey: the vehicle makes a number
    [n] of arrivals, each within the budget and each but the last with a
    node left to visit, and either it stops at the [n]-th arrival with
    an empty path, and what is left of the budget then is returned, or
    the budget runs out on the hop that follows, and what is returned is
    what was left less the time of that hop, with
    [time_to_next_location] the time of that hop less what was left.
    When the budget runs out on the first hop this is the old
    [time_to_next_location] minus the budget.  On tables whose hops take
    at least one unit of time or end at the destination, for a
    well-indexed path and a nonnegative [time_to_next_location], the
    stepper returns within [budget + 2] iterations and one more for
    every node of the path. *)
Theorem move_agent_spare_time self :
  (forall fuel agent budget agent' remaining,
     0 <= budget ->
     _move_agent self fuel agent budget = Ok (agent', remaining) ->
     (0 < remaining -> Path.is_empty (LearningAgent.path agent') = true) /\
     (remaining < 0 ->
      Position.time_to_next_location (LearningAgent.position agent') = - remaining)) /\
  (forall fuel agent budget agent' remaining,
     0 <= budget ->
     well_indexed (LearningAgent.path agent) ->
     _move_agent self fuel agent budget = Ok (agent', remaining) ->
     exists n,
       let there := after_arrivals self n agent in
       let left := budget_left self n agent budget in
       let hop := Position.time_to_next_location (LearningAgent.position there) in
       (forall j, (j <= n)%nat -> 0 <= budget_left self j agent budget) /\
       (forall j, (0 < j < n)%nat ->
          Path.is_empty (LearningAgent.path (after_arrivals self j agent)) = false) /\
       (((0 < n)%nat /\
         Path.is_empty (LearningAgent.path there) = true /\
         remaining = left /\
         agent' = there)
        \/
        (((0 < n)%nat -> Path.is_empty (LearningAgent.path there) = false) /\
         left < hop /\
         remaining = left - hop /\
         agent'
         = LearningAgent.set_position there
             (Position.mk (Position.next_location (LearningAgent.position there))
                          (hop - (remaining + hop))) /\
         Position.time_to_next_location (LearningAgent.position agent') = hop - left))) /\
  (forall fuel agent budget,
     0 <= budget ->
     budget < Position.time_to_next_location (LearningAgent.position agent) ->
     _move_agent self (S fuel) agent budget =
     Ok (LearningAgent.set_position agent
           (Position.mk
              (Position.next_location (LearningAgent.position agent))
              (Position.time_to_next_location (LearningAgent.position agent) - budget)),
         budget - Position.time_to_next_location (LearningAgent.position agent))) /\
  (hops_advance self ->
   forall agent budget,
     0 <= budget ->
     0 <= Position.time_to_next_location (LearningAgent.position agent) ->
     well_indexed (LearningAgent.path agent) ->
     exists agent' remaining,
       _move_agent self
         (Z.to_nat budget + length (Path.request_order (LearningAgent.path agent)) + 2)
         agent budget
       = Ok (agent', remaining)).
Proof.
  split; [|split; [|split]].
  - intros fuel agent budget agent' remaining Hb H.
    destruct (move_agent_exit self _ _ _ _ _ Hb H) as (He & Hn).
    split; [intros; apply He; lia | exact Hn].
  - intros fuel agent budget agent' remaining Hb Hw H.
    destruct (move_agent_journey self _ _ _ _ _ Hb Hw H) as (n & Hleft & Hbusy & Hend).
    exists n. cbv zeta. split; [exact Hleft|]. split; [exact Hbusy|].
    destruct Hend as [Hstop|(Hn & Hl & Hr & Ha)]; [left; exact Hstop | right].
    split; [exact Hn|]. split; [exact Hl|]. split; [exact Hr|]. split; [exact Ha|].
    rewrite Ha. cbn [LearningAgent.set_position LearningAgent.position
                     Position.time_to_next_location]. lia.
  - intros fuel agent budget Hb Hlt.
    rewrite move_agent_step by exact Hb. cbv zeta.
    destruct (0 <=? budget - _) eqn:E; [apply Z.leb_le in E; lia|].
    do 4 f_equal. lia.
  - apply move_agent_gets_through.
Qed.

Lemma move_agent_spare_time_witness :
  (exists agent',
     _move_agent (Sample.envt 1 []) 10 Sample.one_trip 12 = Ok (agent', -3) /\
     Position.time_to_next_location (LearningAgent.position agent') = - (-3)) /\
  (exists agent' n,
     _move_agent (Sample.envt 1 []) 10 Sample.one_trip 60 = Ok (agent', 25) /\
     (0 < n)%nat /\ 25 = budget_left (Sample.envt 1 []) n Sample.one_trip 60) /\
  (exists agent' remaining,
     _move_agent (Sample.envt 1 [])
       (Z.to_nat 60
        + length (Path.request_order (LearningAgent.path Sample.one_trip)) + 2)
       Sample.one_trip 60
     = Ok (agent', remaining)).
Proof.
  assert (H12 : 0 <= 12) by lia.
  assert (H60 : 0 <= 60) by lia.
  assert (Hw : well_indexed (LearningAgent.path Sample.one_trip))
    by (repeat constructor).
  split; [|split].
  - eexists. split; [reflexivity|].
    apply (proj1 (move_agent_spare_time (Sample.envt 1 [])) 10%nat Sample.one_trip 12
             _ (-3) H12 eq_refl).
    lia.
  - destruct (proj1 (proj2 (move_agent_spare_time (Sample.envt 1 []))) 10%nat
                Sample.one_trip 60 _ 25 H60 Hw eq_refl)
      as (n & _ & _ & [(Hn & _ & Hr & _)|(_ & Hl & Hr & _)]).
    + eexists. exists n. split; [reflexivity|]. split; [exact Hn | exact Hr].
    + exfalso. lia.
  - apply (proj2 (proj2 (proj2 (move_agent_spare_time (Sample.envt 1 []))))
             (sample_hops_advance 1 [])).
    + exact H60.
    + simpl. lia.
    + exact Hw.
Defined.

(* ------------------------------------------------------------------ *)
(** ** The bounded history *)

Section Deque.

Context {A : Type}.
Variable maxlen : nat.

Lemma lastn_length (l : list A) : (length (lastn maxlen l) <= maxlen)%nat.
Proof. unfold lastn. rewrite length_skipn. lia. Qed.

Lemma lastn_short (l : list A) : (length l <= maxlen)%nat -> lastn maxlen l = l.
Proof.
  intros H. unfold lastn. replace (length l - maxlen)%nat with 0%nat by lia.
  reflexivity.
Qed.

Lemma lastn_app_lastn (l xs : list A) :
  lastn maxlen (lastn maxlen l ++ xs) = lastn maxlen (l ++ xs).
Proof.
  destruct (Nat.le_gt_cases (length l) maxlen) as [Hle|Hgt].
  - rewrite (lastn_short l Hle). reflexivity.
  - unfold lastn. rewrite !length_app, length_skipn.
    set (k := (length l - maxlen)%nat).
    replace (length l - k + length xs - maxlen)%nat with (length xs) by lia.
    replace (length l + length xs - maxlen)%nat with (length xs + k)%nat by lia.
    rewrite <- skipn_skipn. f_equal.
    rewrite skipn_app. replace (k - length l)%nat with 0%nat by lia.
    reflexivity.
Qed.

Lemma deque_append_lastn (d : list A) (x : A) :
  (length d <= maxlen)%nat ->
  deque_append maxlen d x = lastn maxlen (d ++ [x]).
Proof.
  intros H. unfold deque_append, lastn. rewrite length_app. simpl length.
  destruct (maxlen =? 0)%nat eqn:E0.
  - apply Nat.eqb_eq in E0. destruct d; [|simpl in H; lia].
    subst maxlen. reflexivity.
  - apply Nat.eqb_neq in E0.
    destruct (length d <? maxlen)%nat eqn:El.
    + apply Nat.ltb_lt in El.
      replace (length d + 1 - maxlen)%nat with 0%nat by lia. reflexivity.
    + apply Nat.ltb_ge in El.
      replace (length d + 1 - maxlen)%nat with 1%nat by lia.
      destruct d; [simpl in *; lia | reflexivity].
Qed.

Lemma deque_extend_lastn (xs d : list A) :
  (length d <= maxlen)%nat ->
  deque_extend maxlen d xs = lastn maxlen (d ++ xs).
Proof.
  revert d. induction xs as [|x xs IH]; intros d H.
  - unfold deque_extend. simpl. rewrite app_nil_r. symmetry. apply lastn_short, H.
  - unfold deque_extend in *. simpl.
    rewrite (deque_append_lastn d x H).
    rewrite IH by apply lastn_length.
    rewrite lastn_app_lastn, <- app_assoc. reflexivity.
Qed.

End Deque.

Lemma bind_Ok_inv {A B} (m : result A) (k : A -> result B) b :
  bind m k = Ok b -> exists a, m = Ok a /\ k a = Ok b.
Proof. destruct m; simpl; intros H; try discriminate. eauto. Qed.

(** What the loops that read a solution return: at most one target per
    vehicle, each of them a sampled one. *)
Lemma flat_map_at_most_one {A B} (f : A -> list B) (P : B -> Prop) (l : list A) :
  (forall a, (length (f a) <= 1)%nat /\ Forall P (f a)) ->
  (length (flat_map f l) <= length l)%nat /\ Forall P (flat_map f l).
Proof.
  intros Hf. induction l as [|a l [IHl IHf]]; simpl; [split; [lia | constructor]|].
  destruct (Hf a) as (Hl & Hp). rewrite length_app. split; [lia|].
  apply Forall_app. split; assumption.
Qed.

Lemma read_assignment_from x n possible_targets :
  (length (read_assignment x n possible_targets) <= n)%nat /\
  Forall (fun target => In target possible_targets)
         (read_assignment x n possible_targets).
Proof.
  unfold read_assignment.
  match goal with |- (length (flat_map ?f ?l) <= _)%nat /\ _ =>
    assert (H : forall a, (length (f a) <= 1)%nat /\
                          Forall (fun target => In target possible_targets) (f a));
    [|destruct (flat_map_at_most_one f _ l H) as (Hl & Hp);
      rewrite length_seq in Hl; split; assumption]
  end.
  intros a.
  destruct (assigned_target x (length possible_targets) a) as [t|]; simpl;
    [|split; [lia | constructor]].
  destruct (nth_error possible_targets t) as [target|] eqn:E; simpl;
    [|split; [lia | constructor]].
  split; [lia|]. constructor; [|constructor]. eapply nth_error_In; eauto.
Qed.

Section Motion.

Variable draws : nat -> nat.
Variable solve : nat -> nat -> (nat -> nat -> Z) -> option (nat -> nat -> Z).

(** A completed [simulate_motion]: the vehicles are moved, the history is
    extended, and only then the targets are drawn. *)
Lemma simulate_motion_inv self fuel agents current_requests self' agents' :
  simulate_motion draws solve self fuel agents current_requests = Ok (self', agents') ->
  self' = update_recent_requests self current_requests /\
  exists moved agents_to_rebalance,
    move_agents self fuel agents 0 = Ok (moved, agents_to_rebalance) /\
    ((agents_to_rebalance = [] /\ agents' = moved) \/
     (agents_to_rebalance <> [] /\
      exists targets,
        _get_rebalance_targets draws solve self'
          (rebalanced_agents moved agents_to_rebalance) = Ok targets /\
        rebalance self' fuel moved agents_to_rebalance targets = Ok agents')).
Proof.
  unfold simulate_motion. intros H.
  apply bind_Ok_inv in H. destruct H as ([moved atr] & Hm & H).
  destruct atr as [|entry atr].
  - inversion H; subst. split; [reflexivity|].
    eexists. exists []. split; [exact Hm|]. left. auto.
  - apply bind_Ok_inv in H. destruct H as (targets & Ht & H).
    apply bind_Ok_inv in H. destruct H as (agents'' & Hr & H).
    inversion H; subst. split; [reflexivity|].
    eexists. exists (entry :: atr). split; [exact Hm|]. right.
    split; [discriminate|]. exists targets. auto.
Qed.

Lemma sample_targets_in history :
  forall n i sampled,
    sample_targets history draws i n = Ok sampled ->
    length sampled = n /\ Forall (fun target => In target history) sampled.
Proof.
  induction n as [|n IH]; intros i sampled H; simpl in H.
  - inversion H; subst. split; [reflexivity | constructor].
  - destruct (choice (draws i) history) as [target| |] eqn:Ec; simpl in H; try discriminate.
    destruct (sample_targets history draws (S i) n) as [rest| |] eqn:Er;
      simpl in H; try discriminate.
    inversion H; subst. destruct (IH _ _ Er) as (Hl & Hin).
    split; [simpl; congruence|]. constructor; [|exact Hin].
    unfold choice in Ec. destruct history as [|h hs]; [discriminate|].
    destruct (nth_error (h :: hs) _) eqn:En; inversion Ec; subst.
    eapply nth_error_In; eauto.
Qed.

(** The [i]-th sampled target is the item of the history that the
    [i]-th draw points at. *)
Lemma sample_targets_nth history :
  forall n i0 sampled,
    sample_targets history draws i0 n = Ok sampled ->
    forall i target,
      nth_error sampled i = Some target ->
      nth_error history (draws (i0 + i) mod length history) = Some target.
Proof.
  induction n as [|n IH]; intros i0 sampled H i target Hn; simpl in H.
  - inversion H; subst. destruct i; discriminate.
  - destruct (choice (draws i0) history) as [first| |] eqn:Ec; simpl in H;
      try discriminate.
    destruct (sample_targets history draws (S i0) n) as [rest| |] eqn:Er;
      simpl in H; try discriminate.
    inversion H; subst sampled; clear H. destruct i as [|i]; simpl in Hn.
    + inversion Hn; subst target. rewrite Nat.add_0_r.
      unfold choice in Ec. destruct history as [|h hs]; [discriminate|].
      destruct (nth_error (h :: hs) _) eqn:En; inversion Ec; subst. reflexivity.
    + replace (i0 + S i)%nat with (S i0 + i)%nat by lia.
      apply (IH _ _ Er _ _ Hn).
Qed.

Lemma appended_history batches self :
  appended draws solve batches self ->
  NYEnvironment.recent_request_history self
    = lastn REQUEST_HISTORY_SIZE (concat batches).
Proof.
  induction 1 as [self H|batches self reqs _ IH|batches self fuel agents reqs self' agents' _ IH Hs].
  - rewrite H. reflexivity.
  - unfold update_recent_requests. simpl.
    rewrite deque_extend_lastn by (rewrite IH; apply lastn_length).
    rewrite IH, lastn_app_lastn, concat_app. simpl. rewrite app_nil_r. reflexivity.
  - apply simulate_motion_inv in Hs. destruct Hs as (-> & _).
    unfold update_recent_requests. simpl.
    rewrite deque_extend_lastn by (rewrite IH; apply lastn_length).
    rewrite IH, lastn_app_lastn, concat_app. simpl. rewrite app_nil_r. reflexivity.
Qed.

(** C8.  After any sequence of [update_recent_requests] and
    [simulate_motion] calls from an empty history, the history holds the
    last [REQUEST_HISTORY_SIZE] = 500 requests appended, in the order of
    appending, and so at most 500.  A completed [simulate_motion] has
    appended the epoch's requests before it draws the rebalancing
    targets: when a vehicle has spare time, the [i]-th target sampled is
    the item of the extended history that the [i]-th draw points at, the
    targets handed out are among the sampled ones and are those that
    [_get_rebalance_targets] returns on the extended history, and the
    vehicles the call leaves are those rebalanced with these targets. *)
Theorem recent_request_history_bounded_fifo :
  (forall batches self,
     appended draws solve batches self ->
     NYEnvironment.recent_request_history self
       = lastn 500 (concat batches) /\
     (length (NYEnvironment.recent_request_history self) <= 500)%nat) /\
  (forall self fuel agents current_requests self' agents',
     simulate_motion draws solve self fuel agents current_requests = Ok (self', agents') ->
     self' = update_recent_requests self current_requests /\
     exists moved agents_to_rebalance,
       move_agents self fuel agents 0 = Ok (moved, agents_to_rebalance) /\
       (agents_to_rebalance = [] -> agents' = moved) /\
       (agents_to_rebalance <> [] ->
        let extended :=
          NYEnvironment.recent_request_history
            (update_recent_requests self current_requests) in
        exists sampled targets,
          length sampled = length (rebalanced_agents moved agents_to_rebalance) /\
          (forall i target,
             nth_error sampled i = Some target ->
             nth_error extended (draws i mod length extended) = Some target) /\
          Forall (fun target => In target sampled) targets /\
          _get_rebalance_targets draws solve
            (update_recent_requests self current_requests)
            (rebalanced_agents moved agents_to_rebalance) = Ok targets /\
          rebalance (update_recent_requests self current_requests) fuel moved
            agents_to_rebalance targets = Ok agents')).
Proof.
  split.
  - intros batches self H. pose proof (appended_history _ _ H) as E. split.
    + exact E.
    + rewrite E. apply (lastn_length REQUEST_HISTORY_SIZE).
  - intros self fuel agents reqs self' agents' H.
    apply simulate_motion_inv in H.
    destruct H as (-> & moved & atr & Hm & Hcase). split; [reflexivity|].
    exists moved, atr. split; [exact Hm|]. split.
    + intros He. destruct Hcase as [(_ & Ha)|(Hne & _)]; [exact Ha | contradiction].
    + intros Hne. cbv zeta.
      destruct Hcase as [(He & _)|(_ & targets & Ht & Hr)]; [contradiction|].
      pose proof Ht as Ht'. unfold _get_rebalance_targets in Ht'.
      destruct (sample_targets _ draws 0 _) as [sampled| |] eqn:Es; simpl in Ht';
        try discriminate.
      exists sampled, targets.
      split; [apply (proj1 (sample_targets_in _ _ _ _ Es))|].
      split; [intros i target Hn; apply (sample_targets_nth _ _ _ _ Es i target Hn)|].
      split; [|split; [exact Ht | exact Hr]].
      destruct (rebalanced_agents moved atr) as [|a rest]; [discriminate|].
      destruct (solve _ _ _) as [solution|]; [|discriminate].
      inversion Ht'; subst targets.
      apply (proj2 (read_assignment_from solution _ sampled)).
Qed.

End Motion.

Lemma recent_request_history_bounded_fifo_witness :
  NYEnvironment.recent_request_history
    (update_recent_requests (Sample.envt 1 [])
       [Sample.trip 1 3 100 200; Sample.trip 5 3 100 200])
  = [Sample.trip 1 3 100 200; Sample.trip 5 3 100 200] /\
  exists self' agents' targets,
    simulate_motion (fun _ => 0%nat) (fun _ _ _ => Some Sample.diagonal)
      (Sample.envt 1 []) 10 [Sample.idle 2] [Sample.trip 4 5 100 100]
      = Ok (self', agents') /\
    self' = update_recent_requests (Sample.envt 1 []) [Sample.trip 4 5 100 100] /\
    _get_rebalance_targets (fun _ => 0%nat) (fun _ _ _ => Some Sample.diagonal)
      self' [Sample.idle 2] = Ok targets /\
    Forall (fun target => In target [Sample.trip 4 5 100 100]) targets.
Proof.
  split.
  - apply (proj1 (proj1 (recent_request_history_bounded_fifo (fun _ => 0%nat)
                           (fun _ _ _ => Some Sample.diagonal))
                    ([] ++ [[Sample.trip 1 3 100 200; Sample.trip 5 3 100 200]])
                    _
                    (appended_update _ _ [] (Sample.envt 1 []) _
                       (appended_nothing _ _ (Sample.envt 1 []) eq_refl)))).
  - destruct (proj2 (recent_request_history_bounded_fifo (fun _ => 0%nat)
                       (fun _ _ _ => Some Sample.diagonal))
                (Sample.envt 1 []) 10%nat [Sample.idle 2]
                [Sample.trip 4 5 100 100] _ _ eq_refl)
      as (Hs & moved & atr & Hm & _ & Hreb).
    vm_compute in Hm. inversion Hm; subst moved atr; clear Hm.
    assert (Hne : [(0%nat, 60)] <> []) by discriminate.
    destruct (Hreb Hne) as (sampled & targets & Hlen & Hnth & Hin & Ht & _).
    eexists. eexists. exists targets.
    split; [reflexivity|]. split; [exact Hs|]. split; [exact Ht|].
    rewrite Forall_forall in *. intros target Htarget.
    destruct (In_nth_error _ _ (Hin target Htarget)) as (i & Hi).
    apply Hnth in Hi. apply nth_error_In in Hi. exact Hi.
Defined.

(* ------------------------------------------------------------------ *)
(** ** The fleet step *)

Lemma store_length agents slot agent :
  length (store agents slot agent) = length agents.
Proof.
  revert slot. induction agents as [|a rest IH]; intros [|slot]; simpl; auto.
Qed.

Lemma store_same agents slot agent :
  (slot < length agents)%nat -> nth_error (store agents slot agent) slot = Some agent.
Proof.
  revert slot. induction agents as [|a rest IH]; intros [|slot] H; simpl in *;
    try lia; auto. apply IH. lia.
Qed.

Lemma store_other agents slot agent other :
  other <> slot -> nth_error (store agents slot agent) other = nth_error agents other.
Proof.
  revert slot other. induction agents as [|a rest IH]; intros [|slot] [|other] H;
    simpl; auto; try congruence.
Qed.

(** The stepper touches the position and pops visited nodes; the rest of
    the vehicle is as before. *)
Lemma visit_next_location_frame p p' :
  Path.visit_next_location p = Ok p' ->
  Path.requests p' = Path.requests p /\
  Path.current_capacity p' = Path.current_capacity p /\
  Path.total_delay p' = Path.total_delay p.
Proof.
  unfold Path.visit_next_location. destruct (Path.request_order p); intros H;
    inversion H; subst; simpl; auto.
Qed.

Lemma move_agent_frame self :
  forall fuel agent budget agent' remaining,
    _move_agent self fuel agent budget = Ok (agent', remaining) ->
    LearningAgent.id agent' = LearningAgent.id agent /\
    Path.requests (LearningAgent.path agent') = Path.requests (LearningAgent.path agent) /\
    Path.current_capacity (LearningAgent.path agent')
      = Path.current_capacity (LearningAgent.path agent) /\
    Path.total_delay (LearningAgent.path agent')
      = Path.total_delay (LearningAgent.path agent).
Proof.
  induction fuel as [|fuel IH]; intros agent budget agent' remaining H.
  - simpl in H. destruct (budget <? 0); inversion H; subst; auto.
  - destruct (Z.lt_ge_cases budget 0) as [Hn|Hb].
    { rewrite move_agent_negative in H by exact Hn. inversion H; subst; auto. }
    rewrite move_agent_step in H by exact Hb. cbv zeta in H.
    destruct (0 <=? budget - _).
    + apply bind_Ok_inv in H. destruct H as (head & _ & H).
      apply bind_Ok_inv in H. destruct H as (path1 & Hp & H).
      assert (Hf : Path.requests path1 = Path.requests (LearningAgent.path agent) /\
                   Path.current_capacity path1
                     = Path.current_capacity (LearningAgent.path agent) /\
                   Path.total_delay path1 = Path.total_delay (LearningAgent.path agent)).
      { destruct (at_head _ head).
        - apply visit_next_location_frame, Hp.
        - inversion Hp; subst; auto. }
      destruct (negb (Path.is_empty path1)).
      * apply bind_Ok_inv in H. destruct H as ([target|] & _ & H); [|discriminate].
        apply IH in H. simpl in H. destruct H as (Hi & Hr & Hc & Hd).
        destruct Hf as (Fr & Fc & Fd). repeat split; congruence.
      * inversion H; subst. simpl. tauto.
    + inversion H; subst. simpl. auto.
Qed.

Section Fleet.

Variable draws : nat -> nat.
Variable solve : nat -> nat -> (nat -> nat -> Z) -> option (nat -> nat -> Z).
Variable self : NYEnvironment.t.
Variable fuel : nat.

(** The first loop: the moved vehicles, and the entries of
    [agents_to_rebalance], which are the vehicles with spare time, by
    slot. *)
Lemma move_agents_entries :
  forall agents s moved atr,
    move_agents self fuel agents s = Ok (moved, atr) ->
    length moved = length agents /\
    forall slot tr, In (slot, tr) atr ->
      (s <= slot < s + length agents)%nat /\ 0 < tr /\
      exists agent agent',
        nth_error agents (slot - s) = Some agent /\
        nth_error moved (slot - s) = Some agent' /\
        _move_agent self fuel agent (get_epoch_length self) = Ok (agent', tr).
Proof.
  induction agents as [|agent rest IH]; intros s moved atr H; simpl in H.
  - inversion H; subst. split; [reflexivity|]. intros ? ? [].
  - apply bind_Ok_inv in H. destruct H as ([agent' r] & Hm & H).
    apply bind_Ok_inv in H. destruct H as ([rest' atr'] & Hr & H).
    inversion H; subst moved atr; clear H.
    destruct (IH _ _ _ Hr) as (Hlen & Hent).
    split; [simpl; congruence|].
    intros slot tr Hin.
    assert (Hcase : (slot = s /\ tr = r /\ 0 < r) \/ In (slot, tr) atr').
    { destruct (0 <? r) eqn:E; [|auto].
      destruct Hin as [Heq|Hin]; [|auto].
      inversion Heq; subst. apply Z.ltb_lt in E. auto. }
    destruct Hcase as [(-> & -> & Hpos)|Hin'].
    + split; [simpl; lia|]. split; [exact Hpos|].
      exists agent, agent'. rewrite Nat.sub_diag. simpl. auto.
    + destruct (Hent _ _ Hin') as (Hrange & Hpos & a & a' & Ha & Ha' & Hmv).
      split; [simpl; lia|]. split; [exact Hpos|].
      exists a, a'. replace (slot - s)%nat with (S (slot - S s)) by lia.
      simpl. auto.
Qed.

Lemma move_agents_slots :
  forall agents s moved atr,
    move_agents self fuel agents s = Ok (moved, atr) -> NoDup (map fst atr).
Proof.
  induction agents as [|agent rest IH]; intros s moved atr H; simpl in H.
  - inversion H; subst. constructor.
  - apply bind_Ok_inv in H. destruct H as ([agent' r] & Hm & H).
    apply bind_Ok_inv in H. destruct H as ([rest' atr'] & Hr & H).
    inversion H; subst moved atr; clear H.
    pose proof (IH _ _ _ Hr) as Hnd.
    destruct (0 <? r); [|exact Hnd].
    simpl. constructor; [|exact Hnd].
    intros Hin. apply in_map_iff in Hin. destruct Hin as ([slot tr] & Hs & Hin).
    simpl in Hs. subst slot.
    destruct (move_agents_entries _ _ _ _ Hr) as (_ & Hent).
    destruct (Hent _ _ Hin) as (Hrange & _). lia.
Qed.

Lemma move_agents_total :
  forall agents s,
    (forall agent, In agent agents ->
       exists agent' r, _move_agent self fuel agent (get_epoch_length self) = Ok (agent', r)) ->
    exists moved atr,
      move_agents self fuel agents s = Ok (moved, atr) /\
      (forall agent agent' r,
         In agent agents ->
         _move_agent self fuel agent (get_epoch_length self) = Ok (agent', r) ->
         0 < r -> atr <> []).
Proof.
  induction agents as [|agent rest IH]; intros s Hall.
  - exists [], []. split; [reflexivity|]. intros ? ? ? [].
  - destruct (Hall agent (or_introl eq_refl)) as (agent' & r & Hm).
    destruct (IH (S s)) as (rest' & atr' & Hr & Hne).
    { intros a Ha. apply Hall. right. exact Ha. }
    simpl. rewrite Hm. simpl. rewrite Hr. simpl.
    eexists. eexists. split; [reflexivity|].
    intros a a' r' [<-|Hin] Ha Hpos.
    + rewrite Hm in Ha. inversion Ha; subst.
      apply Z.ltb_lt in Hpos. rewrite Hpos. discriminate.
    + pose proof (Hne _ _ _ Hin Ha Hpos) as Hne'.
      destruct (0 <? r); [discriminate | exact Hne'].
Qed.

Lemma rebalanced_agents_entry moved slot tr atr :
  (slot < length moved)%nat ->
  exists agent rest, rebalanced_agents moved ((slot, tr) :: atr) = agent :: rest.
Proof.
  intros H. unfold rebalanced_agents. simpl.
  destruct (nth_error moved slot) eqn:E.
  - simpl. eauto.
  - apply nth_error_None in E. lia.
Qed.

End Fleet.

(** C10.  When every vehicle's move returns, one of them with strictly
    positive spare time, and the history is empty with no request in the
    current epoch, [simulate_motion] does not complete: the sampling of a
    rebalancing target raises [IndexError]. *)
Theorem simulate_motion_needs_history draws solve self fuel agents :
  NYEnvironment.recent_request_history self = [] ->
  (forall agent, In agent agents ->
     exists agent' r,
       _move_agent self fuel agent (get_epoch_length self) = Ok (agent', r)) ->
  (exists agent agent' r,
     In agent agents /\
     _move_agent self fuel agent (get_epoch_length self) = Ok (agent', r) /\
     0 < r) ->
  simulate_motion draws solve self fuel agents [] = Raise IndexError.
Proof.
  intros Hh Hall (agent & agent' & r & Hin & Hm & Hpos).
  destruct (move_agents_total self fuel agents 0 Hall) as (moved & atr & Hmv & Hne).
  specialize (Hne _ _ _ Hin Hm Hpos).
  unfold simulate_motion. rewrite Hmv. simpl.
  destruct atr as [|[slot tr] atr]; [congruence|].
  destruct (move_agents_entries self fuel _ _ _ _ Hmv) as (Hlen & Hent).
  destruct (Hent slot tr (or_introl eq_refl)) as (Hrange & _).
  destruct (rebalanced_agents_entry moved slot tr atr) as (a & rest & ->); [lia|].
  unfold _get_rebalance_targets, update_recent_requests. simpl.
  rewrite Hh. reflexivity.
Qed.

Lemma simulate_motion_needs_history_witness :
  simulate_motion (fun _ => 0%nat) (fun _ _ _ => Some Sample.diagonal)
    (Sample.envt 1 []) 10 [Sample.one_trip; Sample.idle 2] []
  = Raise IndexError.
Proof.
  apply simulate_motion_needs_history.
  - reflexivity.
  - intros agent [<-|[<-|[]]]; eexists; eexists; reflexivity.
  - exists (Sample.idle 2). eexists. exists 60.
    split; [right; left; reflexivity|]. split; [reflexivity | lia].
Defined.

(* ------------------------------------------------------------------ *)
(** ** The rebalancing probe *)

Lemma in_firstn {A} (x : A) n l : In x (firstn n l) -> In x l.
Proof. intros H. rewrite <- (firstn_skipn n l). apply in_or_app. auto. Qed.

(** The probe leaves both lists of the path empty and its other fields
    as they were. *)
Lemma probe_spec self fuel agent target time_remaining agent' :
  probe self fuel agent target time_remaining = Ok agent' ->
  LearningAgent.id agent' = LearningAgent.id agent /\
  Path.request_order (LearningAgent.path agent') = [] /\
  Path.requests (LearningAgent.path agent') = [] /\
  Path.current_capacity (LearningAgent.path agent')
    = Path.current_capacity (LearningAgent.path agent) /\
  Path.total_delay (LearningAgent.path agent')
    = Path.total_delay (LearningAgent.path agent).
Proof.
  unfold probe. intros H. apply bind_Ok_inv in H.
  destruct H as ([moved r] & Hm & H). inversion H; subst; clear H.
  apply move_agent_frame in Hm. simpl in Hm. destruct Hm as (Hi & _ & Hc & Hd).
  simpl. auto.
Qed.

Lemma rebalance_spec self fuel :
  forall targets atr agents agents',
    rebalance self fuel agents atr targets = Ok agents' ->
    NoDup (map fst atr) ->
    (length targets <= length atr)%nat /\
    (forall idx slot tr agent,
       (idx < length targets)%nat ->
       nth_error atr idx = Some (slot, tr) ->
       nth_error agents slot = Some agent ->
       exists target agent',
         nth_error targets idx = Some target /\
         probe self fuel agent target tr = Ok agent' /\
         nth_error agents' slot = Some agent') /\
    (forall slot,
       ~ In slot (map fst (firstn (length targets) atr)) ->
       nth_error agents' slot = nth_error agents slot).
Proof.
  induction targets as [|target targets IH]; intros atr agents agents' H Hnd.
  - simpl in H. inversion H; subst. simpl.
    split; [lia|]. split; [intros; simpl in *; lia | intros; reflexivity].
  - simpl in H. destruct atr as [|[slot0 tr0] others]; [discriminate|].
    destruct (nth_error agents slot0) as [agent0|] eqn:E0; [|discriminate].
    apply bind_Ok_inv in H. destruct H as (agent0' & Hp & H).
    simpl in Hnd. inversion Hnd as [|? ? Hnotin Hnd']; subst.
    destruct (IH _ _ _ H Hnd') as (Hlen & Hprobe & Hframe).
    assert (Hslot0 : (slot0 < length agents)%nat).
    { apply nth_error_Some. congruence. }
    split; [simpl; lia|]. split.
    + intros [|idx] slot tr agent Hidx Hnth Hag; simpl in Hnth.
      * inversion Hnth; subst slot tr. rewrite E0 in Hag. inversion Hag; subst agent.
        exists target, agent0'. split; [reflexivity|]. split; [exact Hp|].
        rewrite Hframe.
        -- apply store_same, Hslot0.
        -- intros Hin. apply Hnotin.
           apply in_map_iff in Hin. destruct Hin as (e & He & Hin).
           apply in_map_iff. exists e. split; [exact He|].
           eapply in_firstn; eauto.
      * assert (Hne : slot <> slot0).
        { intros ->. apply Hnotin. apply in_map_iff. exists (slot0, tr).
          split; [reflexivity|]. eapply nth_error_In; eauto. }
        simpl in Hidx.
        destruct (Hprobe idx slot tr agent) as (tg & ag' & Ht & Hpr & Hn);
          [lia | exact Hnth | rewrite store_other by exact Hne; exact Hag |].
        exists tg, ag'. simpl. auto.
    + intros slot Hnot. simpl in Hnot.
      rewrite Hframe by tauto. apply store_other. intros ->. tauto.
Qed.

(** What the rebalancing phase leaves of a vehicle.  In a completed
    [simulate_motion], every vehicle that is handed a rebalancing target
    had an empty visit order before the dummy target was inserted, and
    after the phase its [request_order] and [requests] are empty; its
    identity, declared occupancy and total delay are as before the
    insertion.  Its path is the one before the insertion when that path
    held no request entry then. *)
Lemma rebalancing_probe_clears_path draws solve self fuel agents current_requests
    self' agents' :
  simulate_motion draws solve self fuel agents current_requests = Ok (self', agents') ->
  exists moved agents_to_rebalance targets,
    move_agents self fuel agents 0 = Ok (moved, agents_to_rebalance) /\
    (agents_to_rebalance <> [] ->
     _get_rebalance_targets draws solve self'
       (rebalanced_agents moved agents_to_rebalance) = Ok targets) /\
    forall idx slot time_remaining before,
      (idx < length targets)%nat ->
      nth_error agents_to_rebalance idx = Some (slot, time_remaining) ->
      nth_error moved slot = Some before ->
      exists after,
        nth_error agents' slot = Some after /\
        LearningAgent.id after = LearningAgent.id before /\
        Path.request_order (LearningAgent.path before) = [] /\
        Path.request_order (LearningAgent.path after) = [] /\
        Path.requests (LearningAgent.path after) = [] /\
        Path.current_capacity (LearningAgent.path after)
          = Path.current_capacity (LearningAgent.path before) /\
        Path.total_delay (LearningAgent.path after)
          = Path.total_delay (LearningAgent.path before) /\
        (Path.requests (LearningAgent.path before) = [] ->
         LearningAgent.path after = LearningAgent.path before).
Proof.
  intros H. apply simulate_motion_inv in H.
  destruct H as (-> & moved & atr & Hm & Hcase).
  destruct Hcase as [(-> & ->)|(Hne & targets & Ht & Hr)].
  - exists moved, [], []. split; [exact Hm|]. split; [congruence|].
    intros idx slot tr before Hidx. simpl in Hidx. lia.
  - exists moved, atr, targets. split; [exact Hm|]. split; [auto|].
    intros idx slot tr before Hidx Hnth Hb.
    pose proof (move_agents_slots self fuel _ _ _ _ Hm) as Hnd.
    destruct (rebalance_spec _ _ _ _ _ _ Hr Hnd) as (_ & Hprobe & _).
    destruct (Hprobe idx slot tr before Hidx Hnth Hb) as (target & after & _ & Hp & Ha).
    exists after. split; [exact Ha|].
    destruct (probe_spec _ _ _ _ _ _ Hp) as (Hi & Ho & Hq & Hc & Hd).
    assert (Hempty : Path.request_order (LearningAgent.path before) = []).
    { destruct (move_agents_entries self fuel _ _ _ _ Hm) as (_ & Hent).
      destruct (Hent slot tr (nth_error_In _ _ Hnth))
        as (_ & Hpos & a & a' & _ & Ha' & Hmv).
      rewrite Nat.sub_0_r in Ha'. rewrite Hb in Ha'. inversion Ha'; subst a'.
      assert (Hep : 0 <= get_epoch_length self)
        by (unfold get_epoch_length, EPOCH_LENGTH; lia).
      destruct (move_agent_exit self _ _ _ _ _ Hep Hmv) as (He & _).
      specialize (He ltac:(lia)). unfold Path.is_empty in He.
      destruct (Path.request_order (LearningAgent.path before)); [reflexivity|discriminate]. }
    repeat split; auto.
    intros Hreq. destruct (LearningAgent.path after), (LearningAgent.path before).
    simpl in *. congruence.
Qed.

(** The probe claim fails on the code: an idle vehicle whose path still
    holds a request entry is rebalanced, and the entry is cleared with
    the dummy one; so is the entry of a vehicle that serves its trip
    within the epoch and has time to spare. *)
Lemma probe_claim_fails :
  ~ probe_claim (fun _ => 0%nat) (fun _ _ _ => Some Sample.diagonal)
      (Sample.envt 1 []) 10 [Sample.idle_with_entry] [Sample.trip 4 5 100 100] /\
  ~ probe_claim (fun _ => 0%nat) (fun _ _ _ => Some Sample.diagonal)
      (Sample.envt 1 []) 10 [Sample.one_trip] [Sample.trip 4 5 100 100].
Proof.
  split; intros H.
  - specialize (H _ _ _ _ eq_refl eq_refl 0%nat 60 _ _ (or_introl eq_refl)
                  eq_refl eq_refl).
    vm_compute in H. discriminate H.
  - specialize (H _ _ _ _ eq_refl eq_refl 0%nat 25 _ _ (or_introl eq_refl)
                  eq_refl eq_refl).
    vm_compute in H. discriminate H.
Qed.

(** C7.  The code on an input on which it breaks the claim.  A vehicle
    serves its one trip (from 1 to 3) within the epoch and is left at
    location 3 with 25 units to spare and the served request still in
    [requests].  The rebalancing phase appends the entry of the target
    (pickup at 4) behind it and the node [PathNode(False, 0)], whose
    index 0 names the served request and not the target: the vehicle is
    moved towards location 1, the pickup of the served request, and the
    final [clear()] deletes the served entry together with the dummy
    one.  The path after the phase is not the path before the
    insertion. *)
Theorem rebalancing_probe_follows_old_entry :
  let envt := Sample.envt 1 [] in
  let target := Sample.trip 4 5 100 100 in
  let served := RequestInfo.mk (Sample.trip 1 3 100 200) true in
  let before :=
    LearningAgent.mk 0 (Position.mk 3%nat 10) (Path.mk [served] [] 0 0) in
  let after :=
    LearningAgent.mk 0 (Position.mk 1%nat 5) (Path.mk [] [] 0 0) in
  move_agents envt 10 [Sample.one_trip] 0 = Ok ([before], [(0%nat, 25)]) /\
  _get_rebalance_targets (fun _ => 0%nat) (fun _ _ _ => Some Sample.diagonal)
    (update_recent_requests envt [target]) [before] = Ok [target] /\
  probe (update_recent_requests envt [target]) 10 before target 25 = Ok after /\
  simulate_motion (fun _ => 0%nat) (fun _ _ _ => Some Sample.diagonal)
    envt 10 [Sample.one_trip] [target]
  = Ok (update_recent_requests envt [target], [after]) /\
  LearningAgent.path after <> LearningAgent.path before.
Proof.
  cbv zeta. split; [vm_compute; reflexivity|]. split; [vm_compute; reflexivity|].
  split; [vm_compute; reflexivity|]. split; [vm_compute; reflexivity|].
  discriminate.
Qed.

(* ------------------------------------------------------------------ *)
(** ** Sums over index ranges *)

Lemma sumZ_map_ext_in {A} (f g : A -> Z) l :
  (forall x, In x l -> f x = g x) -> sumZ (map f l) = sumZ (map g l).
Proof.
  induction l as [|x l IH]; intros H; simpl; [reflexivity|].
  rewrite H by (left; reflexivity). rewrite IH; [reflexivity|].
  intros y Hy. apply H. right. exact Hy.
Qed.

Lemma sumZ_map_const0 {A} (l : list A) : sumZ (map (fun _ => 0) l) = 0.
Proof. induction l; simpl; lia. Qed.

Lemma sumZ_map_add {A} (f g : A -> Z) l :
  sumZ (map (fun x => f x + g x) l) = sumZ (map f l) + sumZ (map g l).
Proof. induction l; simpl; lia. Qed.

Lemma sumZ_map_nonneg {A} (f : A -> Z) l :
  (forall x, In x l -> 0 <= f x) -> 0 <= sumZ (map f l).
Proof.
  induction l as [|x l IH]; intros H; simpl; [lia|].
  assert (0 <= f x) by (apply H; left; reflexivity).
  assert (0 <= sumZ (map f l)) by (apply IH; intros; apply H; right; assumption).
  lia.
Qed.

Lemma sumZ_map_zero {A} (f : A -> Z) l :
  (forall x, In x l -> 0 <= f x) -> sumZ (map f l) = 0 ->
  forall x, In x l -> f x = 0.
Proof.
  induction l as [|y l IH]; intros H Hs x Hx; simpl in *; [contradiction|].
  assert (0 <= f y) by (apply H; left; reflexivity).
  assert (0 <= sumZ (map f l)) by (apply sumZ_map_nonneg; intros; apply H; right; assumption).
  destruct Hx as [<-|Hx]; [lia|].
  apply IH; auto; lia.
Qed.

Lemma sumZ_swap {A B} (f : A -> B -> Z) l1 l2 :
  sumZ (map (fun t => sumZ (map (fun a => f a t) l1)) l2)
  = sumZ (map (fun a => sumZ (map (fun t => f a t) l2)) l1).
Proof.
  induction l2 as [|t l2 IH]; simpl.
  - rewrite sumZ_map_const0. reflexivity.
  - rewrite IH, <- sumZ_map_add. reflexivity.
Qed.

Lemma sumZ_Permutation l l' : Permutation l l' -> sumZ l = sumZ l'.
Proof. induction 1; simpl; lia. Qed.

Lemma map_nth_seq {A} (l : list A) d :
  map (fun a => nth a l d) (seq 0 (length l)) = l.
Proof.
  induction l as [|x l IH]; simpl; [reflexivity|].
  f_equal. rewrite <- seq_shift, map_map. exact IH.
Qed.

(** A 0/1 family that sums to 1 has its single 1 where the reading loop
    finds it. *)
Lemma one_hot (f : nat -> Z) l :
  (forall t, In t l -> f t = 0 \/ f t = 1) ->
  sumZ (map f l) = 1 ->
  exists t0,
    In t0 l /\ f t0 = 1 /\
    (forall t, In t l -> f t = 1 -> t = t0) /\
    find (fun t => f t =? 1) l = Some t0 /\
    forall g, sumZ (map (fun t => f t * g t) l) = g t0.
Proof.
  induction l as [|t l IH]; intros Hb Hs; simpl in Hs; [lia|].
  assert (Hb' : forall u, In u l -> f u = 0 \/ f u = 1)
    by (intros; apply Hb; right; assumption).
  assert (Hnn : forall u, In u l -> 0 <= f u)
    by (intros u Hu; destruct (Hb' u Hu); lia).
  destruct (Hb t (or_introl eq_refl)) as [H0|H1].
  - destruct (IH Hb') as (t0 & Hin & Hf & Huniq & Hfind & Hw); [lia|].
    exists t0. split; [right; exact Hin|]. split; [exact Hf|]. split; [|split].
    + intros u [<-|Hu] Hone; [lia | auto].
    + simpl. rewrite H0. simpl. exact Hfind.
    + intros g. simpl. rewrite H0, Hw. lia.
  - assert (Hz : forall u, In u l -> f u = 0)
      by (apply sumZ_map_zero; [exact Hnn | lia]).
    exists t. split; [left; reflexivity|]. split; [exact H1|]. split; [|split].
    + intros u [<-|Hu] Hone; [reflexivity|]. rewrite (Hz u Hu) in Hone. lia.
    + simpl. rewrite H1. reflexivity.
    + intros g. simpl. rewrite H1.
      rewrite (sumZ_map_ext_in (fun u => f u * g u) (fun _ => 0)).
      * rewrite sumZ_map_const0. lia.
      * intros u Hu. rewrite (Hz u Hu). lia.
Qed.

Lemma indicator_sum k l :
  NoDup l -> In k l ->
  sumZ (map (fun t => if (k =? t)%nat then 1 else 0) l) = 1.
Proof.
  induction 1 as [|t l Hnot Hnd IH]; intros Hin; [contradiction|].
  simpl. destruct (k =? t)%nat eqn:E.
  - apply Nat.eqb_eq in E. subst t.
    rewrite (sumZ_map_ext_in _ (fun _ => 0)); [rewrite sumZ_map_const0; lia|].
    intros u Hu. destruct (k =? u)%nat eqn:E'; [|reflexivity].
    apply Nat.eqb_eq in E'. subst u. contradiction.
  - apply Nat.eqb_neq in E. destruct Hin as [->|Hin]; [congruence|].
    rewrite IH by exact Hin. lia.
Qed.

(* ------------------------------------------------------------------ *)
(** ** The assignment read off a feasible solution *)

Lemma nth_map_seq (F : nat -> nat) n a d :
  (a < n)%nat -> nth a (map F (seq 0 n)) d = F a.
Proof.
  intros H. rewrite (nth_indep _ d (F 0%nat)) by (rewrite length_map, length_seq; lia).
  rewrite map_nth, seq_nth by lia. reflexivity.
Qed.

Lemma sum_range_ext n f g :
  (forall a, (a < n)%nat -> f a = g a) -> sum_range n f = sum_range n g.
Proof.
  intros H. unfold sum_range. apply sumZ_map_ext_in.
  intros a Ha. apply in_seq in Ha. apply H. lia.
Qed.

Section Solution.

Variables n m : nat.
Variable x : nat -> nat -> Z.
Hypothesis Hx : feasible n m x.

Lemma solution_row a :
  (a < n)%nat ->
  exists t,
    (t < m)%nat /\ x a t = 1 /\ assigned_target x m a = Some t /\
    forall g, sum_range m (fun t' => x a t' * g t') = g t.
Proof.
  intros Ha. destruct Hx as (Hbin & Hrow & _).
  destruct (one_hot (fun t => x a t) (seq 0 m)) as (t & Hin & H1 & _ & Hfind & Hw).
  - intros t Ht. apply in_seq in Ht. apply Hbin; lia.
  - apply Hrow, Ha.
  - apply in_seq in Hin. exists t. repeat split; auto. lia.
Qed.

Lemma solution_column t a b :
  (t < m)%nat -> (a < n)%nat -> (b < n)%nat -> x a t = 1 -> x b t = 1 -> a = b.
Proof.
  intros Ht Ha Hb H1 H2. destruct Hx as (Hbin & _ & Hcol).
  destruct (one_hot (fun a => x a t) (seq 0 n)) as (a0 & _ & _ & Huniq & _).
  - intros u Hu. apply in_seq in Hu. apply Hbin; lia.
  - apply Hcol, Ht.
  - rewrite (Huniq a), (Huniq b); auto; apply in_seq; lia.
Qed.

Lemma assignment_of_nth a :
  (a < n)%nat ->
  assigned_target x m a = Some (nth a (assignment_of x n m) 0%nat).
Proof.
  intros Ha. unfold assignment_of. rewrite nth_map_seq by exact Ha.
  destruct (solution_row a Ha) as (t & _ & _ & -> & _). reflexivity.
Qed.

Lemma assignment_of_length : length (assignment_of x n m) = n.
Proof. unfold assignment_of. rewrite length_map, length_seq. reflexivity. Qed.

Lemma objective_assignment c :
  objective n m c x = total_cost c (assignment_of x n m).
Proof.
  unfold objective, total_cost, sum_range at 1 2.
  rewrite sumZ_swap. rewrite assignment_of_length.
  apply sum_range_ext. intros a Ha.
  destruct (solution_row a Ha) as (t & _ & _ & Hfind & Hw).
  rewrite assignment_of_nth in Hfind by exact Ha. inversion Hfind as [Ht].
  rewrite Ht. apply (Hw (fun t' => c a t')).
Qed.

Lemma read_assignment_spec (possible_targets : list Request.t) :
  m = length possible_targets ->
  Forall2 (fun target t => nth_error possible_targets t = Some target)
          (read_assignment x n possible_targets) (assignment_of x n m).
Proof.
  intros Hm. unfold read_assignment, assignment_of. rewrite <- Hm.
  assert (Hall : forall l, (forall a, In a l -> (a < n)%nat) ->
            Forall2 (fun target t => nth_error possible_targets t = Some target)
              (flat_map (fun agent_id =>
                           match assigned_target x m agent_id with
                           | Some target_id =>
                               match nth_error possible_targets target_id with
                               | Some target => [target]
                               | None => []
                               end
                           | None => []
                           end) l)
              (map (fun a => match assigned_target x m a with
                             | Some t => t
                             | None => 0%nat
                             end) l)).
  { induction l as [|a l IH]; intros Hl; simpl; [constructor|].
    destruct (solution_row a (Hl a (or_introl eq_refl))) as (t & Ht & _ & -> & _).
    destruct (nth_error possible_targets t) as [target|] eqn:E.
    - simpl. constructor; [exact E|]. apply IH. intros; apply Hl; right; assumption.
    - apply nth_error_None in E. lia. }
  apply Hall. intros a Ha. apply in_seq in Ha. lia.
Qed.

End Solution.

Lemma assignment_permutation n x :
  feasible n n x -> Permutation (assignment_of x n n) (seq 0 n).
Proof.
  intros Hx. apply NoDup_Permutation_bis.
  - unfold assignment_of. apply NoDup_map_NoDup_ForallPairs; [|apply seq_NoDup].
    intros a b Ha Hb Heq. apply in_seq in Ha. apply in_seq in Hb.
    destruct (solution_row n n x Hx a) as (t & Ht & H1 & Hf & _); [lia|].
    destruct (solution_row n n x Hx b) as (u & Hu & H2 & Hg & _); [lia|].
    rewrite Hf, Hg in Heq. subst u.
    apply (solution_column n n x Hx t); auto; lia.
  - rewrite length_seq, assignment_of_length. lia.
  - intros t Ht. unfold assignment_of in Ht. apply in_map_iff in Ht.
    destruct Ht as (a & <- & Ha). apply in_seq in Ha.
    destruct (solution_row n n x Hx a) as (t & Ht & _ & -> & _); [lia|].
    apply in_seq. lia.
Qed.

(* ------------------------------------------------------------------ *)
(** ** Every bijection is a feasible solution *)

Section Bijection.

Variable n : nat.
Variable pi : list nat.
Hypothesis Hpi : Permutation pi (seq 0 n).

Lemma bijection_length : length pi = n.
Proof. rewrite (Permutation_length Hpi). apply length_seq. Qed.

Lemma bijection_range a : (a < n)%nat -> (nth a pi 0 < n)%nat.
Proof.
  intros Ha.
  assert (In (nth a pi 0%nat) (seq 0 n)).
  { apply (Permutation_in _ Hpi). apply nth_In. rewrite bijection_length. exact Ha. }
  apply in_seq in H. lia.
Qed.

Lemma matrix_feasible : feasible n n (matrix_of pi).
Proof.
  repeat split.
  - intros a t _ _. unfold matrix_of. destruct (_ =? _)%nat; auto.
  - intros a Ha. unfold sum_range, matrix_of.
    apply indicator_sum; [apply seq_NoDup|].
    apply in_seq. pose proof (bijection_range a Ha). lia.
  - intros t Ht. unfold sum_range, matrix_of.
    rewrite <- (map_map (fun a => nth a pi 0%nat)
                        (fun k => if (k =? t)%nat then 1 else 0)).
    rewrite <- bijection_length at 1. rewrite map_nth_seq.
    rewrite (sumZ_Permutation _ _ (Permutation_map _ Hpi)).
    rewrite (sumZ_map_ext_in _ (fun k => if (t =? k)%nat then 1 else 0)).
    + apply indicator_sum; [apply seq_NoDup|]. apply in_seq. lia.
    + intros k _. rewrite Nat.eqb_sym. reflexivity.
Qed.

Lemma matrix_objective c : objective n n c (matrix_of pi) = total_cost c pi.
Proof.
  unfold objective, total_cost, sum_range at 1 2.
  rewrite sumZ_swap. rewrite bijection_length.
  apply sum_range_ext. intros a Ha.
  destruct (solution_row n n (matrix_of pi) matrix_feasible a Ha) as (t & _ & H1 & _ & Hw).
  unfold matrix_of in H1. destruct (_ =? t)%nat eqn:E; [|discriminate].
  apply Nat.eqb_eq in E. rewrite E. apply (Hw (fun t' => c a t')).
Qed.

End Bijection.

Lemma choice_total {A} r (l : list A) : l <> [] -> exists x, choice r l = Ok x.
Proof.
  destruct l as [|a l]; [congruence|]. intros _. unfold choice.
  destruct (nth_error (a :: l) _) eqn:E; [eauto|].
  apply nth_error_None in E.
  pose proof (Nat.mod_upper_bound r (length (a :: l))) as Hb.
  simpl in *. lia.
Qed.

Lemma sample_targets_total history draws :
  history <> [] ->
  forall n i, exists sampled, sample_targets history draws i n = Ok sampled.
Proof.
  intros Hne. induction n as [|n IH]; intros i; simpl; [eauto|].
  destruct (choice_total (draws i) history Hne) as (target & ->).
  destruct (IH (S i)) as (rest & ->). simpl. eauto.
Qed.

(** The cost that is posted to the solver, summed along an assignment,
    is the travel time from every vehicle to the pickup of its target. *)
Lemma sum_range_combine {X} (ags : list X) :
  forall (sg : list nat) (h : X -> nat -> Z) (k : nat -> nat -> Z),
    length sg = length ags ->
    (forall a x, nth_error ags a = Some x -> forall t, k a t = h x t) ->
    sum_range (length sg) (fun a => k a (nth a sg 0%nat))
    = sumZ (map (fun handed => h (fst handed) (snd handed)) (combine ags sg)).
Proof.
  unfold sum_range.
  induction ags as [|x ags IH]; intros [|t sg] h k Hl Hk; simpl in Hl;
    try discriminate; [reflexivity|].
  cbn [length seq map combine sumZ fold_right fst snd nth].
  rewrite (Hk 0%nat x eq_refl t). f_equal.
  rewrite <- seq_shift, map_map.
  apply (IH sg h (fun a => k (S a))); [lia|].
  intros a y Hy. apply (Hk (S a) y Hy).
Qed.

Lemma travel_time_total_cost self agents sampled :
  forall targets sigma,
    length sigma = length agents ->
    Forall2 (fun target t => nth_error sampled t = Some target) targets sigma ->
    travel_time_to_targets self agents targets
    = total_cost (assignment_cost self agents sampled) sigma.
Proof.
  intros targets sigma Hl Hf. unfold total_cost.
  rewrite (sum_range_combine agents sigma
             (fun agent t =>
                match nth_error sampled t with
                | Some target =>
                    get_travel_time self
                      (Position.next_location (LearningAgent.position agent))
                      (Request.pickup target)
                | None => 0
                end)
             (assignment_cost self agents sampled) Hl).
  - unfold travel_time_to_targets. clear Hl. revert agents.
    induction Hf as [|target t targets sigma Ht _ IH]; intros [|agent agents];
      try reflexivity.
    cbn [combine map sumZ fold_right fst snd]. rewrite Ht. f_equal. apply IH.
  - intros a agent Ha t. unfold assignment_cost. rewrite Ha. reflexivity.
Qed.

(** C5.  With vehicles to rebalance, a history that is not empty, and a
    solver that answers the posted model with an optimal solution,
    [_get_rebalance_targets] samples one target per vehicle from the
    history (with replacement) and returns one target per vehicle:
    vehicle [a] gets the sampled target of index [nth a sigma], where
    [sigma] is a bijection between the vehicles and the indices of the
    sampled targets, and the total travel time from every vehicle's
    next location to the pickup of its target is at most that of any
    other bijection [pi] between the vehicles and the sampled targets. *)
Theorem rebalance_targets_optimal draws solve self agents :
  agents <> [] ->
  NYEnvironment.recent_request_history self <> [] ->
  (forall sampled,
     sample_targets (NYEnvironment.recent_request_history self) draws 0
       (length agents) = Ok sampled ->
     solves solve (length agents) (length sampled)
       (assignment_cost self agents sampled)) ->
  exists sampled assigned sigma,
    sample_targets (NYEnvironment.recent_request_history self) draws 0
      (length agents) = Ok sampled /\
    length sampled = length agents /\
    Forall (fun target => In target (NYEnvironment.recent_request_history self))
           sampled /\
    _get_rebalance_targets draws solve self agents = Ok assigned /\
    length assigned = length agents /\
    Forall2 (fun target t => nth_error sampled t = Some target) assigned sigma /\
    Permutation sigma (seq 0 (length agents)) /\
    forall pi others,
      Permutation pi (seq 0 (length agents)) ->
      Forall2 (fun target t => nth_error sampled t = Some target) others pi ->
      travel_time_to_targets self agents assigned
      <= travel_time_to_targets self agents others.
Proof.
  intros Hagents Hne Hsolve.
  destruct (sample_targets_total _ draws Hne (length agents) 0%nat) as (sampled & Hs).
  destruct (sample_targets_in draws _ _ _ _ Hs) as (Hlen & Hin).
  specialize (Hsolve sampled Hs). unfold solves in Hsolve. rewrite Hlen in Hsolve.
  set (n := length agents) in *.
  set (c := assignment_cost self agents sampled) in *.
  destruct (solve n n c) as [x|] eqn:Ex.
  2:{ exfalso. apply (Hsolve (matrix_of (seq 0 n))).
      apply matrix_feasible. apply Permutation_refl. }
  destruct Hsolve as (Hfeas & Hopt).
  pose proof (assignment_permutation n x Hfeas) as Hperm.
  pose proof (read_assignment_spec n n x Hfeas sampled (eq_sym Hlen)) as Hread.
  exists sampled, (read_assignment x n sampled), (assignment_of x n n).
  split; [exact Hs|]. split; [exact Hlen|]. split; [exact Hin|]. split.
  - unfold _get_rebalance_targets. fold n. rewrite Hs. simpl.
    destruct agents as [|agent rest]; [congruence|].
    rewrite Hlen. fold c. rewrite Ex. reflexivity.
  - split.
    { rewrite (Forall2_length Hread). apply (assignment_of_length n n x). }
    split; [exact Hread|]. split; [exact Hperm|].
    intros pi others Hpi Hothers.
    rewrite (travel_time_total_cost self agents sampled _ _
               (assignment_of_length n n x) Hread).
    rewrite (travel_time_total_cost self agents sampled _ _
               (bijection_length n pi Hpi) Hothers).
    fold c.
    rewrite <- (objective_assignment n n x Hfeas c), <- (matrix_objective n pi Hpi c).
    apply Hopt. apply matrix_feasible, Hpi.
Qed.

Lemma rebalance_targets_optimal_witness :
  exists assigned,
    _get_rebalance_targets (fun i => i) (fun _ _ _ => Some Sample.diagonal)
      (Sample.envt 1 [Sample.trip 1 3 100 200; Sample.trip 5 3 100 200])
      [Sample.idle 0; Sample.idle 6] = Ok assigned /\
    length assigned = 2%nat /\
    travel_time_to_targets
      (Sample.envt 1 [Sample.trip 1 3 100 200; Sample.trip 5 3 100 200])
      [Sample.idle 0; Sample.idle 6] assigned
    <= travel_time_to_targets
         (Sample.envt 1 [Sample.trip 1 3 100 200; Sample.trip 5 3 100 200])
         [Sample.idle 0; Sample.idle 6]
         [Sample.trip 5 3 100 200; Sample.trip 1 3 100 200].
Proof.
  destruct (rebalance_targets_optimal (fun i => i) (fun _ _ _ => Some Sample.diagonal)
              (Sample.envt 1 [Sample.trip 1 3 100 200; Sample.trip 5 3 100 200])
              [Sample.idle 0; Sample.idle 6])
    as (sampled & assigned & sigma & Hsampled & _ & _ & Hg & Hl & _ & _ & Hbest).
  - discriminate.
  - discriminate.
  - intros sampled Hs. vm_compute in Hs. inversion Hs; subst sampled; clear Hs.
    unfold solves. split.
    + repeat split.
      * intros a t Ha Ht. simpl in Ha, Ht.
        destruct a as [|[|a]], t as [|[|t]]; try lia; auto.
      * intros a Ha. simpl in Ha. destruct a as [|[|a]]; try lia; reflexivity.
      * intros t Ht. simpl in Ht. destruct t as [|[|t]]; try lia; reflexivity.
    + intros y (Hbin & Hrow & Hcol).
      pose proof (Hbin 0%nat 0%nat ltac:(simpl; lia) ltac:(simpl; lia)) as B00.
      pose proof (Hbin 0%nat 1%nat ltac:(simpl; lia) ltac:(simpl; lia)) as B01.
      pose proof (Hbin 1%nat 0%nat ltac:(simpl; lia) ltac:(simpl; lia)) as B10.
      pose proof (Hbin 1%nat 1%nat ltac:(simpl; lia) ltac:(simpl; lia)) as B11.
      pose proof (Hrow 0%nat ltac:(simpl; lia)) as R0.
      pose proof (Hrow 1%nat ltac:(simpl; lia)) as R1.
      pose proof (Hcol 0%nat ltac:(simpl; lia)) as C0.
      pose proof (Hcol 1%nat ltac:(simpl; lia)) as C1.
      unfold objective, sum_range in *. simpl in R0, R1, C0, C1.
      cbn. lia.
  - exists assigned. split; [exact Hg|]. split; [exact Hl|].
    vm_compute in Hsampled. inversion Hsampled; subst sampled; clear Hsampled.
    apply (Hbest [1; 0]%nat).
    + apply perm_swap.
    + repeat constructor.
Defined.

(* ------------------------------------------------------------------ *)
(** ** The reader's [current_hour] *)

Section ReaderFacts.

Variable Request_new : Location -> Location -> Z -> Z -> Request.t.
Variable self : NYEnvironment.t.
Variables start_hour end_hour : Z.

Local Abbreviation step := (read_line Request_new self start_hour end_hour).
Local Abbreviation steps := (read_lines Request_new self start_hour end_hour).

Lemma read_line_seen st line st' :
  step st line = inr st' ->
  seen st' = Nat.min 2 (seen st + (if header_line line then 1 else 0)).
Proof.
  unfold read_line, header_line, seen.
  destruct (new_epoch_re (strip (chars line))) as [epoch|].
  - destruct (is_first_epoch st) eqn:E; simpl; intros H; inversion H; subst; simpl.
    + rewrite ?E. destruct (current_hour st); reflexivity.
    + rewrite ?E. destruct (current_hour st); reflexivity.
  - destruct (request_re (strip (chars line))) as [[[source destination] num]|];
      intros H; inversion H; subst; simpl.
    destruct (current_hour st), (is_first_epoch st); reflexivity.
Qed.

Lemma read_line_raises st line e :
  step st line = inl e ->
  e = AssertionError /\ header_line line = false /\ request_line line = false.
Proof.
  unfold read_line, header_line, request_line.
  destruct (new_epoch_re (strip (chars line))) as [epoch|].
  - destruct (negb (is_first_epoch st)); discriminate.
  - destruct (request_re (strip (chars line))) as [[[source destination] num]|];
      intros H; inversion H; auto.
Qed.

Lemma read_lines_seen lines :
  forall st st',
    steps st lines = (st', None) ->
    seen st' = Nat.min 2 (seen st + headers lines).
Proof.
  induction lines as [|line rest IH]; intros st st' H; simpl in H.
  - inversion H; subst. unfold headers. cbn [filter length]. unfold seen.
    destruct (current_hour st'), (is_first_epoch st'); reflexivity.
  - destruct (step st line) as [e|st1] eqn:E; [discriminate|].
    apply IH in H. apply read_line_seen in E.
    rewrite H, E. unfold headers. cbn [filter].
    destruct (header_line line); cbn [length]; lia.
Qed.

Lemma read_lines_raises lines :
  forall st st' e, steps st lines = (st', Some e) -> e = AssertionError.
Proof.
  induction lines as [|line rest IH]; intros st st' e H; simpl in H; [discriminate|].
  destruct (step st line) as [e1|st1] eqn:E.
  - inversion H; subst. apply (proj1 (read_line_raises _ _ _ E)).
  - apply (IH _ _ _ H).
Qed.

Lemma read_lines_well_formed lines :
  well_formed lines -> forall st, exists st', steps st lines = (st', None).
Proof.
  induction 1 as [|line rest Hl _ IH]; intros st; simpl; [eauto|].
  destruct (step st line) as [e|st1] eqn:E.
  - apply read_line_raises in E. destruct E as (_ & Hh & Hr).
    destruct Hl; congruence.
  - apply IH.
Qed.

Lemma read_lines_passed lines :
  forall st st', steps st lines = (st', None) -> well_formed lines.
Proof.
  induction lines as [|line rest IH]; intros st st' H; [constructor|].
  simpl in H. destruct (step st line) as [e|st1] eqn:E; [discriminate|].
  constructor; [|apply (IH _ _ H)].
  unfold read_line, header_line, request_line in *.
  destruct (new_epoch_re (strip (chars line))); [auto|].
  destruct (request_re (strip (chars line))); [auto | discriminate].
Qed.

End ReaderFacts.

(** C9.  There are data files whose body has no epoch header on which
    the generator ends with [UnboundLocalError]: the final check reads
    [current_hour], which no line has assigned.  On every body with at
    least two epoch headers the generator does not end with that error,
    whatever the hour window is. *)
Theorem current_hour_unbound_without_headers Request_new self start_hour end_hour :
  let run := get_request_batch Request_new self start_hour end_hour in
  (exists lines, headers lines = 0%nat /\ snd (run lines) = Raised UnboundLocalError) /\
  (forall lines,
     (2 <= headers lines)%nat -> snd (run lines) <> Raised UnboundLocalError).
Proof.
  intros run. split.
  - exists []. split; reflexivity.
  - intros lines H2. unfold run, get_request_batch.
    set (st0 := mkreader (NYEnvironment.current_time self) [] true None []).
    destruct (read_lines Request_new self start_hour end_hour st0 lines)
      as [st [e|]] eqn:E.
    + pose proof (read_lines_raises _ _ _ _ _ _ _ _ E) as ->. simpl. discriminate.
    + pose proof (read_lines_seen _ _ _ _ _ _ _ E) as Hs.
      unfold seen, st0 in Hs. cbn [current_hour is_first_epoch Nat.add] in Hs.
      destruct (current_hour st) as [hour|]; simpl; [discriminate|].
      exfalso. rewrite Nat.min_l in Hs by exact H2.
      destruct (is_first_epoch st); discriminate.
Qed.

Lemma current_hour_unbound_without_headers_witness :
  (exists lines,
     headers lines = 0%nat /\
     snd (get_request_batch (fun a b t d => Sample.trip a b t d) (Sample.envt 1 []) 0 24
            lines)
     = Raised UnboundLocalError) /\
  snd (get_request_batch (fun a b t d => Sample.trip a b t d) (Sample.envt 1 []) 0 24
         ["Flows:0-0"%string; "17,42,2.0"%string; "Flows:1-1"%string])
    <> Raised UnboundLocalError.
Proof.
  pose proof (current_hour_unbound_without_headers
                (fun a b t d => Sample.trip a b t d) (Sample.envt 1 []) 0 24)
    as (Hnone & Htwo).
  split.
  - exact Hnone.
  - apply Htwo. vm_compute. lia.
Defined.

(* ------------------------------------------------------------------ *)
(** ** More on the validator *)

Lemma get_info_same_requests p q node node' :
  Path.requests q = Path.requests p ->
  PathNode.is_dropoff node' = PathNode.is_dropoff node ->
  PathNode.request_index node' = PathNode.request_index node ->
  Path.get_info q node' = Path.get_info p node.
Proof. unfold Path.get_info. intros -> -> ->. reflexivity. Qed.

Lemma fresh_time_same node t :
  PathNode.expected_visit_time node = t -> fresh_time node t = node.
Proof. unfold fresh_time. intros ->. rewrite Z.eqb_refl. reflexivity. Qed.

Lemma fresh_capacity_same node c :
  PathNode.current_capacity node = c -> fresh_capacity node c = node.
Proof. unfold fresh_capacity. intros ->. rewrite Z.eqb_refl. reflexivity. Qed.

(** The loop run again on the nodes it has left: nothing is printed and
    nothing changes. *)
Lemma validate_nodes_again self p q :
  Path.requests q = Path.requests p ->
  forall nodes i j w w' nodes' log,
    validate_nodes self p i w nodes = Ok (Completed w', nodes', log) ->
    validate_nodes self q j w nodes' = Ok (Completed w', nodes', []).
Proof.
  intros Hq. induction nodes as [|node rest IH]; intros i j w w' nodes' log H.
  - simpl in H. inversion H; subst. reflexivity.
  - rewrite validate_nodes_cons in H.
    destruct (Path.get_info p node) as [[l d]| |] eqn:Ei; try discriminate.
    cbv zeta in H.
    destruct (d <? _) eqn:Ed; try discriminate.
    destruct (_ <? w_capacity w) eqn:Ec; try discriminate.
    destruct (validate_nodes self p (S i) _ rest) as [[[v rest'] lg]| |] eqn:Er;
      try discriminate.
    inversion H; subst v nodes' log; clear H.
    set (t := w_time w + get_travel_time self (w_location w) l) in *.
    set (c := w_capacity w + delta node) in *.
    pose proof (fresh_time_spec node t) as (Ft & Fc & Fd & Fr).
    pose proof (fresh_capacity_spec (fresh_time node t) c) as (Gc & Gt & Gd & Gr).
    set (node2 := fresh_capacity (fresh_time node t) c) in *.
    assert (Hd2 : PathNode.is_dropoff node2 = PathNode.is_dropoff node) by congruence.
    assert (Hr2 : PathNode.request_index node2 = PathNode.request_index node) by congruence.
    rewrite validate_nodes_cons.
    rewrite (get_info_same_requests p q node node2 Hq Hd2 Hr2), Ei. cbv zeta.
    fold t. rewrite Ed, Ec.
    assert (Ht2 : PathNode.expected_visit_time node2 = t) by congruence.
    rewrite (fresh_time_same node2 t Ht2).
    assert (Hdelta : delta node2 = delta node) by (unfold delta; rewrite Hd2; reflexivity).
    rewrite Hdelta. fold c.
    rewrite (fresh_capacity_same node2 c Gc).
    rewrite Ht2, Gc, !Z.eqb_refl, Hd2. simpl negb. cbv iota.
    rewrite (IH _ (S j) _ _ _ _ Er). reflexivity.
Qed.

(** A loop that runs through never lowers the accumulated delay. *)
Lemma validate_nodes_delay self p :
  forall nodes i w w' nodes' log,
    validate_nodes self p i w nodes = Ok (Completed w', nodes', log) ->
    w_delay w <= w_delay w'.
Proof.
  induction nodes as [|node rest IH]; intros i w w' nodes' log H.
  - simpl in H. inversion H; subst. lia.
  - rewrite validate_nodes_cons in H.
    destruct (Path.get_info p node) as [[l d]| |] eqn:Ei; try discriminate.
    cbv zeta in H.
    destruct (d <? _) eqn:Ed; try discriminate.
    destruct (_ <? w_capacity w) eqn:Ec; try discriminate.
    destruct (validate_nodes self p (S i) _ rest) as [[[v rest'] lg]| |] eqn:Er;
      try discriminate.
    inversion H; subst v nodes' log; clear H.
    apply IH in Er. simpl in Er. apply Z.ltb_ge in Ed.
    destruct (PathNode.is_dropoff node); lia.
Qed.

Lemma map_eq_nth {A B} (f : A -> B) (l l' : list A) :
  length l' = length l ->
  (forall k a a', nth_error l k = Some a -> nth_error l' k = Some a' -> f a' = f a) ->
  map f l' = map f l.
Proof.
  revert l'. induction l as [|a l IH]; intros [|a' l'] Hlen H; simpl in *;
    try discriminate; [reflexivity|].
  f_equal.
  - apply (H 0%nat); reflexivity.
  - apply IH; [lia|]. intros k b b' Hb Hb'. apply (H (S k)); assumption.
Qed.

(** X1.  A validation that returns [True] writes the nodes'
    [expected_visit_time] and [current_capacity] and the path's
    [total_delay], and nothing else: the vehicle's identity and position,
    the path's request entries and declared occupancy, and the kind and
    request of every node are as before. *)
Theorem accepted_validation_frame is_complete self agent agent' log :
  has_valid_path is_complete self agent = Ok (true, agent', log) ->
  LearningAgent.id agent' = LearningAgent.id agent /\
  LearningAgent.position agent' = LearningAgent.position agent /\
  Path.requests (LearningAgent.path agent') = Path.requests (LearningAgent.path agent) /\
  Path.current_capacity (LearningAgent.path agent')
    = Path.current_capacity (LearningAgent.path agent) /\
  map PathNode.is_dropoff (Path.request_order (LearningAgent.path agent'))
    = map PathNode.is_dropoff (Path.request_order (LearningAgent.path agent)) /\
  map PathNode.request_index (Path.request_order (LearningAgent.path agent'))
    = map PathNode.request_index (Path.request_order (LearningAgent.path agent)).
Proof.
  intros H. apply has_valid_path_inv in H.
  destruct H as [(_ & Hb & _)|(_ & v & nodes' & Hv & Hm)]; [discriminate|].
  destruct v as [w|]; [|destruct Hm; discriminate].
  destruct Hm as (_ & ->). simpl.
  apply validate_nodes_completed in Hv. destruct Hv as (Hlen & _ & Hall).
  do 4 (split; [reflexivity|]).
  split; apply map_eq_nth; try exact Hlen; intros k a a' Ha Ha';
    (assert (Hk : (k < length (Path.request_order (LearningAgent.path agent)))%nat)
       by (apply nth_error_Some; congruence));
    destruct (Hall k Hk) as (_ & _ & nd & nd' & Hn & Hn' & _ & _ & Hd & Hr);
    congruence.
Qed.

Lemma accepted_validation_frame_witness :
  exists agent' log,
    has_valid_path Sample.visits_all (Sample.envt 1 []) Sample.one_trip
      = Ok (true, agent', log) /\
    LearningAgent.position agent' = LearningAgent.position Sample.one_trip.
Proof.
  eexists. eexists. split; [reflexivity|].
  apply (accepted_validation_frame Sample.visits_all (Sample.envt 1 [])
           Sample.one_trip _ _ eq_refl).
Defined.

(** X2.  Validation is idempotent: when [has_valid_path] has returned
    [True] and the path it leaves is still complete, validating the
    vehicle again returns [True], changes nothing and prints nothing. *)
Theorem validation_idempotent is_complete self agent agent' log :
  has_valid_path is_complete self agent = Ok (true, agent', log) ->
  is_complete (LearningAgent.path agent') = true ->
  has_valid_path is_complete self agent' = Ok (true, agent', []).
Proof.
  intros H Hc. apply has_valid_path_inv in H.
  destruct H as [(_ & Hb & _)|(_ & v & nodes' & Hv & Hm)]; [discriminate|].
  destruct v as [w|]; [|destruct Hm; discriminate].
  destruct Hm as (_ & ->).
  unfold has_valid_path. rewrite Hc. simpl negb. cbv iota zeta.
  simpl LearningAgent.path. simpl LearningAgent.position.
  simpl Path.request_order. simpl Path.current_capacity.
  set (q := Path.set_total_delay
              (Path.set_request_order (LearningAgent.path agent) nodes') (w_delay w)).
  fold (start_walk self agent) in Hv |- *.
  rewrite (validate_nodes_again self (LearningAgent.path agent) q eq_refl _ _ 0%nat
             _ _ _ _ Hv).
  simpl. destruct agent as [id pos [reqs order cc td]]. reflexivity.
Qed.

Lemma validation_idempotent_witness :
  exists agent' log,
    has_valid_path Sample.visits_all (Sample.envt 1 []) Sample.one_trip
      = Ok (true, agent', log) /\
    has_valid_path Sample.visits_all (Sample.envt 1 []) agent' = Ok (true, agent', []).
Proof.
  eexists. eexists. split; [reflexivity|].
  apply (validation_idempotent Sample.visits_all (Sample.envt 1 [])
           Sample.one_trip _ _ eq_refl).
  reflexivity.
Defined.

(** X3.  After a validation that returns [True], the path's
    [total_delay] is not negative, every node's [expected_visit_time] is
    at most the node's deadline, and the [current_capacity] of every node
    but the last is at most [MAX_CAPACITY]. *)
Theorem accepted_within_limits is_complete self agent agent' log :
  has_valid_path is_complete self agent = Ok (true, agent', log) ->
  0 <= Path.total_delay (LearningAgent.path agent') /\
  forall k node',
    nth_error (Path.request_order (LearningAgent.path agent')) k = Some node' ->
    PathNode.expected_visit_time node' <= deadline agent k /\
    ((S k < path_length agent)%nat ->
     PathNode.current_capacity node' <= NYEnvironment.MAX_CAPACITY self).
Proof.
  intros H. apply has_valid_path_inv in H.
  destruct H as [(_ & Hb & _)|(_ & v & nodes' & Hv & Hm)]; [discriminate|].
  destruct v as [w|]; [|destruct Hm; discriminate].
  destruct Hm as (_ & ->). simpl. split.
  - apply validate_nodes_delay in Hv. exact Hv.
  - apply validate_nodes_completed in Hv. destruct Hv as (Hlen & _ & Hall).
    intros k node' Hn.
    assert (Hk : (k < length (Path.request_order (LearningAgent.path agent)))%nat).
    { rewrite <- Hlen. apply nth_error_Some. congruence. }
    destruct (Hall k Hk) as (Ha & _ & nd & nd' & _ & Hn' & Ht & Hc & _).
    rewrite Hn in Hn'. inversion Hn'; subst nd'. split.
    + rewrite Ht. exact Ha.
    + intros Hk'. destruct (Hall (S k) Hk') as (_ & Ho & _).
      rewrite Hc. exact Ho.
Qed.

Lemma accepted_within_limits_witness :
  exists agent' log,
    has_valid_path Sample.visits_all (Sample.envt 1 []) Sample.one_trip
      = Ok (true, agent', log) /\
    0 <= Path.total_delay (LearningAgent.path agent').
Proof.
  eexists. eexists. split; [reflexivity|].
  apply (accepted_within_limits Sample.visits_all (Sample.envt 1 [])
           Sample.one_trip _ _ eq_refl).
Defined.

(** The loop run with a larger capacity: a run that went through goes
    through in the same way. *)
Lemma validate_nodes_roomier self self2 p :
  (forall a b, get_travel_time self2 a b = get_travel_time self a b) ->
  NYEnvironment.MAX_CAPACITY self <= NYEnvironment.MAX_CAPACITY self2 ->
  forall nodes i w w' nodes' log,
    validate_nodes self p i w nodes = Ok (Completed w', nodes', log) ->
    validate_nodes self2 p i w nodes = Ok (Completed w', nodes', log).
Proof.
  intros Htt Hmax. induction nodes as [|node rest IH]; intros i w w' nodes' log H.
  - simpl in *. exact H.
  - rewrite validate_nodes_cons in H. rewrite validate_nodes_cons.
    destruct (Path.get_info p node) as [[l d]| |] eqn:Ei; try discriminate.
    cbv zeta in *. rewrite Htt.
    destruct (d <? _) eqn:Ed; try discriminate.
    destruct (_ <? w_capacity w) eqn:Ec; try discriminate.
    apply Z.ltb_ge in Ec.
    assert (Ec2 : (NYEnvironment.MAX_CAPACITY self2 <? w_capacity w) = false)
      by (apply Z.ltb_ge; lia).
    rewrite Ec2.
    destruct (validate_nodes self p (S i) _ rest) as [[[v rest'] lg]| |] eqn:Er;
      try discriminate.
    inversion H; subst v nodes' log; clear H.
    rewrite (IH _ _ _ _ _ Er). reflexivity.
Qed.

(** The loop started [d] time units earlier: a run that went through
    goes through, and it adds no less to the delay. *)
Lemma validate_nodes_earlier self self2 p d :
  (forall a b, get_travel_time self2 a b = get_travel_time self a b) ->
  NYEnvironment.MAX_CAPACITY self2 = NYEnvironment.MAX_CAPACITY self ->
  0 <= d ->
  forall nodes i w w' nodes' log w2,
    validate_nodes self p i w nodes = Ok (Completed w', nodes', log) ->
    w_time w2 = w_time w - d ->
    w_location w2 = w_location w ->
    w_capacity w2 = w_capacity w ->
    exists w2' nodes2 log2,
      validate_nodes self2 p i w2 nodes = Ok (Completed w2', nodes2, log2) /\
      w_delay w' - w_delay w <= w_delay w2' - w_delay w2.
Proof.
  intros Htt Hmax Hd. induction nodes as [|node rest IH];
    intros i w w' nodes' log w2 H Ht Hl Hc.
  - simpl in H. inversion H; subst. simpl. eexists. eexists. eexists.
    split; [reflexivity|]. lia.
  - rewrite validate_nodes_cons in H. rewrite validate_nodes_cons.
    destruct (Path.get_info p node) as [[l dl]| |] eqn:Ei; try discriminate.
    cbv zeta in *. rewrite Htt, Hmax, Ht, Hl, Hc.
    destruct (dl <? _) eqn:Ed; try discriminate.
    destruct (_ <? w_capacity w) eqn:Ec; try discriminate.
    apply Z.ltb_ge in Ed.
    set (t := w_time w + get_travel_time self (w_location w) l) in *.
    assert (Ed2 : (dl <? w_time w - d + get_travel_time self (w_location w) l) = false)
      by (apply Z.ltb_ge; lia).
    rewrite Ed2.
    destruct (validate_nodes self p (S i) _ rest) as [[[v rest'] lg]| |] eqn:Er;
      try discriminate.
    inversion H; subst v nodes' log; clear H.
    match goal with |- context [validate_nodes self2 p (S i) ?w2n rest] =>
      destruct (IH _ _ _ _ _ w2n Er) as (w2' & nodes2 & log2 & E2 & Hdelay);
        [simpl; lia | reflexivity | reflexivity |]; rewrite E2
    end.
    eexists. eexists. eexists. split; [reflexivity|].
    simpl in Hdelay.
    destruct (PathNode.is_dropoff node); lia.
Qed.

(** X5.  A plan that is valid stays valid in a roomier vehicle: when
    [has_valid_path] returns [True] and [MAX_CAPACITY] is replaced by a
    larger one, it returns [True] with the same vehicle and the same
    printed issues. *)
Theorem validation_monotone_in_capacity is_complete self agent agent' log max_capacity :
  has_valid_path is_complete self agent = Ok (true, agent', log) ->
  NYEnvironment.MAX_CAPACITY self <= max_capacity ->
  has_valid_path is_complete (with_capacity self max_capacity) agent
  = Ok (true, agent', log).
Proof.
  intros H Hle. apply has_valid_path_inv in H.
  destruct H as [(_ & Hb & _)|(Hc & v & nodes' & Hv & Hm)]; [discriminate|].
  destruct v as [w|]; [|destruct Hm; discriminate].
  destruct Hm as (_ & ->).
  unfold has_valid_path. rewrite Hc. simpl negb. cbv iota zeta.
  change (NYEnvironment.current_time (with_capacity self max_capacity))
    with (NYEnvironment.current_time self).
  fold (start_walk self agent).
  rewrite (validate_nodes_roomier self (with_capacity self max_capacity)
             (LearningAgent.path agent) (fun _ _ => eq_refl) Hle _ _ _ _ _ _ Hv).
  reflexivity.
Qed.

Lemma validation_monotone_in_capacity_witness :
  exists agent' log,
    has_valid_path Sample.visits_all (Sample.envt 1 []) Sample.one_trip
      = Ok (true, agent', log) /\
    has_valid_path Sample.visits_all (with_capacity (Sample.envt 1 []) 10) Sample.one_trip
      = Ok (true, agent', log).
Proof.
  eexists. eexists. split; [reflexivity|].
  apply (validation_monotone_in_capacity Sample.visits_all (Sample.envt 1 [])
           Sample.one_trip _ _ 10 eq_refl).
  simpl. lia.
Defined.

(** X6.  A plan that is valid now was valid earlier: when
    [has_valid_path] returns [True] at [current_time], it returns [True]
    at every earlier [current_time], and the [total_delay] it computes
    then is not smaller. *)
Theorem validation_monotone_in_time is_complete self agent agent' log now :
  has_valid_path is_complete self agent = Ok (true, agent', log) ->
  now <= NYEnvironment.current_time self ->
  exists agent2 log2,
    has_valid_path is_complete (at_time self now) agent = Ok (true, agent2, log2) /\
    Path.total_delay (LearningAgent.path agent')
    <= Path.total_delay (LearningAgent.path agent2).
Proof.
  intros H Hle. apply has_valid_path_inv in H.
  destruct H as [(_ & Hb & _)|(Hc & v & nodes' & Hv & Hm)]; [discriminate|].
  destruct v as [w|]; [|destruct Hm; discriminate].
  destruct Hm as (_ & ->).
  unfold has_valid_path. rewrite Hc. simpl negb. cbv iota zeta.
  fold (start_walk (at_time self now) agent).
  destruct (validate_nodes_earlier self (at_time self now) (LearningAgent.path agent)
              (NYEnvironment.current_time self - now) (fun _ _ => eq_refl) eq_refl
              ltac:(lia) _ _ _ _ _ _ (start_walk (at_time self now) agent) Hv)
    as (w2' & nodes2 & log2 & E2 & Hdelay);
    [simpl; lia | reflexivity | reflexivity |].
  rewrite E2. simpl. eexists. eexists. split; [reflexivity|].
  simpl. simpl in Hdelay. lia.
Qed.

Lemma validation_monotone_in_time_witness :
  exists agent2 log2,
    has_valid_path Sample.visits_all (at_time (Sample.envt 1 []) (-7)) Sample.one_trip
      = Ok (true, agent2, log2) /\
    165 <= Path.total_delay (LearningAgent.path agent2).
Proof.
  destruct (validation_monotone_in_time Sample.visits_all (Sample.envt 1 [])
              Sample.one_trip _ _ (-7) eq_refl ltac:(simpl; lia))
    as (agent2 & log2 & H & Hd).
  exists agent2, log2. split; [exact H | exact Hd].
Defined.

(* ------------------------------------------------------------------ *)
(** ** More on the stepper *)

Lemma visit_next_location_pops p p' :
  Path.visit_next_location p = Ok p' ->
  exists node, Path.request_order p = node :: Path.request_order p'.
Proof.
  unfold Path.visit_next_location. destruct (Path.request_order p) as [|node rest];
    intros H; inversion H; subst. simpl. eauto.
Qed.

(** The nodes the stepper visits are a prefix of the visit order. *)
Lemma move_agent_visits self :
  forall fuel agent budget agent' remaining,
    _move_agent self fuel agent budget = Ok (agent', remaining) ->
    exists visited,
      Path.request_order (LearningAgent.path agent)
      = visited ++ Path.request_order (LearningAgent.path agent').
Proof.
  induction fuel as [|fuel IH]; intros agent budget agent' remaining H.
  - simpl in H. destruct (budget <? 0); inversion H; subst. exists []. reflexivity.
  - destruct (Z.lt_ge_cases budget 0) as [Hn|Hb].
    { rewrite move_agent_negative in H by exact Hn. inversion H; subst.
      exists []. reflexivity. }
    rewrite move_agent_step in H by exact Hb. cbv zeta in H.
    destruct (0 <=? budget - _).
    + apply bind_Ok_inv in H. destruct H as (head & _ & H).
      apply bind_Ok_inv in H. destruct H as (path1 & Hp & H).
      assert (Hv : exists visited,
                Path.request_order (LearningAgent.path agent)
                = visited ++ Path.request_order path1).
      { destruct (at_head _ head).
        - destruct (visit_next_location_pops _ _ Hp) as (node & E).
          exists [node]. exact E.
        - inversion Hp; subst. exists []. reflexivity. }
      destruct Hv as (v1 & E1).
      destruct (negb (Path.is_empty path1)).
      * apply bind_Ok_inv in H. destruct H as ([target|] & _ & H); [|discriminate].
        apply IH in H. simpl in H. destruct H as (v2 & E2).
        exists (v1 ++ v2). rewrite E1, E2, app_assoc. reflexivity.
      * inversion H; subst. simpl. exists v1. exact E1.
    + inversion H; subst. simpl. exists []. reflexivity.
Qed.

(** X7.  The stepper moves the vehicle and removes visited nodes from the
    head of the visit order, and nothing else: the nodes left are a
    suffix of the visit order, and the vehicle's identity and the path's
    request entries, declared occupancy and total delay are as before. *)
Theorem move_agent_only_pops self fuel agent budget agent' remaining :
  _move_agent self fuel agent budget = Ok (agent', remaining) ->
  (exists visited,
     Path.request_order (LearningAgent.path agent)
     = visited ++ Path.request_order (LearningAgent.path agent')) /\
  LearningAgent.id agent' = LearningAgent.id agent /\
  Path.requests (LearningAgent.path agent') = Path.requests (LearningAgent.path agent) /\
  Path.current_capacity (LearningAgent.path agent')
    = Path.current_capacity (LearningAgent.path agent) /\
  Path.total_delay (LearningAgent.path agent')
    = Path.total_delay (LearningAgent.path agent).
Proof.
  intros H. split.
  - apply (move_agent_visits self _ _ _ _ _ H).
  - apply (move_agent_frame self _ _ _ _ _ H).
Qed.

Lemma move_agent_only_pops_witness :
  exists agent' visited,
    _move_agent (Sample.envt 1 []) 10 Sample.one_trip 20 = Ok (agent', -5) /\
    Path.request_order (LearningAgent.path Sample.one_trip)
    = visited ++ Path.request_order (LearningAgent.path agent').
Proof.
  destruct (move_agent_only_pops (Sample.envt 1 []) 10 Sample.one_trip 20 _ (-5) eq_refl)
    as ((visited & Hv) & _).
  eexists. exists visited. split; [reflexivity | exact Hv].
Defined.

(** Travel times that are not negative. *)
Lemma move_agent_bounded self :
  (forall a b, 0 <= get_travel_time self a b) ->
  forall fuel agent budget agent' remaining,
    0 <= Position.time_to_next_location (LearningAgent.position agent) ->
    _move_agent self fuel agent budget = Ok (agent', remaining) ->
    remaining <= budget /\
    0 <= Position.time_to_next_location (LearningAgent.position agent').
Proof.
  intros Hnn. induction fuel as [|fuel IH]; intros agent budget agent' remaining Ht H.
  - simpl in H. destruct (budget <? 0); inversion H; subst. split; [lia | exact Ht].
  - destruct (Z.lt_ge_cases budget 0) as [Hn|Hb].
    { rewrite move_agent_negative in H by exact Hn. inversion H; subst.
      split; [lia | exact Ht]. }
    rewrite move_agent_step in H by exact Hb. cbv zeta in H.
    destruct (0 <=? budget - _) eqn:E.
    + apply bind_Ok_inv in H. destruct H as (head & _ & H).
      apply bind_Ok_inv in H. destruct H as (path1 & Hp & H).
      destruct (negb (Path.is_empty path1)).
      * apply bind_Ok_inv in H. destruct H as ([target|] & _ & H); [|discriminate].
        apply IH in H; [|simpl; apply Hnn]. lia.
      * inversion H; subst. simpl. split; [lia | exact Ht].
    + apply Z.leb_gt in E. inversion H; subst. simpl. lia.
Qed.

(** X8.  With travel times that are not negative and a vehicle whose
    [time_to_next_location] is not negative, the stepper never returns
    more time than it was given, and it leaves a
    [time_to_next_location] that is not negative. *)
Theorem move_agent_within_budget self fuel agent budget agent' remaining :
  (forall a b, 0 <= get_travel_time self a b) ->
  0 <= Position.time_to_next_location (LearningAgent.position agent) ->
  _move_agent self fuel agent budget = Ok (agent', remaining) ->
  remaining <= budget /\
  0 <= Position.time_to_next_location (LearningAgent.position agent').
Proof. intros Hnn Ht H. apply (move_agent_bounded self Hnn _ _ _ _ _ Ht H). Qed.

Lemma sample_travel_time_nonneg a b : 0 <= get_travel_time (Sample.envt 1 []) a b.
Proof. unfold get_travel_time. simpl. unfold Sample.line_time. lia. Qed.

Lemma move_agent_within_budget_witness :
  exists agent',
    _move_agent (Sample.envt 1 []) 10 Sample.one_trip 60 = Ok (agent', 25) /\
    25 <= 60 /\
    0 <= Position.time_to_next_location (LearningAgent.position agent').
Proof.
  eexists. split; [reflexivity|].
  apply (move_agent_within_budget (Sample.envt 1 []) 10 Sample.one_trip 60 _ 25
           sample_travel_time_nonneg).
  - simpl. lia.
  - reflexivity.
Defined.

(* ------------------------------------------------------------------ *)
(** ** The validator and the stepper together *)

Lemma get_info_Ok_in_range p node s :
  Path.get_info p node = Ok s ->
  (PathNode.request_index node < length (Path.requests p))%nat.
Proof.
  unfold Path.get_info.
  destruct (nth_error (Path.requests p) (PathNode.request_index node)) eqn:E;
    [|discriminate].
  intros _. apply nth_error_Some. congruence.
Qed.

(** A loop that runs through has looked every node's request up. *)
Lemma validate_nodes_in_range self p :
  forall nodes i w w' nodes' log,
    validate_nodes self p i w nodes = Ok (Completed w', nodes', log) ->
    Forall (fun node => (PathNode.request_index node < length (Path.requests p))%nat)
           nodes'.
Proof.
  induction nodes as [|node rest IH]; intros i w w' nodes' log H.
  - simpl in H. inversion H; subst. constructor.
  - rewrite validate_nodes_cons in H.
    destruct (Path.get_info p node) as [[l d]| |] eqn:Ei; try discriminate.
    cbv zeta in H.
    destruct (d <? _) eqn:Ed; try discriminate.
    destruct (_ <? w_capacity w) eqn:Ec; try discriminate.
    destruct (validate_nodes self p (S i) _ rest) as [[[v rest'] lg]| |] eqn:Er;
      try discriminate.
    inversion H; subst v nodes' log; clear H.
    constructor; [|apply (IH _ _ _ _ _ Er)].
    pose proof (fresh_time_spec node
                  (w_time w + get_travel_time self (w_location w) l)) as (_ & _ & _ & Fr).
    pose proof (fresh_capacity_spec
                  (fresh_time node (w_time w + get_travel_time self (w_location w) l))
                  (w_capacity w + delta node)) as (_ & _ & _ & Gr).
    rewrite Gr, Fr. apply (get_info_Ok_in_range _ _ _ Ei).
Qed.

Lemma accepted_well_indexed is_complete self agent agent' log :
  has_valid_path is_complete self agent = Ok (true, agent', log) ->
  well_indexed (LearningAgent.path agent') /\
  LearningAgent.position agent' = LearningAgent.position agent.
Proof.
  intros H. apply has_valid_path_inv in H.
  destruct H as [(_ & Hb & _)|(_ & v & nodes' & Hv & Hm)]; [discriminate|].
  destruct v as [w|]; [|destruct Hm; discriminate].
  destruct Hm as (_ & ->). split; [|reflexivity].
  unfold well_indexed. simpl. apply (validate_nodes_in_range _ _ _ _ _ _ _ _ Hv).
Qed.

(** X10.  A vehicle that [has_valid_path] has accepted can be stepped:
    when every hop takes at least one unit of time and the vehicle is at
    least one unit away from its next location, [_move_agent] on the
    vehicle as the validator left it returns, for every time budget,
    within [budget + 1] iterations; no lookup of a request fails and
    [visit_next_location] is never called on an empty path. *)
Theorem accepted_vehicle_moves is_complete self agent agent' log fuel budget :
  has_valid_path is_complete self agent = Ok (true, agent', log) ->
  positive_hops self ->
  1 <= Position.time_to_next_location (LearningAgent.position agent) ->
  budget < Z.of_nat fuel ->
  exists moved remaining,
    _move_agent self fuel agent' budget = Ok (moved, remaining).
Proof.
  intros H Hpos Ht Hf.
  destruct (accepted_well_indexed _ _ _ _ _ H) as (Hw & Hp).
  apply (move_agent_runs self Hpos); [exact Hw | rewrite Hp; exact Ht | exact Hf].
Qed.

Lemma flat_positive_hops : positive_hops Sample.flat.
Proof. intros a b. simpl. lia. Qed.

Lemma accepted_vehicle_moves_witness :
  exists agent' log moved remaining,
    has_valid_path Sample.visits_all Sample.flat Sample.one_trip
      = Ok (true, agent', log) /\
    _move_agent Sample.flat 61 agent' 60 = Ok (moved, remaining).
Proof.
  assert (Ht : 1 <= Position.time_to_next_location
                      (LearningAgent.position Sample.one_trip)) by (simpl; lia).
  assert (Hf : 60 < Z.of_nat 61) by lia.
  destruct (accepted_vehicle_moves Sample.visits_all Sample.flat Sample.one_trip
              _ _ 61 60 eq_refl flat_positive_hops Ht Hf)
    as (moved & remaining & H).
  do 2 eexists. exists moved, remaining. split; [reflexivity | exact H].
Defined.

(* ------------------------------------------------------------------ *)
(** ** A vehicle with nothing to visit *)

(** X11.  A vehicle with an empty path never changes location: the
    stepper leaves its path and next location as they are.  When the
    budget covers [time_to_next_location] the vehicle is left exactly as
    it was, its [time_to_next_location] included, and the budget less
    that time is returned as spare time, so the same amount is taken
    off again by the next call. *)
Theorem idle_vehicle_stays_put self fuel agent budget :
  Path.is_empty (LearningAgent.path agent) = true ->
  0 <= budget ->
  let t := Position.time_to_next_location (LearningAgent.position agent) in
  exists agent',
    _move_agent self (S fuel) agent budget = Ok (agent', budget - t) /\
    LearningAgent.path agent' = LearningAgent.path agent /\
    Position.next_location (LearningAgent.position agent')
    = Position.next_location (LearningAgent.position agent) /\
    (t <= budget -> agent' = agent).
Proof.
  intros He Hb t. rewrite move_agent_step by exact Hb. cbv zeta. fold t.
  unfold Path.is_empty in He. unfold Path.get_next_location, Path.is_empty.
  destruct (Path.request_order (LearningAgent.path agent)) eqn:Eo; [|discriminate].
  destruct (0 <=? budget - t) eqn:E.
  - simpl. rewrite Eo. simpl. eexists. split; [reflexivity|].
    destruct agent as [i pos p]. simpl. repeat split.
  - apply Z.leb_gt in E. eexists. split; [reflexivity|].
    simpl. repeat split. lia.
Qed.

Lemma idle_vehicle_stays_put_witness :
  exists agent',
    _move_agent (Sample.envt 1 []) 1 Sample.crowded_idle 60 = Ok (agent', 60 - 0) /\
    agent' = Sample.crowded_idle.
Proof.
  assert (Hb : 0 <= 60) by lia.
  destruct (idle_vehicle_stays_put (Sample.envt 1 []) 0 Sample.crowded_idle 60
              eq_refl Hb) as (agent' & H & _ & _ & Heq).
  exists agent'. split; [exact H|]. apply Heq. simpl. lia.
Defined.

(* ------------------------------------------------------------------ *)
(** ** The rebalancing targets, whatever the solver answers *)

(** X12.  Whatever the solver answers, [_get_rebalance_targets] returns
    at most one target per vehicle, and every target it returns is a
    request of the recent history. *)
Theorem rebalance_targets_from_history draws solve self agents targets :
  _get_rebalance_targets draws solve self agents = Ok targets ->
  (length targets <= length agents)%nat /\
  Forall (fun target => In target (NYEnvironment.recent_request_history self)) targets.
Proof.
  unfold _get_rebalance_targets. intros H.
  apply bind_Ok_inv in H. destruct H as (sampled & Hs & H).
  assert (Hsol : exists solution,
            targets = read_assignment solution (length agents) sampled).
  { destruct agents as [|agent rest]; [discriminate|].
    destruct (solve _ _ _) as [solution|]; [|discriminate].
    inversion H. eauto. }
  destruct Hsol as (solution & ->). clear H.
  destruct (read_assignment_from solution (length agents) sampled) as (Hl & Hin).
  split; [exact Hl|].
  apply sample_targets_in in Hs. destruct Hs as (_ & Hh).
  rewrite Forall_forall in *. intros target Ht. apply Hh, Hin, Ht.
Qed.

Lemma rebalance_targets_from_history_witness :
  exists targets,
    _get_rebalance_targets (fun _ => 0%nat) (fun _ _ _ => Some (fun _ _ => 1))
      (Sample.envt 1 [Sample.trip 1 3 100 200])
      [Sample.idle 0; Sample.idle 4] = Ok targets /\
    (length targets <= 2)%nat.
Proof.
  eexists. split; [reflexivity|].
  apply (rebalance_targets_from_history (fun _ => 0%nat)
           (fun _ _ _ => Some (fun _ _ => 1))
           (Sample.envt 1 [Sample.trip 1 3 100 200])
           [Sample.idle 0; Sample.idle 4] _ eq_refl).
Defined.

(* ------------------------------------------------------------------ *)
(** ** The fleet step as a whole *)

Section FleetFrame.

Variable self : NYEnvironment.t.
Variable fuel : nat.

Context {A : Type}.
Variable f : LearningAgent.t -> A.

Hypothesis f_moved :
  forall fuel agent budget agent' remaining,
    _move_agent self fuel agent budget = Ok (agent', remaining) -> f agent' = f agent.

Lemma store_map agents slot agent agent' :
  nth_error agents slot = Some agent -> f agent' = f agent ->
  map f (store agents slot agent') = map f agents.
Proof.
  revert slot. induction agents as [|a rest IH]; intros [|slot] Hn Hf; simpl in *;
    try discriminate.
  - inversion Hn; subst. rewrite Hf. reflexivity.
  - rewrite (IH _ Hn Hf). reflexivity.
Qed.

Lemma move_agents_map :
  forall agents s moved atr,
    move_agents self fuel agents s = Ok (moved, atr) -> map f moved = map f agents.
Proof.
  induction agents as [|agent rest IH]; intros s moved atr H; simpl in H.
  - inversion H; subst. reflexivity.
  - apply bind_Ok_inv in H. destruct H as ([agent' r] & Hm & H).
    apply bind_Ok_inv in H. destruct H as ([rest' atr'] & Hr & H).
    inversion H; subst moved atr; clear H. simpl.
    rewrite (f_moved _ _ _ _ _ Hm), (IH _ _ _ Hr). reflexivity.
Qed.

Hypothesis f_probed :
  forall agent target time_remaining agent',
    probe self fuel agent target time_remaining = Ok agent' -> f agent' = f agent.

Lemma rebalance_map :
  forall targets atr agents agents',
    rebalance self fuel agents atr targets = Ok agents' ->
    map f agents' = map f agents.
Proof.
  induction targets as [|target targets IH]; intros atr agents agents' H; simpl in H.
  - inversion H; subst. reflexivity.
  - destruct atr as [|[slot tr] others]; [discriminate|].
    destruct (nth_error agents slot) as [agent|] eqn:En; [|discriminate].
    apply bind_Ok_inv in H. destruct H as (agent1 & Hp & H).
    rewrite (IH _ _ _ H).
    apply (store_map _ _ _ _ En (f_probed _ _ _ _ Hp)).
Qed.

End FleetFrame.

Lemma move_agent_kept self fuel agent budget agent' remaining :
  _move_agent self fuel agent budget = Ok (agent', remaining) ->
  kept agent' = kept agent.
Proof.
  intros H. apply move_agent_frame in H. destruct H as (Hi & _ & Hc & Hd).
  unfold kept. rewrite Hi, Hc, Hd. reflexivity.
Qed.

Lemma probe_kept self fuel agent target time_remaining agent' :
  probe self fuel agent target time_remaining = Ok agent' ->
  kept agent' = kept agent.
Proof.
  intros H. apply probe_spec in H. destruct H as (Hi & _ & _ & Hc & Hd).
  unfold kept. rewrite Hi, Hc, Hd. reflexivity.
Qed.

(** X14.  A fleet step that completes keeps the fleet: the vehicles are
    as many as before and in the same order, each with the identity, the
    declared occupancy and the total delay it had; of the environment
    only the request history changes, by the requests of the epoch. *)
Theorem simulate_motion_keeps_fleet draws solve self fuel agents current_requests
    self' agents' :
  simulate_motion draws solve self fuel agents current_requests = Ok (self', agents') ->
  self' = update_recent_requests self current_requests /\
  length agents' = length agents /\
  map LearningAgent.id agents' = map LearningAgent.id agents /\
  map (fun agent => Path.current_capacity (LearningAgent.path agent)) agents'
  = map (fun agent => Path.current_capacity (LearningAgent.path agent)) agents /\
  map (fun agent => Path.total_delay (LearningAgent.path agent)) agents'
  = map (fun agent => Path.total_delay (LearningAgent.path agent)) agents.
Proof.
  intros H. apply simulate_motion_inv in H.
  destruct H as (Hs & moved & atr & Hm & Hr). split; [exact Hs|].
  assert (Hk : map kept agents' = map kept agents).
  { rewrite <- (move_agents_map self fuel kept (move_agent_kept self) _ _ _ _ Hm).
    destruct Hr as [(_ & ->)|(_ & targets & _ & Hr)]; [reflexivity|].
    apply (rebalance_map self' fuel kept (probe_kept self' fuel) _ _ _ _ Hr). }
  split; [rewrite <- (length_map kept agents'), Hk; apply length_map|].
  assert (Hg : forall (B : Type) (g : nat * Z * Z -> B),
             map (fun a => g (kept a)) agents' = map (fun a => g (kept a)) agents).
  { intros B g. rewrite <- !(map_map kept g), Hk. reflexivity. }
  split; [exact (Hg _ (fun k => fst (fst k)))|].
  split; [exact (Hg _ (fun k => snd (fst k))) | exact (Hg _ snd)].
Qed.

Lemma simulate_motion_keeps_fleet_witness :
  exists self' agents',
    simulate_motion (fun _ => 0%nat) (fun _ _ _ => Some Sample.diagonal)
      (Sample.envt 1 []) 20 [Sample.one_trip; Sample.idle 2]
      [Sample.trip 1 3 100 200] = Ok (self', agents') /\
    length agents' = 2%nat /\
    map LearningAgent.id agents' = [0; 0]%nat.
Proof.
  assert (E : exists self' agents',
            simulate_motion (fun _ => 0%nat) (fun _ _ _ => Some Sample.diagonal)
              (Sample.envt 1 []) 20 [Sample.one_trip; Sample.idle 2]
              [Sample.trip 1 3 100 200] = Ok (self', agents'))
    by (vm_compute; eauto).
  destruct E as (self' & agents' & E). exists self', agents'. split; [exact E|].
  destruct (simulate_motion_keeps_fleet _ _ _ _ _ _ _ _ E) as (_ & Hl & Hi & _).
  split; [exact Hl | exact Hi].
Defined.

Lemma move_agents_nth self fuel :
  forall agents s moved atr,
    move_agents self fuel agents s = Ok (moved, atr) ->
    forall k agent,
      nth_error agents k = Some agent ->
      exists agent1 r,
        _move_agent self fuel agent (get_epoch_length self) = Ok (agent1, r) /\
        nth_error moved k = Some agent1.
Proof.
  induction agents as [|a rest IH]; intros s moved atr H k agent Hn; simpl in H.
  - destruct k; discriminate.
  - apply bind_Ok_inv in H. destruct H as ([agent' r] & Hm & H).
    apply bind_Ok_inv in H. destruct H as ([rest' atr'] & Hr & H).
    inversion H; subst moved atr; clear H.
    destruct k as [|k]; simpl in Hn |- *.
    + inversion Hn; subst. eauto.
    + apply (IH _ _ _ Hr _ _ Hn).
Qed.

(** X15.  A vehicle that the first loop leaves without spare time (its
    move returns a time that is not positive) is not rebalanced: a
    completed fleet step leaves it exactly as its own move left it. *)
Theorem no_spare_time_no_rebalancing draws solve self fuel agents current_requests
    self' agents' slot agent agent1 r :
  simulate_motion draws solve self fuel agents current_requests = Ok (self', agents') ->
  nth_error agents slot = Some agent ->
  _move_agent self fuel agent (get_epoch_length self) = Ok (agent1, r) ->
  r <= 0 ->
  nth_error agents' slot = Some agent1.
Proof.
  intros H Hn Hmove Hr. apply simulate_motion_inv in H.
  destruct H as (_ & moved & atr & Hm & Hcase).
  destruct (move_agents_nth self fuel _ _ _ _ Hm _ _ Hn) as (a1 & r1 & Hmove1 & Hn1).
  rewrite Hmove in Hmove1. inversion Hmove1; subst a1 r1; clear Hmove1.
  destruct Hcase as [(_ & ->)|(_ & targets & _ & Hreb)]; [exact Hn1|].
  pose proof (move_agents_slots self fuel _ _ _ _ Hm) as Hnd.
  destruct (rebalance_spec self' fuel _ _ _ _ Hreb Hnd) as (_ & _ & Hother).
  rewrite Hother; [exact Hn1|].
  intros Hin. apply in_map_iff in Hin. destruct Hin as ([s tr] & Hs & Hin).
  simpl in Hs. subst s. apply in_firstn in Hin.
  destruct (move_agents_entries self fuel _ _ _ _ Hm) as (_ & Hent).
  destruct (Hent _ _ Hin) as (_ & Hpos & a & a' & Ha & _ & Hmv).
  rewrite Nat.sub_0_r in Ha. rewrite Hn in Ha. inversion Ha; subst a.
  rewrite Hmove in Hmv. inversion Hmv; subst. lia.
Qed.

Lemma no_spare_time_no_rebalancing_witness :
  exists self' agents' agent1,
    simulate_motion (fun _ => 0%nat) (fun _ _ _ => Some Sample.diagonal)
      (Sample.envt 1 []) 20 [Sample.vehicle 0 90 (Path.mk [] [] 0 0); Sample.idle 2]
      [Sample.trip 1 3 100 200] = Ok (self', agents') /\
    _move_agent (Sample.envt 1 []) 20 (Sample.vehicle 0 90 (Path.mk [] [] 0 0)) 60
      = Ok (agent1, -30) /\
    nth_error agents' 0 = Some agent1.
Proof.
  do 3 eexists. split; [reflexivity|]. split; [reflexivity|].
  assert (Hr : -30 <= 0) by lia.
  apply (no_spare_time_no_rebalancing (fun _ => 0%nat) (fun _ _ _ => Some Sample.diagonal)
           (Sample.envt 1 []) 20 [Sample.vehicle 0 90 (Path.mk [] [] 0 0); Sample.idle 2]
           [Sample.trip 1 3 100 200] _ _ 0%nat _ _ (-30) eq_refl eq_refl eq_refl Hr).
Defined.

Lemma move_agents_no_spare self fuel :
  forall agents s,
    (forall agent, In agent agents ->
       exists agent1 r,
         _move_agent self fuel agent (get_epoch_length self) = Ok (agent1, r) /\ r <= 0) ->
    exists moved, move_agents self fuel agents s = Ok (moved, []).
Proof.
  induction agents as [|agent rest IH]; intros s Hall; simpl; [eauto|].
  destruct (Hall agent (or_introl eq_refl)) as (agent1 & r & Hm & Hr).
  destruct (IH (S s)) as (rest' & Hrest).
  { intros a Ha. apply Hall. right. exact Ha. }
  rewrite Hm. simpl. rewrite Hrest. simpl.
  replace (0 <? r) with false by (symmetry; apply Z.ltb_ge; exact Hr). eauto.
Qed.

(** X16.  When the move of every vehicle returns without spare time, the
    fleet step completes whatever the history, the random source and the
    solver are: no target is sampled and no model is solved. *)
Theorem simulate_motion_without_spare_time draws solve self fuel agents current_requests :
  (forall agent, In agent agents ->
     exists agent1 r,
       _move_agent self fuel agent (get_epoch_length self) = Ok (agent1, r) /\ r <= 0) ->
  exists moved,
    simulate_motion draws solve self fuel agents current_requests
    = Ok (update_recent_requests self current_requests, moved) /\
    move_agents self fuel agents 0 = Ok (moved, []).
Proof.
  intros Hall. destruct (move_agents_no_spare self fuel agents 0%nat Hall) as (moved & Hm).
  exists moved. split; [|exact Hm].
  unfold simulate_motion. rewrite Hm. reflexivity.
Qed.

Lemma simulate_motion_without_spare_time_witness :
  exists moved,
    simulate_motion (fun _ => 0%nat) (fun _ _ _ => None)
      (Sample.envt 1 []) 20 [Sample.vehicle 0 90 (Path.mk [] [] 0 0)] []
    = Ok (update_recent_requests (Sample.envt 1 []) [], moved) /\
    move_agents (Sample.envt 1 []) 20 [Sample.vehicle 0 90 (Path.mk [] [] 0 0)] 0
    = Ok (moved, []).
Proof.
  apply (simulate_motion_without_spare_time (fun _ => 0%nat) (fun _ _ _ => None)
           (Sample.envt 1 []) 20 [Sample.vehicle 0 90 (Path.mk [] [] 0 0)] []).
  intros agent [<-|[]]. do 2 eexists. split; [reflexivity|]. vm_compute. discriminate.
Defined.

(* ------------------------------------------------------------------ *)
(** ** More on the reader *)

Section ReaderRuns.

Variable Request_new : Location -> Location -> Z -> Z -> Request.t.
Variable self : NYEnvironment.t.
Variables start_hour end_hour : Z.

Local Abbreviation step := (read_line Request_new self start_hour end_hour).
Local Abbreviation steps := (read_lines Request_new self start_hour end_hour).
Local Abbreviation run := (get_request_batch Request_new self start_hour end_hour).
Local Abbreviation st0 := (mkreader (NYEnvironment.current_time self) [] true None []).

Lemma get_request_batch_cases lines :
  (exists st e, steps st0 lines = (st, Some e) /\
                e = AssertionError /\ ~ well_formed lines /\
                run lines = (yielded st, Raised AssertionError)) \/
  (exists st, steps st0 lines = (st, None) /\ well_formed lines /\
              current_hour st = None /\ (headers lines < 2)%nat /\
              run lines = (yielded st, Raised UnboundLocalError)) \/
  (exists st hour, steps st0 lines = (st, None) /\ well_formed lines /\
                   current_hour st = Some hour /\ (2 <= headers lines)%nat /\
                   run lines = (if in_hours start_hour end_hour hour
                                then yielded st ++ [request_list st]
                                else yielded st, StopIteration)).
Proof.
  unfold get_request_batch.
  destruct (steps st0 lines) as [st [e|]] eqn:E.
  - left. exists st, e. split; [reflexivity|].
    pose proof (read_lines_raises Request_new self start_hour end_hour _ _ _ _ E) as ->.
    repeat split.
    intros Hw.
    destruct (read_lines_well_formed Request_new self start_hour end_hour _ Hw st0)
      as (st' & E').
    rewrite E in E'. discriminate.
  - right.
    pose proof (read_lines_passed Request_new self start_hour end_hour _ _ _ E) as Hw.
    pose proof (read_lines_seen Request_new self start_hour end_hour _ _ _ E) as Hs.
    change (seen st0) with 0%nat in Hs. rewrite Nat.add_0_l in Hs.
    unfold seen in Hs.
    destruct (current_hour st) as [hour|] eqn:Eh.
    + right. exists st, hour. repeat split; auto.
      destruct (le_lt_dec 2 (headers lines)) as [Hh|Hh]; [exact Hh|].
      rewrite Nat.min_r in Hs by lia. lia.
    + left. exists st. repeat split; auto.
      destruct (le_lt_dec 2 (headers lines)) as [Hh|Hh]; [|exact Hh].
      rewrite Nat.min_l in Hs by exact Hh. destruct (is_first_epoch st); discriminate.
Qed.

(** X17.  The generator ends normally only on a body whose every line
    is an epoch header or a request line and that has at least two epoch
    headers: a line that is neither, or a body with fewer than two
    headers, ends it with an exception. *)
Theorem get_request_batch_exits lines :
  snd (get_request_batch Request_new self start_hour end_hour lines) = StopIteration ->
  well_formed lines /\ (2 <= headers lines)%nat.
Proof.
  destruct (get_request_batch_cases lines)
    as [(st & e & _ & _ & Hw & ->)|[(st & _ & Hw & _ & Hh & ->)|(st & hour & _ & Hw & _ & Hh & ->)]];
    cbn [snd]; try discriminate.
  intros _. split; [exact Hw | exact Hh].
Qed.

(** The window [start_hour <= hour < end_hour] is empty. *)
Lemma read_lines_empty_window :
  end_hour <= start_hour ->
  forall lines st st' oe,
    steps st lines = (st', oe) -> yielded st = [] -> yielded st' = [].
Proof.
  intros Hw. induction lines as [|line rest IH]; intros st st' oe H Hy; simpl in H.
  - inversion H; subst. exact Hy.
  - destruct (step st line) as [e|st1] eqn:E.
    + inversion H; subst. exact Hy.
    + apply (IH _ _ _ H). unfold read_line in E.
      destruct (new_epoch_re _) as [epoch|].
      * destruct (negb (is_first_epoch st)); inversion E; subst; simpl; [|exact Hy].
        replace (in_hours start_hour end_hour _) with false; [exact Hy|].
        symmetry. unfold in_hours. apply andb_false_iff.
        destruct (Z.leb_spec start_hour (r_current_time st ÷ 3600)); [right|left; reflexivity].
        apply Z.ltb_ge. lia.
      * destruct (request_re _) as [[[s d] n]|]; inversion E; subst; simpl. exact Hy.
Qed.

(** X18.  With an hour window that is empty ([end_hour <= start_hour])
    the generator yields no batch, whatever the file holds. *)
Theorem empty_hour_window_yields_nothing lines :
  end_hour <= start_hour ->
  fst (get_request_batch Request_new self start_hour end_hour lines) = [].
Proof.
  intros Hw.
  assert (Hy : forall st oe, steps st0 lines = (st, oe) -> yielded st = []).
  { intros st oe H. apply (read_lines_empty_window Hw _ _ _ _ H). reflexivity. }
  assert (Hn : forall hour, in_hours start_hour end_hour hour = false).
  { intros hour. unfold in_hours. apply andb_false_iff.
    destruct (Z.leb_spec start_hour hour); [right|left; reflexivity].
    apply Z.ltb_ge. lia. }
  destruct (get_request_batch_cases lines)
    as [(st & e & H & _ & _ & ->)|[(st & H & _ & _ & _ & ->)|(st & hour & H & _ & _ & _ & ->)]];
    simpl; rewrite ?Hn; apply (Hy _ _ H).
Qed.

Lemma read_lines_yields :
  forall lines st st' oe,
    steps st lines = (st', oe) ->
    (length (yielded st') + (if is_first_epoch st then 1 else 0)
     <= length (yielded st) + Nat.max (headers lines) (if is_first_epoch st then 1 else 0))%nat.
Proof.
  induction lines as [|line rest IH]; intros st st' oe H; simpl in H.
  - inversion H; subst. unfold headers. simpl. destruct (is_first_epoch st'); lia.
  - destruct (step st line) as [e|st1] eqn:E.
    + inversion H; subst. destruct (is_first_epoch st'); lia.
    + apply IH in H. unfold headers in *. cbn [filter].
      unfold read_line in E. unfold header_line at 1.
      destruct (new_epoch_re _) as [epoch|].
      * cbn [length].
        destruct (is_first_epoch st) eqn:Ef; simpl in E; inversion E; subst; simpl in H.
        -- lia.
        -- rewrite ?Ef in H.
           destruct (in_hours _ _ _); rewrite ?length_app in H; simpl in H; lia.
      * destruct (request_re _) as [[[s d] n]|]; inversion E; subst; simpl in H.
        destruct (is_first_epoch st); lia.
Qed.

(** X19.  The generator yields at most one batch per epoch header, and
    none from a file with fewer than two headers. *)
Theorem batches_bounded_by_headers lines :
  (length (fst (get_request_batch Request_new self start_hour end_hour lines))
   <= headers lines)%nat /\
  ((headers lines < 2)%nat ->
   fst (get_request_batch Request_new self start_hour end_hour lines) = []).
Proof.
  assert (Hy : forall st oe, steps st0 lines = (st, oe) ->
                 (length (yielded st) + 1 <= Nat.max (headers lines) 1)%nat).
  { intros st oe H. apply read_lines_yields in H. simpl in H. exact H. }
  destruct (get_request_batch_cases lines)
    as [(st & e & H & _ & _ & ->)|[(st & H & _ & _ & Hh & ->)|(st & hour & H & _ & _ & Hh & ->)]];
    simpl; apply Hy in H.
  - split; [lia|]. intros Hlt. destruct (yielded st); [reflexivity | simpl in H; lia].
  - split; [lia|]. intros _. destruct (yielded st); [reflexivity | simpl in H; lia].
  - split; [|lia]. destruct (in_hours _ _ _); rewrite ?length_app; simpl; lia.
Qed.

Local Abbreviation from_file := (read_from_file Request_new self).

Local Abbreviation inv := (reader_inv Request_new self).

Lemma read_line_inv st line st' :
  step st line = inr st' -> inv st -> inv st'.
Proof.
  unfold read_line, reader_inv. intros E (Ht & Hl & Hy).
  destruct (new_epoch_re _) as [epoch|].
  - destruct (negb (is_first_epoch st)); inversion E; subst; simpl; [|auto].
    split; [right; eauto|]. split; [constructor|].
    destruct (in_hours _ _ _); [|exact Hy].
    apply Forall_app. split; [exact Hy | constructor; [exact Hl | constructor]].
  - destruct (request_re _) as [[[s d] n]|]; inversion E; subst; simpl.
    split; [exact Ht|]. split; [|exact Hy].
    apply Forall_app. split; [exact Hl|].
    destruct (negb (ignored self s) && negb (ignored self d) && negb (s =? d)%nat) eqn:Ea;
      [|constructor].
    apply andb_prop in Ea. destruct Ea as (Ea & Hne).
    apply andb_prop in Ea. destruct Ea as (Hs & Hd).
    apply negb_true_iff in Hs, Hd, Hne. apply Nat.eqb_neq in Hne.
    apply Forall_forall. intros r Hr. apply repeat_spec in Hr. subst r.
    exists s, d, (r_current_time st). auto.
Qed.

Lemma read_lines_inv :
  forall lines st st' oe,
    steps st lines = (st', oe) -> inv st -> inv st'.
Proof.
  induction lines as [|line rest IH]; intros st st' oe H Hi; simpl in H.
  - inversion H; subst. exact Hi.
  - destruct (step st line) as [e|st1] eqn:E.
    + inversion H; subst. exact Hi.
    + apply (IH _ _ _ H). apply (read_line_inv _ _ _ E Hi).
Qed.

(** X20.  Every request of every batch the generator yields was built by
    the constructor from a line of the file: its two zones differ and
    neither is ignored, its travel time is the table's entry for the two
    zones, and its time stamp is the clock at the call or the start of an
    epoch named by a header. *)
Theorem yielded_requests_read_from_file lines :
  Forall (Forall (read_from_file Request_new self))
         (fst (get_request_batch Request_new self start_hour end_hour lines)).
Proof.
  assert (Hi : forall st oe, steps st0 lines = (st, oe) -> inv st).
  { intros st oe H. apply (read_lines_inv _ _ _ _ H).
    repeat split; [left; reflexivity | constructor | constructor]. }
  destruct (get_request_batch_cases lines)
    as [(st & e & H & _ & _ & ->)|[(st & H & _ & _ & _ & ->)|(st & hour & H & _ & _ & _ & ->)]];
    simpl; destruct (Hi _ _ H) as (_ & Hl & Hy); try exact Hy.
  destruct (in_hours _ _ _); [|exact Hy].
  apply Forall_app. split; [exact Hy | constructor; [exact Hl | constructor]].
Qed.

(** X21.  The epoch number of the first header is never read: two files
    that differ in their first line only, an epoch header in both, give
    the same batches and the same end. *)
Theorem first_header_number_unused header header' lines :
  header_line header = true -> header_line header' = true ->
  get_request_batch Request_new self start_hour end_hour (header :: lines)
  = get_request_batch Request_new self start_hour end_hour (header' :: lines).
Proof.
  unfold header_line, get_request_batch. cbn [read_lines]. unfold read_line.
  destruct (new_epoch_re (strip (chars header))) as [epoch|]; [|discriminate].
  destruct (new_epoch_re (strip (chars header'))) as [epoch'|]; [|discriminate].
  reflexivity.
Qed.

End ReaderRuns.

Lemma get_request_batch_exits_witness :
  snd (get_request_batch (fun a b t d => Sample.trip a b t d) (Sample.envt 1 []) 0 24
         ["Flows:0-0"; "1,2,2.0"; "Flows:1-1"; "3,4,1.0"]%string) = StopIteration /\
  well_formed ["Flows:0-0"; "1,2,2.0"; "Flows:1-1"; "3,4,1.0"]%string /\
  (2 <= headers ["Flows:0-0"; "1,2,2.0"; "Flows:1-1"; "3,4,1.0"]%string)%nat.
Proof.
  split; [reflexivity|].
  apply (get_request_batch_exits (fun a b t d => Sample.trip a b t d)
           (Sample.envt 1 []) 0 24). reflexivity.
Defined.

Lemma empty_hour_window_yields_nothing_witness :
  fst (get_request_batch (fun a b t d => Sample.trip a b t d) (Sample.envt 1 []) 9 9
         ["Flows:0-0"; "1,2,2.0"; "Flows:1-1"; "3,4,1.0"]%string) = [].
Proof.
  apply empty_hour_window_yields_nothing. lia.
Defined.

Lemma first_header_number_unused_witness :
  get_request_batch (fun a b t d => Sample.trip a b t d) (Sample.envt 1 []) 0 24
    ["Flows:0-0"; "1,2,2.0"; "Flows:1-1"; "3,4,1.0"]%string
  = get_request_batch (fun a b t d => Sample.trip a b t d) (Sample.envt 1 []) 0 24
      ["Flows:977-977"; "1,2,2.0"; "Flows:1-1"; "3,4,1.0"]%string.
Proof.
  apply first_header_number_unused; reflexivity.
Defined.

(* ------------------------------------------------------------------ *)
(** ** The two patterns of the reader *)

Lemma match_literal_app lit s : match_literal lit (lit ++ s) = Some s.
Proof.
  induction lit as [|a lit IH]; simpl; [destruct s; reflexivity|].
  rewrite Ascii.eqb_refl. exact IH.
Qed.

(** The digits of a decimal number. *)
Lemma uint_chars_digits d :
  Forall (fun c => is_digit c = true)
         (chars (DecimalString.NilEmpty.string_of_uint d)).
Proof.
  unfold chars.
  induction d; simpl; constructor; try reflexivity; assumption.
Qed.

Lemma int_of_digits_uint d :
  forall acc,
    fold_left (fun v c => (10 * v + (nat_of_ascii c - 48))%nat)
              (chars (DecimalString.NilEmpty.string_of_uint d)) acc
    = Nat.of_uint_acc d acc.
Proof.
  unfold chars.
  induction d; intros acc; cbn [DecimalString.NilEmpty.string_of_uint
                                 String.list_ascii_of_string fold_left Nat.of_uint_acc];
    try reflexivity;
    rewrite IHd; f_equal; rewrite Nat.tail_mul_spec;
    cbn [nat_of_ascii]; vm_compute (nat_of_ascii _ - 48)%nat; lia.
Qed.

Lemma str_of_nat_value n : int_of_digits (str_of_nat n) = n.
Proof.
  unfold int_of_digits, str_of_nat. rewrite int_of_digits_uint.
  apply DecimalNat.Unsigned.of_to.
Qed.

Lemma str_of_nat_digits n : Forall (fun c => is_digit c = true) (str_of_nat n).
Proof. apply uint_chars_digits. Qed.

Lemma str_of_nat_not_empty n : str_of_nat n <> [].
Proof.
  intros H. pose proof (str_of_nat_value n) as Hv. rewrite H in Hv.
  unfold int_of_digits in Hv. simpl in Hv. subst n. discriminate H.
Qed.

Lemma span_digits_app ds rest :
  Forall (fun c => is_digit c = true) ds -> stops_digits rest ->
  span_digits (ds ++ rest) = (ds, rest).
Proof.
  intros Hd Hr. induction Hd as [|c ds Hc _ IH]; cbn [app span_digits].
  - destruct rest as [|c tail]; [reflexivity|]. cbn [stops_digits span_digits] in *.
    rewrite Hr. reflexivity.
  - rewrite Hc, IH. reflexivity.
Qed.

Lemma match_number_str n rest :
  stops_digits rest -> match_number (str_of_nat n ++ rest) = Some (n, rest).
Proof.
  intros Hr. unfold match_number.
  rewrite (span_digits_app _ _ (str_of_nat_digits n) Hr).
  pose proof (str_of_nat_not_empty n) as Hne.
  pose proof (str_of_nat_value n) as Hv.
  destruct (str_of_nat n) as [|c ds]; [congruence|].
  rewrite Hv. reflexivity.
Qed.

Lemma match_number_digits n rest :
  exists rest', match_number (str_of_nat n ++ rest) = Some rest'.
Proof.
  unfold match_number.
  pose proof (str_of_nat_not_empty n) as Hne.
  pose proof (str_of_nat_digits n) as Hd.
  destruct (str_of_nat n) as [|c ds]; [congruence|].
  inversion Hd as [|? ? Hc _]; subst. cbn [app span_digits]. rewrite Hc.
  destruct (span_digits (ds ++ rest)) as [ds' tail]. eauto.
Qed.

(** X22.  The two patterns read back the numbers of a line written in
    decimal: [request_re] gives the three numbers of
    [source,destination,count.0] and [new_epoch_re] gives the first
    number of [Flows:first-second], whatever follows on the line. *)
Theorem patterns_read_decimal source destination count first second tail :
  request_re (str_of_nat source ++ chars "," ++ str_of_nat destination ++ chars ","
              ++ str_of_nat count ++ chars ".0" ++ tail)
  = Some (source, destination, count) /\
  new_epoch_re (chars "Flows:" ++ str_of_nat first ++ chars "-"
                ++ str_of_nat second ++ tail)
  = Some first.
Proof.
  split.
  - unfold request_re.
    rewrite match_number_str by reflexivity.
    rewrite match_literal_app.
    rewrite match_number_str by reflexivity.
    rewrite match_literal_app.
    rewrite match_number_str by reflexivity.
    rewrite match_literal_app. reflexivity.
  - unfold new_epoch_re.
    rewrite match_literal_app.
    rewrite match_number_str by reflexivity.
    rewrite match_literal_app.
    destruct (match_number_digits second tail) as ([v rest'] & ->). reflexivity.
Qed.

Lemma match_number_head s v :
  match_number s = Some v -> exists c tail, s = c :: tail /\ is_digit c = true.
Proof.
  unfold match_number. destruct s as [|c tail]; cbn [span_digits]; [discriminate|].
  destruct (is_digit c) eqn:E; [eauto | discriminate].
Qed.

(** X23.  No line matches both patterns, so the order in which the
    reader tries them does not matter: a line that [request_re] matches
    starts with a digit, one that [new_epoch_re] matches with [F]. *)
Theorem patterns_exclusive line groups :
  request_re line = Some groups -> new_epoch_re line = None.
Proof.
  unfold request_re, new_epoch_re. intros H.
  destruct (match_number line) as [[g1 s1]|] eqn:E; [|discriminate].
  apply match_number_head in E. destruct E as (c & tail & -> & Hc).
  cbn [chars String.list_ascii_of_string match_literal].
  destruct (Ascii.eqb "F" c) eqn:Ef; [|reflexivity].
  apply Ascii.eqb_eq in Ef. subst c. discriminate Hc.
Qed.

Lemma patterns_exclusive_witness :
  request_re (chars "17,42,2.0") = Some (17, 42, 2)%nat /\
  new_epoch_re (chars "17,42,2.0") = None.
Proof.
  split; [reflexivity|].
  apply (patterns_exclusive (chars "17,42,2.0") (17, 42, 2)%nat). reflexivity.
Defined.

(* ------------------------------------------------------------------ *)
(** ** The initial state *)

Lemma firstn_prefix {A} n (l : list A) : exists rest, l = firstn n l ++ rest.
Proof. exists (skipn n l). symmetry. apply firstn_skipn. Qed.

(** X24.  [get_initial_state] fails its assertion exactly when more than
    1000 vehicles are asked for.  Otherwise it returns a prefix of the
    initial zones: as many as asked for when there are that many, and
    all of them, without any error, when there are fewer. *)
Theorem initial_state_is_prefix initial_zones num_agents :
  (get_initial_state initial_zones num_agents = Raise AssertionError <->
   NUM_MAX_AGENTS < num_agents) /\
  (forall state,
     get_initial_state initial_zones num_agents = Ok state ->
     (exists rest, initial_zones = state ++ rest) /\
     (0 <= num_agents ->
      length state = Nat.min (Z.to_nat num_agents) (length initial_zones))).
Proof.
  unfold get_initial_state.
  destruct (Z.leb_spec num_agents NUM_MAX_AGENTS) as [Hle|Hgt].
  - split; [split; [discriminate | lia]|].
    intros state H. inversion H; subst state; clear H. unfold slice_to.
    destruct (Z.ltb_spec num_agents 0) as [Hn|Hn].
    + split; [apply firstn_prefix | lia].
    + split; [apply firstn_prefix|]. intros _. apply length_firstn.
  - split; [split; [intros _; exact Hgt | reflexivity]|].
    intros state H. discriminate.
Qed.

(* ------------------------------------------------------------------ *)
(** ** Rewards and scores *)

Section ScoreFacts.

Variable truthy : Path.t -> bool.
Variable DELAY_COEFFICIENT : QArith_base.Q.

Local Abbreviation value := (get_value truthy DELAY_COEFFICIENT).
Local Abbreviation scores := (score_actions truthy DELAY_COEFFICIENT).

Lemma score_actions_spec :
  forall feasible_actions scored_actions,
    scores feasible_actions = Ok scored_actions ->
    map fst scored_actions = feasible_actions /\
    Forall (fun scored =>
              exists new_path,
                Action.new_path (fst scored) = Some new_path /\
                truthy new_path = true /\
                snd scored
                = QArith_base.Qplus
                    (QArith_base.inject_Z (get_reward (fst scored)))
                    (QArith_base.Qmult DELAY_COEFFICIENT
                       (QArith_base.inject_Z (Path.total_delay new_path))))
           scored_actions.
Proof.
  induction feasible_actions as [|action rest IH]; intros scored_actions H; simpl in H.
  - inversion H; subst. split; [reflexivity | constructor].
  - apply bind_Ok_inv in H. destruct H as (scored & Hs & H).
    apply bind_Ok_inv in H. destruct H as (others & Ho & H).
    inversion H; subst scored_actions; clear H.
    destruct (IH _ Ho) as (Hm & Hall).
    unfold score_action in Hs.
    destruct (Action.new_path action) as [new_path|] eqn:En; [|discriminate].
    destruct (truthy new_path) eqn:Et; [|discriminate].
    inversion Hs; subst scored; clear Hs. simpl.
    split; [rewrite Hm; reflexivity|].
    constructor; [|exact Hall]. simpl. exists new_path. auto.
Qed.

Lemma get_value_spec :
  forall agents feasible_actions_all_agents current_times scored_actions_all_agents,
    value agents feasible_actions_all_agents current_times
    = Ok scored_actions_all_agents ->
    length scored_actions_all_agents
    = Nat.min (length agents)
        (Nat.min (length feasible_actions_all_agents) (length current_times)) /\
    map (map fst) scored_actions_all_agents
    = firstn (length scored_actions_all_agents) feasible_actions_all_agents /\
    Forall (Forall (fun scored =>
              exists new_path,
                Action.new_path (fst scored) = Some new_path /\
                truthy new_path = true /\
                snd scored
                = QArith_base.Qplus
                    (QArith_base.inject_Z (get_reward (fst scored)))
                    (QArith_base.Qmult DELAY_COEFFICIENT
                       (QArith_base.inject_Z (Path.total_delay new_path)))))
           scored_actions_all_agents.
Proof.
  induction agents as [|agent agents IH];
    intros [|feasible_actions actions] [|time times] scored H; simpl in H;
    try (inversion H; subst; simpl; repeat split; constructor).
  apply bind_Ok_inv in H. destruct H as (scored_actions & Hs & H).
  apply bind_Ok_inv in H. destruct H as (others & Ho & H).
  inversion H; subst scored; clear H.
  destruct (IH _ _ _ Ho) as (Hl & Hm & Hall).
  destruct (score_actions_spec _ _ Hs) as (Hf & Hsc).
  cbn [length map firstn]. rewrite Hf, Hm.
  split; [rewrite Hl; rewrite <- !Nat.succ_min_distr; reflexivity|].
  split; [reflexivity|]. constructor; assumption.
Qed.

(** The scores do not depend on the vehicles and the times. *)
Lemma get_value_by_length :
  forall agents agents' feasible_actions_all_agents current_times current_times',
    length agents = length agents' ->
    length current_times = length current_times' ->
    value agents feasible_actions_all_agents current_times
    = value agents' feasible_actions_all_agents current_times'.
Proof.
  induction agents as [|agent agents IH];
    intros [|agent' agents'] [|feasible_actions actions] [|time times] [|time' times']
           Ha Ht; simpl in *; try discriminate; try reflexivity.
  rewrite (IH agents' actions times times'); [reflexivity | lia | lia].
Qed.

End ScoreFacts.

(** X26.  [RewardPlusDelay.get_value] keeps the shape of its input: it
    returns one list per vehicle, for as many vehicles as the shortest of
    its three arguments has, and the list of a vehicle holds that
    vehicle's actions, each once and in their order, every one with a
    path that passed the assertion and with the score
    [reward + DELAY_COEFFICIENT * total_delay] of that path. *)
Theorem get_value_keeps_shape truthy DELAY_COEFFICIENT
    agents feasible_actions_all_agents current_times scored_actions_all_agents :
  get_value truthy DELAY_COEFFICIENT agents feasible_actions_all_agents current_times
  = Ok scored_actions_all_agents ->
  length scored_actions_all_agents
  = Nat.min (length agents)
      (Nat.min (length feasible_actions_all_agents) (length current_times)) /\
  map (map fst) scored_actions_all_agents
  = firstn (length scored_actions_all_agents) feasible_actions_all_agents /\
  Forall (Forall (fun scored =>
            exists new_path,
              Action.new_path (fst scored) = Some new_path /\
              truthy new_path = true /\
              snd scored
              = QArith_base.Qplus
                  (QArith_base.inject_Z (get_reward (fst scored)))
                  (QArith_base.Qmult DELAY_COEFFICIENT
                     (QArith_base.inject_Z (Path.total_delay new_path)))))
         scored_actions_all_agents.
Proof. apply get_value_spec. Qed.

Lemma get_value_keeps_shape_witness :
  exists scored_actions_all_agents,
    get_value (fun _ => true) (QArith_base.Qmake 1 1000)
      [Sample.one_trip; Sample.idle 2; Sample.idle 4]
      [[Action.mk [Sample.trip 1 3 100 200] (Some (Path.mk [] [] 0 7)); Action.mk [] (Some (Path.mk [] [] 0 0))]; []]
      [0; 0; 0]
    = Ok scored_actions_all_agents /\
    length scored_actions_all_agents = 2%nat.
Proof.
  eexists. split; [reflexivity|].
  apply (get_value_keeps_shape (fun _ => true) (QArith_base.Qmake 1 1000)
           [Sample.one_trip; Sample.idle 2; Sample.idle 4]
           [[Action.mk [Sample.trip 1 3 100 200] (Some (Path.mk [] [] 0 7));
             Action.mk [] (Some (Path.mk [] [] 0 0))]; []]
           [0; 0; 0] _ eq_refl).
Defined.

(** X27.  The scores of [RewardPlusDelay.get_value] do not depend on the
    vehicles or on the times it is given, only on how many there are:
    with other vehicles and other times, as many as before, the result
    is the same. *)
Theorem get_value_ignores_vehicles truthy DELAY_COEFFICIENT
    agents agents' feasible_actions_all_agents current_times current_times' :
  length agents = length agents' ->
  length current_times = length current_times' ->
  get_value truthy DELAY_COEFFICIENT agents feasible_actions_all_agents current_times
  = get_value truthy DELAY_COEFFICIENT agents' feasible_actions_all_agents current_times'.
Proof. apply get_value_by_length. Qed.

Lemma get_value_ignores_vehicles_witness :
  get_value (fun _ => true) (QArith_base.Qmake 1 1000)
    [Sample.one_trip; Sample.idle 2]
    [[Action.mk [Sample.trip 1 3 100 200] (Some (Path.mk [] [] 0 0))]; []] [0; 0]
  = get_value (fun _ => true) (QArith_base.Qmake 1 1000)
      [Sample.idle 4; Sample.crowded_idle]
      [[Action.mk [Sample.trip 1 3 100 200] (Some (Path.mk [] [] 0 0))]; []] [60; 120].
Proof.
  apply get_value_ignores_vehicles; reflexivity.
Defined.

(** X28.  With a delay coefficient of zero, as in [ImmediateReward], the
    score of every action is its reward, the value that [get_reward]
    returns for it. *)
Theorem immediate_reward_scores truthy agents feasible_actions_all_agents
    current_times scored_actions_all_agents :
  get_value truthy (QArith_base.inject_Z 0) agents feasible_actions_all_agents
    current_times = Ok scored_actions_all_agents ->
  Forall (Forall (fun scored =>
            QArith_base.Qeq (snd scored)
              (QArith_base.inject_Z (get_reward (fst scored)))))
         scored_actions_all_agents.
Proof.
  intros H. apply get_value_spec in H. destruct H as (_ & _ & H).
  eapply Forall_impl; [|exact H]. intros scored_actions Hs.
  eapply Forall_impl; [|exact Hs]. intros scored (new_path & _ & _ & ->).
  rewrite QArith_base.Qmult_0_l. apply QArith_base.Qplus_0_r.
Qed.

Lemma immediate_reward_scores_witness :
  exists scored,
    get_value (fun _ => true) (QArith_base.inject_Z 0) [Sample.one_trip]
      [[Action.mk [Sample.trip 1 3 100 200] (Some (Path.mk [] [] 0 7))]] [0]
    = Ok [[scored]] /\
    QArith_base.Qeq (snd scored) (QArith_base.inject_Z 1).
Proof.
  eexists. split; [reflexivity|].
  pose proof (immediate_reward_scores (fun _ => true) [Sample.one_trip]
                [[Action.mk [Sample.trip 1 3 100 200] (Some (Path.mk [] [] 0 7))]] [0]
                _ eq_refl) as H.
  inversion H as [|? ? H1 _]; subst. inversion H1 as [|? ? H2 _]; subst. exact H2.
Defined.

(* ------------------------------------------------------------------ *)
(** ** Flattening and reconstruction *)

Lemma reconstruct_from_offsets {A} (groups : list (list A)) :
  forall (before : list A),
    reconstruct_from (before ++ concat groups) (shape_info_from (length before) groups)
    = groups.
Proof.
  induction groups as [|g groups IH]; intros before; [reflexivity|].
  cbn [shape_info_from concat].
  assert (Hs : forall rest, shape_info_from (length before + length g) groups = rest ->
            reconstruct_from (before ++ g ++ concat groups)
              (length before :: rest)
            = slice (before ++ g ++ concat groups) (length before)
                    (length before + length g)
              :: reconstruct_from (before ++ g ++ concat groups) rest).
  { intros rest <-. destruct groups; reflexivity. }
  rewrite (Hs _ eq_refl). f_equal.
  - unfold slice. rewrite skipn_app, skipn_all, Nat.sub_diag. simpl.
    replace (length before + length g - length before)%nat with (length g) by lia.
    rewrite firstn_app, firstn_all, Nat.sub_diag. simpl. apply app_nil_r.
  - rewrite <- length_app, app_assoc. apply IH.
Qed.

(** X29.  Reconstruction undoes flattening: when [_flatten_NN_input]
    returns, cutting the stacked elements at the offsets it has
    remembered gives the elements back, each with its own items, in
    their order. *)
Theorem reconstruct_flattened {A} (array_of_list : list (list A)) flat offsets :
  _flatten_NN_input array_of_list = Ok (flat, offsets) ->
  _reconstruct_NN_output flat offsets = Ok array_of_list.
Proof.
  unfold _flatten_NN_input, shape_info.
  destruct array_of_list as [|g groups]; [discriminate|].
  intros H. injection H as <- <-.
  change (Ok (reconstruct_from ([] ++ concat (g :: groups))
                (shape_info_from (length (@nil A)) (g :: groups)))
          = Ok (g :: groups)).
  rewrite (reconstruct_from_offsets (g :: groups) []). reflexivity.
Qed.

Lemma reconstruct_flattened_witness :
  _reconstruct_NN_output [1; 2; 3; 4; 5] [0; 2; 2; 5]%nat = Ok [[1; 2]; []; [3; 4; 5]].
Proof.
  apply (reconstruct_flattened [[1; 2]; []; [3; 4; 5]]). reflexivity.
Defined.

Lemma reconstruct_from_length {A} (NN_output : list A) :
  forall offsets,
    length (reconstruct_from NN_output offsets) = pred (length offsets).
Proof.
  induction offsets as [|start_idx rest IH]; [reflexivity|].
  destruct rest as [|end_idx rest]; [reflexivity|].
  cbn [reconstruct_from length] in *. rewrite IH. reflexivity.
Qed.

Lemma reconstruct_from_nth {A} (NN_output : list A) :
  forall offsets idx list_el,
    nth_error (reconstruct_from NN_output offsets) idx = Some list_el ->
    (length list_el <= nth (S idx) offsets 0 - nth idx offsets 0)%nat.
Proof.
  induction offsets as [|start_idx rest IH]; intros idx list_el Hn.
  - destruct idx; discriminate.
  - destruct rest as [|end_idx rest]; [destruct idx; discriminate|].
    cbn [reconstruct_from] in Hn. destruct idx as [|idx].
    + cbn [nth_error] in Hn. inversion Hn; subst list_el. unfold slice.
      rewrite length_firstn. cbn [nth]. lia.
    + cbn [nth_error] in Hn. apply IH in Hn. exact Hn.
Qed.

(** X30.  [_reconstruct_NN_output] fails its assertion exactly on an
    empty [shape_info]; otherwise it returns one list per pair of
    neighbouring offsets, whatever the output holds, each no longer than
    the distance between its two offsets. *)
Theorem reconstruct_shape {A} (NN_output : list A) (shape_info : list nat) :
  (_reconstruct_NN_output NN_output shape_info = Raise AssertionError <->
   shape_info = []) /\
  (forall output_as_list,
     _reconstruct_NN_output NN_output shape_info = Ok output_as_list ->
     length output_as_list = pred (length shape_info) /\
     forall idx list_el,
       nth_error output_as_list idx = Some list_el ->
       (length list_el <= nth (S idx) shape_info 0 - nth idx shape_info 0)%nat).
Proof.
  unfold _reconstruct_NN_output.
  destruct shape_info as [|start_idx rest].
  - split; [tauto|]. intros ? H. discriminate.
  - split; [split; discriminate|].
    intros output_as_list H. injection H as <-.
    split; [exact (reconstruct_from_length NN_output (start_idx :: rest))|].
    exact (reconstruct_from_nth NN_output (start_idx :: rest)).
Qed.
